(** * Life in weeks: the grid-construction pipeline

    A shallow embedding of the calendar walk and the colour pass of the
    [WeeksGrid] component and of the row-breaking utilities of
    [app/utils/grid-layout.ts], with the properties of the design document
    stated and settled against them.

    Conventions of the embedding.

    - A JavaScript [number] is one of the IEEE special values or a finite
      value; a finite value is represented by the rational it denotes, and
      negative zero is not distinguished from zero.  The sums and products
      of whole numbers of pixels are exact in binary64 below 2^53 and are
      taken exact.  The operations of [calculateDynamicConstants] on the
      measured width, which may be any double, and the literal 0.95 are
      rounded to binary64 ([roundDouble]).
    - A JavaScript string is the list of its code points (a lone surrogate
      is a code point of its own); [String.length] counts UTF-16 units.
    - A [Date] is taken at day granularity, as the number of days between
      1970-01-01 and its local calendar day; an ISO date string
      ([formatDateString]) is identified with that day number, which orders
      and distinguishes dates the way the strings do.  Time of day, time
      zones and the constructor's remapping of the years 0..99 are outside
      the model.
    - A [for] loop over a range is a left fold over the list of its indices;
      [push] appends at the end. *)

From Stdlib Require Import ZArith QArith Qround Qabs Qpower Lia Lqa Bool List.
From stdpp Require Import base gmap list sorting strings pretty.

Local Open Scope Z_scope.

(** ** JavaScript numbers *)

Inductive number : Type :=
| Fin (q : Q)
| PosInf
| NegInf
| NaN.

Definition px (z : Z) : number := Fin (inject_Z z).

Definition Qlt_bool (p q : Q) : bool := negb (Qle_bool q p).

(** [a < b], [a <= b], [a > b], [a >= b]: every comparison with NaN is
    false. *)
Definition num_lt (a b : number) : bool :=
  match a, b with
  | NaN, _ | _, NaN => false
  | Fin p, Fin q => Qlt_bool p q
  | NegInf, NegInf => false
  | NegInf, _ => true
  | _, NegInf => false
  | PosInf, _ => false
  | Fin _, PosInf => true
  end.

Definition num_le (a b : number) : bool :=
  match a, b with
  | NaN, _ | _, NaN => false
  | Fin p, Fin q => Qle_bool p q
  | NegInf, _ => true
  | _, NegInf => false
  | _, PosInf => true
  | PosInf, Fin _ => false
  end.

Definition num_gt (a b : number) : bool := num_lt b a.
Definition num_ge (a b : number) : bool := num_le b a.

(** Truthiness of a number: [0] and [NaN] are falsy. *)
Definition num_truthy (a : number) : bool :=
  match a with
  | Fin q => negb (Qeq_bool q 0)
  | PosInf | NegInf => true
  | NaN => false
  end.

Definition num_add (a b : number) : number :=
  match a, b with
  | NaN, _ | _, NaN => NaN
  | Fin p, Fin q => Fin (p + q)
  | PosInf, NegInf | NegInf, PosInf => NaN
  | PosInf, _ | _, PosInf => PosInf
  | NegInf, _ | _, NegInf => NegInf
  end.

Definition num_neg (a : number) : number :=
  match a with
  | Fin q => Fin (- q)
  | PosInf => NegInf
  | NegInf => PosInf
  | NaN => NaN
  end.

(** An infinity scaled by a finite factor: the sign of the factor decides,
    and a zero factor gives NaN. *)
Definition scaleInf (inf : number) (q : Q) : number :=
  match Qcompare q 0 with
  | Gt => inf
  | Lt => num_neg inf
  | Eq => NaN
  end.

Definition num_mul (a b : number) : number :=
  match a, b with
  | NaN, _ | _, NaN => NaN
  | Fin p, Fin q => Fin (p * q)
  | Fin p, inf => scaleInf inf p
  | inf, Fin q => scaleInf inf q
  | PosInf, PosInf | NegInf, NegInf => PosInf
  | PosInf, NegInf | NegInf, PosInf => NegInf
  end.

Definition num_div (a b : number) : number :=
  match a, b with
  | NaN, _ | _, NaN => NaN
  | Fin p, Fin q =>
      if Qeq_bool q 0 then scaleInf PosInf p else Fin (p / q)
  | Fin _, _ => Fin 0
  | inf, Fin q => if Qeq_bool q 0 then inf else scaleInf inf q
  | _, _ => NaN
  end.

(** [Math.floor], [Math.min], [Math.max]. *)
Definition num_floor (a : number) : number :=
  match a with
  | Fin q => px (Qfloor q)
  | _ => a
  end.

Definition num_min (a b : number) : number :=
  match a, b with
  | NaN, _ | _, NaN => NaN
  | _, _ => if num_le a b then a else b
  end.

Definition num_max (a b : number) : number :=
  match a, b with
  | NaN, _ | _, NaN => NaN
  | _, _ => if num_le a b then b else a
  end.

Definition num_isFinite (a : number) : bool :=
  match a with Fin _ => true | _ => false end.

(** ** Rounding to binary64 *)

(** The largest [e] with [2^e <= q], for a positive rational. *)
Definition floorLog2 (q : Q) : Z :=
  let e := Z.log2 (Qnum q) - Z.log2 (Zpos (Qden q)) in
  if Qle_bool (2 ^ e) q then e else e - 1.

(** The nearest integer, a tie going to the even one. *)
Definition roundHalfEven (x : Q) : Z :=
  let f := Qfloor x in
  match Qcompare (x - inject_Z f) (1 # 2) with
  | Lt => f
  | Gt => f + 1
  | Eq => if Z.even f then f else f + 1
  end.

(** The spacing of the doubles at a rational other than zero: 53
    significant bits, and [2^-1074] throughout the subnormal range. *)
Definition quantumOf (q : Q) : Q :=
  (2 ^ Z.max (floorLog2 (Qabs q) - 52) (-1074))%Q.

(** The multiple of the spacing nearest a rational, a tie going to the
    even multiple. *)
Definition roundToQuantum (q : Q) : Q :=
  (inject_Z (roundHalfEven (q / quantumOf q)) * quantumOf q)%Q.

(** The double nearest a rational (round to nearest, ties to even): a
    magnitude that rounds to [2^1024] or more overflows to the infinity of
    its sign. *)
Definition roundDouble (q : Q) : number :=
  if Qeq_bool q 0 then Fin 0
  else
    let r := roundToQuantum q in
    if Qle_bool (2 ^ 1024) (Qabs r)
    then (if Qle_bool 0 q then PosInf else NegInf)
    else Fin r.

(** The result of an operation on doubles is the exact result, rounded. *)
Definition double_round (a : number) : number :=
  match a with
  | Fin q => roundDouble q
  | _ => a
  end.

Definition double_mul (a b : number) : number := double_round (num_mul a b).
Definition double_div (a b : number) : number := double_round (num_div a b).

(** ** JavaScript strings *)

(** A string is the list of its code points. *)
Definition jsstring : Type := list N.

(** [s.length]: the number of UTF-16 code units. *)
Definition js_length (s : jsstring) : Z :=
  fold_right (fun c n => (if (c <? 65536)%N then 1 else 2) + n) 0 s.

(** Truthiness of a string: only the empty string is falsy. *)
Definition nonEmpty (s : jsstring) : bool :=
  match s with [] => false | _ :: _ => true end.

(** The code points of an ASCII literal. *)
Fixpoint codePoints (s : string) : jsstring :=
  match s with
  | EmptyString => []
  | String a rest => Ascii.N_of_ascii a :: codePoints rest
  end.

(** Template interpolation of an integer: its decimal digits. *)
Definition showInt (z : Z) : jsstring := codePoints (pretty z).

(** ** Grid boxes *)

Inductive BoxType : Type := Birthday | Event | Week.
Inductive EventSource : Type := Personal | World | President.

#[global] Instance BoxType_eq_dec : EqDecision BoxType.
Proof. solve_decision. Defined.
#[global] Instance EventSource_eq_dec : EqDecision EventSource.
Proof. solve_decision. Defined.

(** [GridBox].  The [date] is the day number of the ISO date string.  The
    presentation fields ([tooltip], [borderClass], [backgroundClass]) and
    [age] play no part in coloring or row breaking and are left out.  The
    optional [eventType] of a box is the field [boxEventType], the name
    [eventType] being the field of an event. *)
Record GridBox : Type := mkGridBox {
  type : BoxType;
  label : jsstring;
  date : Z;
  year : Z;
  boxEventType : option EventSource
}.

(** ** The responsive layout engine ([grid-layout.ts]) *)

Record ResponsiveConstants : Type := mkConstants {
  containerWidth : number;
  basePadding : number;
  charWidth : number;
  weekBoxMinWidth : number
}.

Inductive Breakpoint : Type :=
  ultrawide | wide | desktop | tablet | mobile | extraSmall.

(** [GRID_CONSTANTS[breakpoint]] *)
Definition GRID_CONSTANTS (b : Breakpoint) : ResponsiveConstants :=
  match b with
  | ultrawide => mkConstants (px 1440) (px 8) (px 8) (px 20)
  | wide => mkConstants (px 1190) (px 8) (px 8) (px 20)
  | desktop => mkConstants (px 668) (px 7) (px 8) (px 20)
  | tablet => mkConstants (px 573) (px 4) (px 7) (px 17)
  | mobile => mkConstants (px 737) (px 3) (px 6) (px 15)
  | extraSmall => mkConstants (px 307) (px 2) (px 5) (px 12)
  end.

(** [GRID_CONSTANTS.compact[breakpoint]] *)
Definition GRID_CONSTANTS_compact (b : Breakpoint) : ResponsiveConstants :=
  match b with
  | ultrawide => mkConstants (px 1440) (px 1) (px 8) (px 8)
  | wide => mkConstants (px 1190) (px 1) (px 8) (px 8)
  | desktop => mkConstants (px 668) (px 1) (px 8) (px 8)
  | tablet => mkConstants (px 573) (px 1) (px 7) (px 6)
  | mobile => mkConstants (px 461) (px 0) (px 6) (px 5)
  | extraSmall => mkConstants (px 307) (px 0) (px 5) (px 4)
  end.

(** The literal [0.95]: the double nearest 95/100. *)
Definition safetyMargin : number := roundDouble (95 # 100).

Definition calculateDynamicConstants (containerWidth : number)
    (compactMode : bool) : ResponsiveConstants :=
  let '(charWidth, basePadding, weekBoxMinWidth) :=
    if compactMode then
      if num_le containerWidth (px 480) then (px 7, px 2, px 14)
      else if num_le containerWidth (px 768) then (px 8, px 2, px 14)
      else (px 10, px 2, px 16)
    else
      let charWidth :=
        if num_lt containerWidth (px 350) then px 5
        else if num_lt containerWidth (px 500) then px 6
        else if num_lt containerWidth (px 650) then px 7
        else px 8 in
      (charWidth,
       num_max (px 2)
         (num_min (px 8) (num_floor (double_div containerWidth (px 150)))),
       num_max (px 12)
         (num_min (px 20) (num_floor (double_div containerWidth (px 50))))) in
  let safeContainerWidth :=
    num_floor (double_mul containerWidth safetyMargin) in
  mkConstants safeContainerWidth basePadding charWidth weekBoxMinWidth.

Definition breakpointOf (width : Z) : Breakpoint :=
  if width <? 480 then extraSmall
  else if width <=? 768 then mobile
  else if width <? 1024 then tablet
  else if width <? 1400 then desktop
  else if width <? 1800 then wide
  else ultrawide.

(** The loop state of [processBoxesIntoRows]. *)
Record RowState : Type := mkRowState {
  rows : list (list GridBox);
  currentRow : list GridBox;
  currentRowWidth : number
}.

Section Layout.

(** [window.innerWidth], or [None] where [window] is undefined. *)
Variable innerWidth : option Z.

(** The static breakpoint system, the fallback of
    [getResponsiveConstants]. *)
Definition staticConstants (compactMode : bool) : ResponsiveConstants :=
  match innerWidth with
  | None =>
      if compactMode then GRID_CONSTANTS_compact desktop
      else GRID_CONSTANTS desktop
  | Some width =>
      if compactMode then GRID_CONSTANTS_compact (breakpointOf width)
      else GRID_CONSTANTS (breakpointOf width)
  end.

(** The guard [measuredWidth && measuredWidth > 0] of
    [getResponsiveConstants]; an absent argument is [undefined], which is
    falsy. *)
Definition getResponsiveConstants (compactMode : bool)
    (measuredWidth : option number) : ResponsiveConstants :=
  match measuredWidth with
  | Some w =>
      if num_truthy w && num_gt w (px 0)
      then calculateDynamicConstants w compactMode
      else staticConstants compactMode
  | None => staticConstants compactMode
  end.

Definition calculateWeekCellWidth (compactMode : bool) : number :=
  let borderWidth := 2 in
  let gapWidth := 1 in
  if compactMode then px (4 + 2 + borderWidth + gapWidth)
  else
    let viewportWidth :=
      match innerWidth with Some w => w | None => 1200 end in
    if viewportWidth <=? 768 then px 18 else px 26.

Definition calculateBoxWidth (label : jsstring) (compactMode : bool)
    (measuredWidth : option number) : number :=
  let constants := getResponsiveConstants compactMode measuredWidth in
  let labelLength := px (js_length label) in
  let textWidth := num_mul labelLength (charWidth constants) in
  let totalPadding := num_mul (basePadding constants) (px 2) in
  let borderWidth := px 2 in
  let gapWidth := px 1 in
  num_add (num_add (num_add textWidth totalPadding) borderWidth) gapWidth.

Definition shouldBreakBeforeBox (currentRowWidth : number)
    (nextBoxLabel : jsstring) (compactMode : bool)
    (measuredWidth : option number) : bool :=
  let constants := getResponsiveConstants compactMode measuredWidth in
  let nextBoxWidth :=
    if nonEmpty nextBoxLabel
    then calculateBoxWidth nextBoxLabel compactMode measuredWidth
    else calculateWeekCellWidth compactMode in
  let totalAfterAdd := num_add currentRowWidth nextBoxWidth in
  num_ge totalAfterAdd (containerWidth constants).

(** The width [boxWidth] that a box adds to the running row width in
    [processBoxesIntoRows]. *)
Definition boxWidth (box : GridBox) (compactMode : bool)
    (measuredWidth : option number) : number :=
  match type box with
  | Week => calculateWeekCellWidth compactMode
  | _ => calculateBoxWidth (label box) compactMode measuredWidth
  end.

(** One iteration of the loop over the boxes. *)
Definition rowStep (compactMode : bool) (measuredWidth : option number)
    (st : RowState) (box : GridBox) : RowState :=
  let shouldBreakWidth :=
    shouldBreakBeforeBox (currentRowWidth st) (label box) compactMode
      measuredWidth in
  let st1 :=
    if shouldBreakWidth && negb (length (currentRow st) =? 0)%nat
    then mkRowState (rows st ++ [currentRow st]) [] (px 0)
    else st in
  mkRowState (rows st1) (currentRow st1 ++ [box])
    (num_add (currentRowWidth st1) (boxWidth box compactMode measuredWidth)).

(** The final flush of a non-empty trailing row. *)
Definition flushRow (st : RowState) : list (list GridBox) :=
  if negb (length (currentRow st) =? 0)%nat
  then rows st ++ [currentRow st]
  else rows st.

Definition processBoxesIntoRows (boxes : list GridBox) (compactMode : bool)
    (measuredWidth : option number) : list (list GridBox) :=
  flushRow
    (fold_left (rowStep compactMode measuredWidth) boxes
       (mkRowState [] [] (px 0))).

End Layout.

(** ** Calendar dates *)

Definition isLeapYear (y : Z) : bool :=
  ((y mod 4 =? 0) && negb (y mod 100 =? 0)) || (y mod 400 =? 0).

(** Days between 0001-01-01 and the first of January of year [y]. *)
Definition daysBeforeYear (y : Z) : Z :=
  let p := y - 1 in 365 * p + p / 4 - p / 100 + p / 400.

(** Days between the first of January and the first of month [m]
    (0 = January). *)
Definition daysBeforeMonth (leap : bool) (m : Z) : Z :=
  nth (Z.to_nat m) [0; 31; 59; 90; 120; 151; 181; 212; 243; 273; 304; 334] 0
  + (if leap && (2 <=? m) then 1 else 0).

(** [new Date(y, m, d)] as a day number: months outside 0..11 carry into
    the year and days outside the month carry into the neighbouring months,
    as the constructor does (the 29th of February of a common year is the
    first of March). *)
Definition mkDate (y m d : Z) : Z :=
  let y' := y + m / 12 in
  let m' := m mod 12 in
  daysBeforeYear y' + daysBeforeMonth (isLeapYear y') m' + (d - 1) - 719162.

(** [getDay()]: 0 is Sunday; 1970-01-01 was a Thursday. *)
Definition getDay (d : Z) : Z := (d + 4) mod 7.

(** Modelled from the spec: [getWeekStartSunday] of
    [utils/date-processing], which is not among the sources; the spec has
    it return the Sunday-aligned start of the week containing the date. *)
Definition getWeekStartSunday (d : Z) : Z := d - getDay d.

(** The calendar fields of a [Date], as its getters return them
    ([getFullYear], [getMonth] with 0 = January, [getDate]). *)
Record CalendarDate : Type := mkCalendarDate {
  getFullYear : Z;
  getMonth : Z;
  getDate : Z
}.

Definition dayNumber (c : CalendarDate) : Z :=
  mkDate (getFullYear c) (getMonth c) (getDate c).

(** ** Events *)

(** [MergedEvent]: [milestone] is the truthiness of the optional flag and
    [color] the optional override.  The description and the metadata of the
    sources only reach the tooltip and are left out. *)
Record MergedEvent : Type := mkEvent {
  headline : jsstring;
  eventType : EventSource;
  milestone : bool;
  color : option string
}.

(** [e.eventType === 'personal' && e.milestone] *)
Definition isMilestone (e : MergedEvent) : bool :=
  bool_decide (eventType e = Personal) && milestone e.

(** ** Emoji extraction ([grid-layout.ts]) *)

Definition inRange (lo hi c : N) : bool := ((lo <=? c) && (c <=? hi))%N.

Definition isRegionalIndicator (c : N) : bool := inRange 0x1F1E0 0x1F1FF c.

(** The alternatives of [emojiRegex] before the pair of regional
    indicators. *)
Definition emojiBeforeFlag (c : N) : bool :=
  inRange 0x1F600 0x1F64F c || inRange 0x1F300 0x1F5FF c
  || inRange 0x1F680 0x1F6FF c.

(** The alternatives of [emojiRegex] after the pair of regional
    indicators. *)
Definition emojiAfterFlag (c : N) : bool :=
  inRange 0x2600 0x26FF c || inRange 0x2700 0x27BF c
  || inRange 0x1F900 0x1F9FF c || inRange 0x1F018 0x1F270 c
  || inRange 0x1F000 0x1F02F c || inRange 0x1F0A0 0x1F0FF c.

(** The alternation tried at one position of the text, in the order of the
    alternatives. *)
Definition emojiAt (text : jsstring) : option jsstring :=
  match text with
  | [] => None
  | c :: rest =>
      if emojiBeforeFlag c then Some [c]
      else
        match rest with
        | c' :: _ =>
            if isRegionalIndicator c && isRegionalIndicator c'
            then Some [c; c']
            else if emojiAfterFlag c then Some [c] else None
        | [] => if emojiAfterFlag c then Some [c] else None
        end
  end.

(** [text.match(emojiRegex)]: the match at the leftmost position that has
    one, with the text after that position's first code point. *)
Fixpoint matchEmoji (text : jsstring) : option (jsstring * jsstring) :=
  match text with
  | [] => None
  | c :: rest =>
      match emojiAt text with
      | Some m => Some (m, rest)
      | None => matchEmoji rest
      end
  end.

(** The UTF-16 unit that [charAt] finds where code point [c] starts. *)
Definition firstUnit (c : N) : N :=
  if (c <? 0x10000)%N then c else (0xD800 + (c - 0x10000) / 0x400)%N.

Definition extractFirstEmoji (text : jsstring) : option jsstring :=
  match matchEmoji text with
  | Some (m, rest) =>
      if js_length m =? 1 then
        match rest with
        | next :: _ =>
            if isRegionalIndicator (firstUnit next)
            then Some (m ++ [firstUnit next])
            else Some m
        | [] => Some m
        end
      else Some m
  | None => None
  end.

Definition createCompactEventLabel (headline : jsstring) : jsstring :=
  default [] (extractFirstEmoji headline).

Definition shouldShowInCompact (headline : jsstring) : bool :=
  bool_decide (extractFirstEmoji headline <> None).

Definition birthdayCake : N := 0x1F382.

Definition createBirthdayLabel (age yr : Z) (compactMode : bool) : jsstring :=
  if compactMode then birthdayCake :: showInt age
  else birthdayCake :: codePoints " " ++ showInt age ++ codePoints " in "
         ++ showInt yr.

(** ** The calendar walk ([WeeksGrid]) *)

(** [WeeksConfig]: [startDate] stands for [new Date(weeksConfig.startDate)]
    through its calendar fields. *)
Record WeeksConfig : Type := mkWeeksConfig {
  startDate : CalendarDate;
  startYear : Z;
  endYear : Z
}.

(** The walk appends to [allBoxes] and adds to [milestoneWeeks]. *)
Record WalkState : Type := mkWalkState {
  allBoxes : list GridBox;
  milestoneWeeks : gset Z
}.

Definition weekDays : list Z := [0; 1; 2; 3; 4; 5; 6].

(** The indices [startWeek .. 52] of the loop over the weeks. *)
Definition weeksFrom (startWeek : Z) : list Z :=
  map (fun i => startWeek + Z.of_nat i) (seq 0 (Z.to_nat (53 - startWeek))).

Definition emptyWeekBox (weekDate yr : Z) : GridBox :=
  mkGridBox Week [] weekDate yr None.

Section Walk.

Variable weeksConfig : WeeksConfig.
Variable mergedEvents : gmap Z (list MergedEvent).
Variable isCompactMode : bool.

(** [new Date(year, startDate.getMonth(), startDate.getDate())] *)
Definition anniversary (yr : Z) : Z :=
  mkDate yr (getMonth (startDate weeksConfig))
    (getDate (startDate weeksConfig)).

(** The anchor [weekDate] of week [week] in the iteration of year [yr]. *)
Definition weekDateOf (yr week : Z) : Z :=
  let age := yr - startYear weeksConfig in
  if age =? 0 then
    if week =? 0 then getWeekStartSunday (dayNumber (startDate weeksConfig))
    else
      let baseWeek := getWeekStartSunday (dayNumber (startDate weeksConfig)) in
      baseWeek + week * 7
  else
    let anniversaryDate := anniversary yr + week * 7 in
    getWeekStartSunday anniversaryDate.

(** The loop over the days of the week: [Some] at the first day with a
    non-empty event list, [None] when the loop ends, or breaks at the next
    birthday, without one. *)
Fixpoint scanDays (days : list Z) (weekDate nextBirthday : Z)
    : option (Z * list MergedEvent) :=
  match days with
  | [] => None
  | day :: rest =>
      let dayDate := weekDate + day in
      if nextBirthday <=? dayDate then None
      else
        match mergedEvents !! dayDate with
        | Some (e :: es) => Some (dayDate, e :: es)
        | _ => scanDays rest weekDate nextBirthday
        end
  end.

(** [eventsForWeek] after the loop over the days. *)
Definition eventsForWeekOf (weekDate nextBirthday : Z)
    : option (list MergedEvent) :=
  match scanDays weekDays weekDate nextBirthday with
  | Some (_, eventsForDay) => Some eventsForDay
  | None => mergedEvents !! weekDate
  end.

(** [actualEventDate] after the loop over the days; it only reaches the
    tooltip. *)
Definition actualEventDateOf (weekDate nextBirthday : Z) : Z :=
  match scanDays weekDays weekDate nextBirthday with
  | Some (dayDate, _) => dayDate
  | None => weekDate
  end.

(** [milestoneWeeks] after the loop over the days. *)
Definition milestoneWeeksAfterScan (weekDate nextBirthday : Z)
    (ms : gset Z) : gset Z :=
  match scanDays weekDays weekDate nextBirthday with
  | Some (_, eventsForDay) =>
      if existsb isMilestone eventsForDay then {[weekDate]} ∪ ms else ms
  | None => ms
  end.

(** [primaryEvent]: the first milestone event, else the first event. *)
Definition primaryEventOf (first : MergedEvent) (others : list MergedEvent)
    : MergedEvent :=
  default first (find isMilestone (first :: others)).

(** The box pushed for a week that is not skipped. *)
Definition boxForWeek (weekDate nextBirthday yr : Z) : GridBox :=
  match eventsForWeekOf weekDate nextBirthday with
  | Some (first :: others) =>
      let primaryEvent := primaryEventOf first others in
      if isCompactMode && negb (shouldShowInCompact (headline primaryEvent))
      then emptyWeekBox weekDate yr
      else
        let eventLabel :=
          if isCompactMode
          then createCompactEventLabel (headline primaryEvent)
          else headline primaryEvent in
        mkGridBox Event eventLabel weekDate yr
          (Some (eventType primaryEvent))
  | _ => emptyWeekBox weekDate yr
  end.

(** One iteration of the loop over the weeks of year [yr]. *)
Definition weekStep (yr : Z) (st : WalkState) (week : Z) : WalkState :=
  let weekDate := weekDateOf yr week in
  let nextBirthday := anniversary (yr + 1) in
  if nextBirthday <=? weekDate then st
  else
    mkWalkState
      (allBoxes st ++ [boxForWeek weekDate nextBirthday yr])
      (milestoneWeeksAfterScan weekDate nextBirthday (milestoneWeeks st)).

Definition birthdayBox (yr : Z) : GridBox :=
  let age := yr - startYear weeksConfig in
  mkGridBox Birthday (createBirthdayLabel age yr isCompactMode)
    (anniversary yr) yr None.

(** [startWeek] of the iteration of year [yr]. *)
Definition startWeekOf (yr : Z) : Z :=
  let age := yr - startYear weeksConfig in
  if age =? 0 then 0 else 1.

(** One iteration of the loop over the years. *)
Definition yearStep (st : WalkState) (yr : Z) : WalkState :=
  let age := yr - startYear weeksConfig in
  let st1 :=
    if 0 <? age
    then mkWalkState (allBoxes st ++ [birthdayBox yr]) (milestoneWeeks st)
    else st in
  fold_left (weekStep yr) (weeksFrom (startWeekOf yr)) st1.

(** The years [startYear .. endYear] of the outer loop. *)
Definition yearsOf : list Z :=
  map (fun i => startYear weeksConfig + Z.of_nat i)
    (seq 0 (Z.to_nat (endYear weeksConfig - startYear weeksConfig + 1))).

(** The state after the walk: all boxes, and the milestone weeks found
    while walking. *)
Definition walk : WalkState :=
  fold_left yearStep yearsOf (mkWalkState [] ∅).

End Walk.

(** ** The colour pass ([WeeksGrid]) *)

(** The loop state of the second pass. *)
Record ColorState : Type := mkColorState {
  colorIndex : nat;
  currentBoxColor : option string;
  boxColorMap : gmap Z (option string)
}.

(** [[...allBoxes].sort(...)] by date: the sort is stable, so a box goes
    after the boxes of the same date that precede it. *)
Fixpoint insertByDate (box : GridBox) (sorted : list GridBox)
    : list GridBox :=
  match sorted with
  | [] => [box]
  | b :: rest =>
      if date box <? date b then box :: b :: rest
      else b :: insertByDate box rest
  end.

Definition sortByDate (boxes : list GridBox) : list GridBox :=
  fold_left (fun sorted box => insertByDate box sorted) boxes [].

(** Truthiness of [event.color]. *)
Definition colorOverride (e : MergedEvent) : option string :=
  match color e with
  | Some c => if decide (c = EmptyString) then None else Some c
  | None => None
  end.

(** The loop over the events of a box's date. *)
Definition applyOverrides (events : list MergedEvent)
    (current : option string) : option string :=
  fold_left
    (fun cur e =>
       if isMilestone e then
         match colorOverride e with
         | Some c => Some c
         | None => cur
         end
       else cur)
    events current.

Section Color.

Variable mergedEvents : gmap Z (list MergedEvent).

(** [milestoneColors]; reading past its end gives [undefined], here
    [None]. *)
Variable milestoneColors : list string.

(** First pass over [Object.entries(mergedEvents)]: every date with a
    milestone event is added to [milestoneWeeks]. *)
Definition addMilestoneEventDates (ms : gset Z) : gset Z :=
  foldr
    (fun entry acc =>
       if existsb isMilestone entry.2 then {[entry.1]} ∪ acc else acc)
    ms (map_to_list mergedEvents).

(** The loop over [allBoxes] that adds the dates of event boxes whose own
    date has a milestone event. *)
Definition addMilestoneBoxDates (boxes : list GridBox) (ms : gset Z)
    : gset Z :=
  fold_left
    (fun acc box =>
       match type box with
       | Event =>
           match mergedEvents !! date box with
           | Some eventsForBox =>
               if existsb isMilestone eventsForBox
               then {[date box]} ∪ acc else acc
           | None => acc
           end
       | _ => acc
       end)
    boxes ms.

(** [milestoneWeeks] as the second pass reads it. *)
Variable allMilestoneWeeks : gset Z.

(** One iteration of the loop over the sorted boxes. *)
Definition colorStep (st : ColorState) (box : GridBox) : ColorState :=
  let '(index, current) :=
    if decide (date box ∈ allMilestoneWeeks) then
      let index := S (colorIndex st) in
      (index,
       if (index <? length milestoneColors)%nat
       then milestoneColors !! index
       else currentBoxColor st)
    else (colorIndex st, currentBoxColor st) in
  let current :=
    match mergedEvents !! date box with
    | Some eventsForBox => applyOverrides eventsForBox current
    | None => current
    end in
  mkColorState index current (<[date box := current]> (boxColorMap st)).

Definition initialColorState : ColorState :=
  mkColorState 0 (milestoneColors !! 0%nat) ∅.

Definition colorWalk (sortedBoxes : list GridBox) : ColorState :=
  fold_left colorStep sortedBoxes initialColorState.

End Color.

(** The colour pass of the component: the milestone set left by the walk
    is completed by the two loops, then the sorted boxes are walked. *)
Definition completeMilestoneWeeks (mergedEvents : gmap Z (list MergedEvent))
    (st : WalkState) : gset Z :=
  addMilestoneBoxDates mergedEvents (allBoxes st)
    (addMilestoneEventDates mergedEvents (milestoneWeeks st)).

Definition colorPass (mergedEvents : gmap Z (list MergedEvent))
    (milestoneColors : list string) (st : WalkState) : ColorState :=
  colorWalk mergedEvents milestoneColors
    (completeMilestoneWeeks mergedEvents st)
    (sortByDate (allBoxes st)).

(** The two results of the component for its inputs: the colour map and
    the rows. *)
Definition WeeksGrid (innerWidth : option Z) (containerWidth : number)
    (isCompactMode : bool) (mergedEvents : gmap Z (list MergedEvent))
    (milestoneColors : list string) (weeksConfig : WeeksConfig)
    : gmap Z (option string) * list (list GridBox) :=
  let st := walk weeksConfig mergedEvents isCompactMode in
  (boxColorMap (colorPass mergedEvents milestoneColors st),
   processBoxesIntoRows innerWidth (allBoxes st) isCompactMode
     (if num_gt containerWidth (px 0) then Some containerWidth else None)).

(** ** Notions of the statements *)

(** *** Rows *)

(** The boxes placed so far by [processBoxesIntoRows]: the closed rows,
    then the open one. *)
Definition placed (st : RowState) : list GridBox :=
  concat (rows st) ++ currentRow st.

(** The pixel width of a row: the running sum of [processBoxesIntoRows]. *)
Definition rowWidth (innerWidth : option Z) (compactMode : bool)
    (measuredWidth : option number) (row : list GridBox) : number :=
  fold_left
    (fun acc box =>
       num_add acc (boxWidth innerWidth box compactMode measuredWidth))
    row (px 0).

(** The type of a box agrees with its label: the week boxes are the boxes
    without label. *)
Definition labelMatchesType (box : GridBox) : Prop :=
  type box = Week <-> label box = [].

(** A row fits the effective container width: its width is strictly below
    it, or it is a single box that alone reaches it. *)
Definition fitsContainer (innerWidth : option Z) (compactMode : bool)
    (measuredWidth : option number) (row : list GridBox) : Prop :=
  let effectiveWidth :=
    containerWidth
      (getResponsiveConstants innerWidth compactMode measuredWidth) in
  num_lt (rowWidth innerWidth compactMode measuredWidth row) effectiveWidth
  = true
  \/ exists box,
       row = [box]
       /\ num_ge (rowWidth innerWidth compactMode measuredWidth [box])
            effectiveWidth = true.

(** The invariant of the loop of [processBoxesIntoRows]: the running width
    is the width of the open row, the closed rows fit, and so does the open
    row unless it is empty. *)
Definition rowStateFits (innerWidth : option Z) (compactMode : bool)
    (measuredWidth : option number) (st : RowState) : Prop :=
  currentRowWidth st
  = rowWidth innerWidth compactMode measuredWidth (currentRow st)
  /\ Forall (fitsContainer innerWidth compactMode measuredWidth) (rows st)
  /\ (currentRow st = []
      \/ fitsContainer innerWidth compactMode measuredWidth (currentRow st)).

(** A measured width that is not a finite number, or is negative. *)
Definition invalidWidth (w : number) : Prop :=
  num_isFinite w = false \/ num_lt w (px 0) = true.

(** *** The walk *)

Definition leapDay (y : Z) : Z := if isLeapYear y then 1 else 0.

(** The boxes that one week, and one year, of the walk push. *)
Definition weekBoxes (weeksConfig : WeeksConfig)
    (mergedEvents : gmap Z (list MergedEvent)) (isCompactMode : bool)
    (yr week : Z) : list GridBox :=
  let weekDate := weekDateOf weeksConfig yr week in
  let nextBirthday := anniversary weeksConfig (yr + 1) in
  if nextBirthday <=? weekDate then []
  else [boxForWeek mergedEvents isCompactMode weekDate nextBirthday yr].

Definition yearBoxes (weeksConfig : WeeksConfig)
    (mergedEvents : gmap Z (list MergedEvent)) (isCompactMode : bool)
    (yr : Z) : list GridBox :=
  (if 0 <? yr - startYear weeksConfig
   then [birthdayBox weeksConfig isCompactMode yr] else [])
  ++ flat_map (weekBoxes weeksConfig mergedEvents isCompactMode yr)
       (weeksFrom (startWeekOf weeksConfig yr)).

(** The week-type boxes (empty weeks and events) and the birthday boxes of
    the age-year [yr] in a box sequence; the age-year of a box is the
    iteration that pushed it, which its field [year] records. *)
Definition weekTypeBoxesOf (yr : Z) (boxes : list GridBox) : list GridBox :=
  filter (fun b => year b = yr /\ type b <> Birthday) boxes.



(** The first box is dated strictly before, or no later than, the
    second. *)
Definition earlier (a b : GridBox) : Prop := date a < date b.

Definition notLater (a b : GridBox) : Prop := date a <= date b.

(** The events recorded at a date, none when the date is not a key. *)
Definition eventsAt (mergedEvents : gmap Z (list MergedEvent)) (d : Z)
    : list MergedEvent :=
  default [] (mergedEvents !! d).

(** No event of the mapping has an empty headline. *)
Definition headlinesNonEmpty (mergedEvents : gmap Z (list MergedEvent))
    : Prop :=
  forall d events e,
    mergedEvents !! d = Some events -> e ∈ events -> headline e <> [].

(** A code point that some single-character alternative of [emojiRegex]
    matches. *)
Definition isEmoji (c : N) : bool := emojiBeforeFlag c || emojiAfterFlag c.

(** The headline starts with an emoji: [emojiRegex] matches at its first
    position. *)
Definition hasLeadingEmoji (headline : jsstring) : bool :=
  match emojiAt headline with Some _ => true | None => false end.

(** *** The colour pass *)

(** The overrides that the loop over the events of a date applies, in list
    order: the truthy colors of the milestone-flagged personal events. *)
Definition overridesOf (events : list MergedEvent) : list string :=
  omap (fun e => if isMilestone e then colorOverride e else None) events.

(** The current color is the palette entry of the index, the last entry
    once the index has passed the end. *)
Definition followsPalette (milestoneColors : list string) (st : ColorState)
    : Prop :=
  currentBoxColor st
  = milestoneColors !! Nat.min (colorIndex st) (length milestoneColors - 1).

(** *** Readings that the code does not bear out *)


(** The event box of a week carries the date of the day that the scan
    found, and that date is the one recorded for a milestone. *)
Definition eventBoxCarriesFoundDay (weeksConfig : WeeksConfig)
    (mergedEvents : gmap Z (list MergedEvent)) (isCompactMode : bool)
    : Prop :=
  forall yr week dayDate eventsForDay,
    let weekDate := weekDateOf weeksConfig yr week in
    let nextBirthday := anniversary weeksConfig (yr + 1) in
    weekDate < nextBirthday ->
    eventsAt mergedEvents weekDate = [] ->
    scanDays mergedEvents weekDays weekDate nextBirthday
      = Some (dayDate, eventsForDay) ->
    let box :=
      boxForWeek mergedEvents isCompactMode weekDate nextBirthday yr in
    type box = Event ->
    date box = dayDate
    /\ (existsb isMilestone eventsForDay = true ->
        dayDate ∈ milestoneWeeksAfterScan mergedEvents weekDate nextBirthday ∅).

(** In compact mode, a week whose primary event has no leading emoji gets
    an empty week box. *)
Definition suppressedWithoutLeadingEmoji (weeksConfig : WeeksConfig)
    (mergedEvents : gmap Z (list MergedEvent)) : Prop :=
  forall yr week first others,
    let weekDate := weekDateOf weeksConfig yr week in
    let nextBirthday := anniversary weeksConfig (yr + 1) in
    weekDate < nextBirthday ->
    eventsForWeekOf mergedEvents weekDate nextBirthday
      = Some (first :: others) ->
    hasLeadingEmoji (headline (primaryEventOf first others)) = false ->
    boxForWeek mergedEvents true weekDate nextBirthday yr
      = emptyWeekBox weekDate yr.


(** Every invalid measured width is ignored in favour of the static
    breakpoints. *)
Definition ignoresInvalidWidths : Prop :=
  forall (innerWidth : option Z) (compactMode : bool) (w : number),
    invalidWidth w ->
    getResponsiveConstants innerWidth compactMode (Some w)
    = staticConstants innerWidth compactMode.

(** *** Example inputs *)

(** A birth on Saturday 2000-01-15, walked to 2001. *)
Definition exampleConfig : WeeksConfig :=
  mkWeeksConfig (mkCalendarDate 2000 0 15) 2000 2001.


Definition examplePalette : list string := ["A"; "B"; "C"]%string.

Definition rocket : N := 0x1F680.

(** One milestone on Thursday 2000-06-01, without and with an emoji after
    its first word, and with a color override. *)
Definition jobEvent : MergedEvent :=
  mkEvent (codePoints "Started job") Personal true None.

Definition jobEvents : gmap Z (list MergedEvent) :=
  {[ mkDate 2000 5 1 := [jobEvent] ]}.

Definition launchEvent : MergedEvent :=
  mkEvent (codePoints "Go " ++ [rocket]) Personal true None.

Definition launchEvents : gmap Z (list MergedEvent) :=
  {[ mkDate 2000 5 1 := [launchEvent] ]}.



(** An exam on Monday 2000-05-29 and a milestone on Friday 2000-06-02 of
    the same week. *)
Definition examEvent : MergedEvent :=
  mkEvent (codePoints "Exam") Personal false None.

Definition graduationEvent : MergedEvent :=
  mkEvent (codePoints "Graduated") Personal true None.

Definition shadowedEvents : gmap Z (list MergedEvent) :=
  {[ mkDate 2000 4 29 := [examEvent]; mkDate 2000 5 2 := [graduationEvent] ]}.

(** A world event with a color, and a box at its date. *)
Definition moonLanding : MergedEvent :=
  mkEvent (codePoints "Moon landing") World false (Some "red"%string).

Definition moonEvents : gmap Z (list MergedEvent) :=
  {[ mkDate 1969 6 20 := [moonLanding] ]}.

Definition moonBox : GridBox :=
  mkGridBox Event (codePoints "Moon landing") (mkDate 1969 6 20) 1969
    (Some World).

(** A box of type week that carries a label, an empty week box, and an
    event box whose label is the empty string. *)
Definition labelledWeekBox : GridBox :=
  mkGridBox Week (codePoints "a") 0 2000 None.

Definition plainWeekBox : GridBox := mkGridBox Week [] 0 2000 None.

Definition unlabelledEventBox : GridBox :=
  mkGridBox Event [] 0 2000 (Some Personal).

(** ** The event merger ([getMergedEvents]) *)

(** An event of one of the three sources, before it is tagged: the fields
    that the walk and the colour pass read.  The spread copies the
    optional [milestone] and [color] of any source. *)
Record SourceEvent : Type := mkSourceEvent {
  sourceHeadline : jsstring;
  sourceMilestone : bool;
  sourceColor : option string
}.

(** [{...event, eventType: ...}] *)
Definition withEventType (source : EventSource) (e : SourceEvent)
    : MergedEvent :=
  mkEvent (sourceHeadline e) source (sourceMilestone e) (sourceColor e).

(** The loop over [Object.entries(lifeEvents)]: the list of a date is
    assigned. *)
Definition addPersonalEvents (lifeEvents : gmap Z (list SourceEvent))
    (merged : gmap Z (list MergedEvent)) : gmap Z (list MergedEvent) :=
  map_fold
    (fun date events acc =>
       <[date := map (withEventType Personal) events]> acc)
    merged lifeEvents.

(** The loops over the world events and the presidents: the list of a date
    is created empty when the date is new, then extended. *)
Definition addSourceEvents (source : EventSource)
    (sourceEvents : gmap Z (list SourceEvent))
    (merged : gmap Z (list MergedEvent)) : gmap Z (list MergedEvent) :=
  map_fold
    (fun date events acc =>
       let acc1 :=
         match acc !! date with
         | Some _ => acc
         | None => <[date := []]> acc
         end in
       <[date := default [] (acc1 !! date)
                 ++ map (withEventType source) events]> acc1)
    merged sourceEvents.

(** [getMergedEvents], with the two flags of [APP_CONFIG] and the two
    event tables of the data modules as arguments. *)
Definition getMergedEvents (defaultShowWorldEvents defaultShowPresidents : bool)
    (worldEvents usPresidents lifeEvents : gmap Z (list SourceEvent))
    : gmap Z (list MergedEvent) :=
  let merged := addPersonalEvents lifeEvents ∅ in
  let merged :=
    if defaultShowWorldEvents
    then addSourceEvents World worldEvents merged else merged in
  if defaultShowPresidents
  then addSourceEvents President usPresidents merged else merged.

(** ** [shouldBreakRow] ([grid-layout.ts]) *)

Record RowBreakCalculation : Type := mkRowBreakCalculation {
  currentBoxes : number;
  newBoxWidth : number;
  totalAfterAdd : number;
  shouldBreak : bool
}.

Definition shouldBreakRow (innerWidth : option Z) (currentWidth : number)
    (newBoxLabel : jsstring) (compactMode : bool)
    (measuredWidth : option number) : RowBreakCalculation :=
  let constants :=
    getResponsiveConstants innerWidth compactMode measuredWidth in
  let newBoxWidth :=
    calculateBoxWidth innerWidth newBoxLabel compactMode measuredWidth in
  let totalAfterAdd := num_add currentWidth newBoxWidth in
  mkRowBreakCalculation currentWidth newBoxWidth totalAfterAdd
    (num_ge totalAfterAdd (containerWidth constants)).

(** ** The measured container width ([WeeksGrid]) *)

(** [if (newWidth > 0) setContainerWidth(newWidth)], of [measureContainer]
    and of the resize observer. *)
Definition measure (containerWidth newWidth : number) : number :=
  if num_gt newWidth (px 0) then newWidth else containerWidth.

(** The state after a sequence of measurements, from [useState(0)]. *)
Definition measuredState (widths : list number) : number :=
  fold_left measure widths (px 0).

(** [containerWidth > 0 ? containerWidth : undefined] *)
Definition measuredWidthOf (containerWidth : number) : option number :=
  if num_gt containerWidth (px 0) then Some containerWidth else None.

(** The events of a source at a date, none when the date is not a key. *)
Definition sourceEventsAt (sourceEvents : gmap Z (list SourceEvent)) (d : Z)
    : list SourceEvent :=
  default [] (sourceEvents !! d).

(** Example sources for the merger. *)
Definition exampleLife : gmap Z (list SourceEvent) :=
  {[ mkDate 2000 5 1 :=
       [mkSourceEvent (codePoints "Started job") true None] ]}.

Definition exampleWorld : gmap Z (list SourceEvent) :=
  {[ mkDate 2000 5 1 :=
       [mkSourceEvent (codePoints "Summit") true (Some "red"%string)] ]}.

(** The code points of a text are Unicode code points. *)
Definition validText (text : jsstring) : Prop :=
  Forall (fun c => (c <= 0x10FFFF)%N) text.


(** ** Row breaks *)

(** The break test held between two consecutive rows: for the width of the
    earlier row and the label of the first box of the later one. *)
Definition breakBefore (innerWidth : option Z) (compactMode : bool)
    (measuredWidth : option number) (prev next : list GridBox) : Prop :=
  match next with
  | [] => False
  | box :: _ =>
      shouldBreakBeforeBox innerWidth
        (rowWidth innerWidth compactMode measuredWidth prev) (label box)
        compactMode measuredWidth = true
  end.

Fixpoint breaksJustified (innerWidth : option Z) (compactMode : bool)
    (measuredWidth : option number) (rs : list (list GridBox)) : Prop :=
  match rs with
  | prev :: ((next :: _) as rest) =>
      breakBefore innerWidth compactMode measuredWidth prev next
      /\ breaksJustified innerWidth compactMode measuredWidth rest
  | _ => True
  end.

(** The loop invariant: the running width is the width of the open row,
    an empty open row is the initial one, and every break so far was
    justified. *)
Definition rowStateJustified (innerWidth : option Z) (compactMode : bool)
    (measuredWidth : option number) (st : RowState) : Prop :=
  currentRowWidth st
  = rowWidth innerWidth compactMode measuredWidth (currentRow st)
  /\ (currentRow st = [] -> rows st = [])
  /\ breaksJustified innerWidth compactMode measuredWidth
       (rows st ++ [currentRow st]).

(** ** Recorded milestone weeks *)

(** What stands behind a recorded milestone week: a week or event box of
    that date, and a day of its week with a milestone event. *)
Definition weekRecordedFor (mergedEvents : gmap Z (list MergedEvent))
    (st : WalkState) (d : Z) : Prop :=
  (exists b, b ∈ allBoxes st /\ date b = d /\ type b <> Birthday)
  /\ exists dayDate eventsForDay,
       d <= dayDate <= d + 6
       /\ mergedEvents !! dayDate = Some eventsForDay
       /\ existsb isMilestone eventsForDay = true.

(** ** The colours of the boxes *)

(** Where a colour of the map can come from: the palette, or the override
    of a milestone-flagged personal event at the date of a box. *)
Definition colorSource (mergedEvents : gmap Z (list MergedEvent))
    (milestoneColors : list string) (boxes : list GridBox) (c : string)
    : Prop :=
  c ∈ milestoneColors
  \/ exists b e,
       b ∈ boxes /\ e ∈ eventsAt mergedEvents (date b)
       /\ isMilestone e = true /\ colorOverride e = Some c.

(** The invariant of the colour pass: the colour in effect and every colour
    of the map are defined and have a source. *)
Definition colorsSourced (mergedEvents : gmap Z (list MergedEvent))
    (milestoneColors : list string) (boxes : list GridBox) (st : ColorState)
    : Prop :=
  (exists c, currentBoxColor st = Some c
             /\ colorSource mergedEvents milestoneColors boxes c)
  /\ forall d v,
       boxColorMap st !! d = Some v ->
       exists c, v = Some c
                 /\ colorSource mergedEvents milestoneColors boxes c.

(** No event of the mapping is a milestone-flagged personal event. *)
Definition noMilestones (mergedEvents : gmap Z (list MergedEvent)) : Prop :=
  forall d e, e ∈ eventsAt mergedEvents d -> isMilestone e = false.

(** ** Decade sections ([groupBoxesByDecade]) *)

(** A box with its optional field [age].  Ages are finite numbers: for
    NaN and the infinities the comparator of the sort is not consistent
    and the order of the result is left to the implementation. *)
Record AgedBox : Type := mkAgedBox {
  agedBox : GridBox;
  boxAge : option Q
}.

(** [Math.floor(box.age / 10) * 10] *)
Definition decadeOf (age : Q) : Z := Qfloor (age / inject_Z 10) * 10.








(** The box has an age, and the age is of the decade. *)
Definition inDecade (decade : Z) (box : AgedBox) : Prop :=
  decadeOf <$> boxAge box = Some decade.

#[global] Instance inDecade_dec decade box : Decision (inDecade decade box).
Proof. unfold inDecade. apply _. Defined.




(** The measurements that are kept: those above zero. *)
Definition keptWidths (widths : list number) : list number :=
  List.filter (fun w => num_gt w (px 0)) widths.

(** No break was due inside a row: the break test failed for every box
    but the first, at the width of the boxes before it. *)
Definition noInnerBreak (innerWidth : option Z) (compactMode : bool)
    (measuredWidth : option number) (row : list GridBox) : Prop :=
  forall pre box post,
    row = pre ++ box :: post -> pre <> [] ->
    shouldBreakBeforeBox innerWidth
      (rowWidth innerWidth compactMode measuredWidth pre) (label box)
      compactMode measuredWidth = false.

Definition rowStateUnbroken (innerWidth : option Z) (compactMode : bool)
    (measuredWidth : option number) (st : RowState) : Prop :=
  currentRowWidth st
  = rowWidth innerWidth compactMode measuredWidth (currentRow st)
  /\ Forall (noInnerBreak innerWidth compactMode measuredWidth) (rows st)
  /\ noInnerBreak innerWidth compactMode measuredWidth (currentRow st).

(** * Rounding to binary64 *)

Lemma pow2_pos e : (0 < 2 ^ e)%Q.
Proof. apply Qpower_0_lt. reflexivity. Qed.

Lemma pow2_succ e : (2 ^ (e + 1) == 2 * 2 ^ e)%Q.
Proof. rewrite Qpower_plus by discriminate. rewrite Qpower_1_r. ring. Qed.

Lemma pow2_inject (a : Z) : 0 <= a -> (inject_Z (2 ^ a) == 2 ^ a)%Q.
Proof. intros H. rewrite Zpower_Qpower by exact H. reflexivity. Qed.

Lemma log2_bounds_Q (n : Z) :
  0 < n ->
  (2 ^ Z.log2 n <= inject_Z n)%Q /\ (inject_Z n < 2 * 2 ^ Z.log2 n)%Q.
Proof.
  intros Hn. destruct (Z.log2_spec n Hn) as [Hlo Hhi].
  pose proof (Z.log2_nonneg n) as Ha.
  rewrite <- pow2_succ, <- !pow2_inject by lia. split.
  - rewrite <- Zle_Qle. exact Hlo.
  - rewrite <- Zlt_Qlt.
    replace (Z.log2 n + 1) with (Z.succ (Z.log2 n)) by lia.
    exact Hhi.
Qed.

(** [floorLog2] is the exponent of a positive rational. *)
Lemma floorLog2_spec (x : Q) :
  (0 < x)%Q ->
  (2 ^ floorLog2 x <= x)%Q /\ (x < 2 ^ (floorLog2 x + 1))%Q.
Proof.
  intros Hx. unfold floorLog2.
  set (a := Z.log2 (Qnum x)). set (b := Z.log2 (Zpos (Qden x))).
  assert (Hn : 0 < Qnum x).
  { destruct x as [n d]. unfold Qlt in Hx. simpl in *. lia. }
  destruct (log2_bounds_Q (Qnum x) Hn) as [HA1 HA2].
  destruct (log2_bounds_Q (Zpos (Qden x)) eq_refl) as [HB1 HB2].
  fold a in HA1, HA2. fold b in HB1, HB2.
  assert (Hx' : (x * inject_Z (Zpos (Qden x)) == inject_Z (Qnum x))%Q).
  { destruct x as [n d]. simpl. rewrite (Qmake_Qdiv n d). field.
    discriminate. }
  pose proof (pow2_pos a) as HA. pose proof (pow2_pos b) as HB.
  assert (He : (2 ^ (a - b) * 2 ^ b == 2 ^ a)%Q).
  { rewrite <- Qpower_plus by discriminate.
    replace (a - b + b) with a by lia. reflexivity. }
  pose proof (pow2_pos (a - b)) as HE.
  set (N := inject_Z (Qnum x)) in *.
  set (D := inject_Z (Zpos (Qden x))) in *.
  set (A := (2 ^ a)%Q) in *. set (B := (2 ^ b)%Q) in *.
  set (E := (2 ^ (a - b))%Q) in *.
  destruct (Qle_bool E x) eqn:Ec.
  - apply Qle_bool_iff in Ec. split; [exact Ec|].
    rewrite pow2_succ. fold E. clearbody N D A B E.
    apply Qnot_le_lt. intros Hc.
    assert ((2 * E) * D <= x * D)%Q by (apply Qmult_le_compat_r; lra).
    assert (E * B <= E * D)%Q by (apply Qmult_le_l; lra).
    lra.
  - assert (Hlt : (x < E)%Q).
    { apply Qnot_le_lt. intros Hc. apply Qle_bool_iff in Hc. congruence. }
    replace (a - b - 1 + 1) with (a - b) by lia. fold E.
    split; [|exact Hlt].
    assert (Hh : (2 * 2 ^ (a - b - 1) == E)%Q).
    { rewrite <- pow2_succ. replace (a - b - 1 + 1) with (a - b) by lia.
      reflexivity. }
    pose proof (pow2_pos (a - b - 1)) as HH.
    set (H := (2 ^ (a - b - 1))%Q) in *. clearbody N D A B E H.
    apply Qnot_lt_le. intros Hc.
    assert (x * D < H * D)%Q by (apply Qmult_lt_compat_r; lra).
    assert (H * D < H * (2 * B))%Q by (apply Qmult_lt_l; lra).
    assert (E * B == H * (2 * B))%Q by (rewrite <- Hh; ring).
    lra.
Qed.

(** [roundHalfEven] is within a half of its argument. *)
Lemma roundHalfEven_spec (x : Q) :
  (x - (1 # 2) <= inject_Z (roundHalfEven x))%Q
  /\ (inject_Z (roundHalfEven x) <= x + (1 # 2))%Q.
Proof.
  unfold roundHalfEven.
  pose proof (Qfloor_le x) as Hlo. pose proof (Qlt_floor x) as Hhi.
  rewrite inject_Z_plus in Hhi. change (inject_Z 1) with 1%Q in Hhi.
  set (f := Qfloor x) in *.
  assert (Hs : (inject_Z (f + 1) == inject_Z f + 1)%Q)
    by (rewrite inject_Z_plus; reflexivity).
  destruct (Qcompare_spec (x - inject_Z f) (1 # 2)) as [He|Hl|Hg];
    [destruct (Z.even f)| |]; rewrite ?Hs;
    set (F := inject_Z f) in *; clearbody F; lra.
Qed.

Lemma roundHalfEven_nonneg (x : Q) : (0 <= x)%Q -> 0 <= roundHalfEven x.
Proof.
  intros Hx. unfold roundHalfEven.
  assert (Hf : 0 <= Qfloor x).
  { change 0 with (Qfloor 0). apply Qfloor_resp_le, Hx. }
  destruct (Qcompare _ _); [destruct (Z.even _)| |]; lia.
Qed.

Lemma Qabs_pos_eq (x : Q) : (0 <= x)%Q -> Qabs x = x.
Proof.
  destruct x as [n d]. unfold Qle, Qabs. simpl. intros H.
  f_equal. apply Z.abs_eq. lia.
Qed.

(** The rounding of a positive rational is not negative, and its error is
    at most half the spacing: a relative [2^-53], or [2^-1075] in the
    subnormal range. *)
Lemma roundToQuantum_error (x : Q) :
  (0 < x)%Q ->
  (0 <= roundToQuantum x)%Q
  /\ (x - (x * 2 ^ (-53) + 2 ^ (-1075)) <= roundToQuantum x)%Q
  /\ (roundToQuantum x <= x + (x * 2 ^ (-53) + 2 ^ (-1075)))%Q.
Proof.
  intros Hx. unfold roundToQuantum, quantumOf.
  rewrite (Qabs_pos_eq x) by lra.
  destruct (floorLog2_spec x Hx) as [He _].
  set (e := floorLog2 x) in *.
  set (g := Z.max (e - 52) (-1074)).
  pose proof (pow2_pos g) as Hg.
  assert (Hq : (2 ^ g <= x * 2 ^ (-52) + 2 ^ (-1074))%Q).
  { pose proof (pow2_pos (-1074)). pose proof (pow2_pos (-52)).
    destruct (Z.max_spec (e - 52) (-1074)) as [[_ Hm]|[_ Hm]]; fold g in Hm;
      rewrite Hm.
    - assert (0 <= x * 2 ^ (-52))%Q by (apply Qmult_le_0_compat; lra). lra.
    - replace (e - 52) with (e + -52) by lia.
      rewrite Qpower_plus by discriminate.
      assert (2 ^ e * 2 ^ (-52) <= x * 2 ^ (-52))%Q
        by (apply Qmult_le_compat_r; lra).
      lra. }
  assert (H53 : (2 * 2 ^ (-53) == 2 ^ (-52))%Q) by reflexivity.
  assert (H1075 : (2 * 2 ^ (-1075) == 2 ^ (-1074))%Q)
    by (rewrite <- pow2_succ; reflexivity).
  destruct (roundHalfEven_spec (x / 2 ^ g)) as [Hlo Hhi].
  assert (Hm : 0 <= roundHalfEven (x / 2 ^ g)).
  { apply roundHalfEven_nonneg. apply Qle_shift_div_l; lra. }
  rewrite Zle_Qle in Hm. change (inject_Z 0) with 0%Q in Hm.
  set (m := inject_Z (roundHalfEven (x / 2 ^ g))) in *.
  assert (Hx' : (x / 2 ^ g * 2 ^ g == x)%Q) by (field; lra).
  assert (H1 : ((x / 2 ^ g - (1 # 2)) * 2 ^ g <= m * 2 ^ g)%Q)
    by (apply Qmult_le_compat_r; lra).
  assert (H2 : (m * 2 ^ g <= (x / 2 ^ g + (1 # 2)) * 2 ^ g)%Q)
    by (apply Qmult_le_compat_r; lra).
  assert (H3 : (0 <= m * 2 ^ g)%Q) by (apply Qmult_le_0_compat; lra).
  set (G := (2 ^ g)%Q) in *. set (y := (x / G)%Q) in *.
  set (u52 := (2 ^ (-52))%Q) in *. set (u53 := (2 ^ (-53))%Q) in *.
  set (u1074 := (2 ^ (-1074))%Q) in *. set (u1075 := (2 ^ (-1075))%Q) in *.
  clearbody m G y u52 u53 u1074 u1075.
  assert (Hx53 : (x * u52 == 2 * (x * u53))%Q) by (rewrite <- H53; ring).
  assert (H1' : ((y - (1 # 2)) * G == y * G - (1 # 2) * G)%Q) by ring.
  assert (H2' : ((y + (1 # 2)) * G == y * G + (1 # 2) * G)%Q) by ring.
  split; [exact H3|]. split; lra.
Qed.

(** A rational above zero rounds to a finite value or overflows to
    positive infinity. *)
Lemma roundDouble_pos_cases (x : Q) :
  (0 < x)%Q ->
  roundDouble x = Fin (roundToQuantum x) \/ roundDouble x = PosInf.
Proof.
  intros Hx. unfold roundDouble.
  destruct (Qeq_bool x 0) eqn:E0.
  { apply Qeq_bool_iff in E0. lra. }
  cbv zeta. destruct (Qle_bool _ _); [|left; reflexivity].
  right. destruct (Qle_bool 0 x) eqn:E; [reflexivity|].
  assert (Qle_bool 0 x = true) by (apply Qle_bool_iff; lra). congruence.
Qed.

Lemma roundDouble_cases (x : Q) :
  (exists r, roundDouble x = Fin r)
  \/ roundDouble x = PosInf \/ roundDouble x = NegInf.
Proof.
  unfold roundDouble.
  destruct (Qeq_bool x 0); [left; eexists; reflexivity|].
  cbv zeta. destruct (Qle_bool _ _); [|left; eexists; reflexivity].
  right. destruct (Qle_bool 0 x); [left|right]; reflexivity.
Qed.

(** Below the overflow threshold the rounding is finite. *)
Lemma roundDouble_finite (x : Q) :
  (0 < x)%Q ->
  (x + (x * 2 ^ (-53) + 2 ^ (-1075)) < 2 ^ 1024)%Q ->
  roundDouble x = Fin (roundToQuantum x).
Proof.
  intros Hx Hlt. unfold roundDouble.
  destruct (Qeq_bool x 0) eqn:E0.
  { apply Qeq_bool_iff in E0. lra. }
  cbv zeta. destruct (roundToQuantum_error x Hx) as (H0 & _ & Hhi).
  destruct (Qle_bool _ _) eqn:E; [|reflexivity].
  apply Qle_bool_iff in E. rewrite (Qabs_pos_eq _ H0) in E.
  set (r := roundToQuantum x) in *. set (top := (2 ^ 1024)%Q) in *.
  set (u53 := (2 ^ (-53))%Q) in *. set (u1075 := (2 ^ (-1075))%Q) in *.
  clearbody r top u53 u1075. lra.
Qed.

(** The literal 0.95 denotes the double [8556839292003942 / 2^53]. *)
Lemma safetyMargin_value :
  safetyMargin = Fin (8556839292003942 # 9007199254740992).
Proof. vm_compute. reflexivity. Qed.

(** Clamping the integer part of a rounded value between two whole
    numbers gives a whole number between them. *)
Lemma clamp_floor_rounded (lo hi : Z) (x : Q) :
  lo <= hi ->
  exists z,
    num_max (px lo) (num_min (px hi) (num_floor (roundDouble x))) = px z
    /\ lo <= z <= hi.
Proof.
  intros Hle.
  assert (Hpx : forall a b, num_le (px a) (px b) = (a <=? b)).
  { intros a b. unfold num_le, px, Qle_bool, inject_Z. simpl.
    rewrite !Z.mul_1_r. reflexivity. }
  destruct (roundDouble_cases x) as [[r ->]|[->| ->]].
  - change (num_floor (Fin r)) with (px (Qfloor r)).
    set (f := Qfloor r).
    change (num_min (px hi) (px f))
      with (if num_le (px hi) (px f) then px hi else px f).
    rewrite Hpx. destruct (Z.leb_spec hi f).
    + change (num_max (px lo) (px hi))
        with (if num_le (px lo) (px hi) then px hi else px lo).
      rewrite Hpx. destruct (Z.leb_spec lo hi); [|lia].
      exists hi. split; [reflexivity|lia].
    + change (num_max (px lo) (px f))
        with (if num_le (px lo) (px f) then px f else px lo).
      rewrite Hpx. destruct (Z.leb_spec lo f).
      * exists f. split; [reflexivity|lia].
      * exists lo. split; [reflexivity|lia].
  - change (num_max (px lo) (num_min (px hi) (num_floor PosInf)))
      with (if num_le (px lo) (px hi) then px hi else px lo).
    rewrite Hpx. destruct (Z.leb_spec lo hi); [|lia].
    exists hi. split; [reflexivity|lia].
  - exists lo. split; [reflexivity|lia].
Qed.
(** * Properties of the layout engine *)

Section LayoutFacts.

Variable innerWidth : option Z.
Variable compactMode : bool.
Variable measuredWidth : option number.

Abbreviation step := (rowStep innerWidth compactMode measuredWidth).

Lemma length_eqb_0_nil {A} (l : list A) :
  (length l =? 0)%nat = true <-> l = [].
Proof.
  destruct l; simpl; split; intros H; try reflexivity; discriminate.
Qed.

Lemma rowStep_placed st box : placed (step st box) = placed st ++ [box].
Proof.
  unfold rowStep, placed.
  destruct (shouldBreakBeforeBox _ _ _ _ _ && _); simpl.
  - rewrite concat_app. simpl. rewrite !app_nil_r. reflexivity.
  - rewrite app_assoc. reflexivity.
Qed.

Lemma fold_rowStep_placed boxes st :
  placed (fold_left step boxes st) = placed st ++ boxes.
Proof.
  revert st. induction boxes as [|box boxes IH]; intros st; simpl.
  - rewrite app_nil_r. reflexivity.
  - rewrite IH, rowStep_placed, <- app_assoc. reflexivity.
Qed.

Lemma flushRow_concat st : concat (flushRow st) = placed st.
Proof.
  unfold flushRow, placed.
  destruct (length (currentRow st) =? 0)%nat eqn:E; simpl.
  - apply length_eqb_0_nil in E. rewrite E, app_nil_r. reflexivity.
  - rewrite concat_app. simpl. rewrite app_nil_r. reflexivity.
Qed.

Lemma rowStep_rows_nonempty st box :
  Forall (fun row => row <> []) (rows st) ->
  Forall (fun row => row <> []) (rows (step st box)).
Proof.
  intros H. unfold rowStep.
  destruct (shouldBreakBeforeBox _ _ _ _ _); simpl; [|exact H].
  destruct (length (currentRow st) =? 0)%nat eqn:E; simpl; [exact H|].
  apply Forall_app. split; [exact H|].
  constructor; [|constructor].
  intros Hnil. rewrite Hnil in E. discriminate.
Qed.

Lemma fold_rowStep_rows_nonempty boxes st :
  Forall (fun row => row <> []) (rows st) ->
  Forall (fun row => row <> []) (rows (fold_left step boxes st)).
Proof.
  revert st. induction boxes as [|box boxes IH]; intros st H; simpl.
  - exact H.
  - apply IH, rowStep_rows_nonempty, H.
Qed.

Lemma flushRow_nonempty st :
  Forall (fun row => row <> []) (rows st) ->
  Forall (fun row => row <> []) (flushRow st).
Proof.
  intros H. unfold flushRow.
  destruct (length (currentRow st) =? 0)%nat eqn:E; simpl; [exact H|].
  apply Forall_app. split; [exact H|].
  constructor; [|constructor].
  intros Hnil. rewrite Hnil in E. discriminate.
Qed.

End LayoutFacts.

(** C4.  For every box sequence, compact-mode flag and optional measured
    width (and every viewport), the rows returned by [processBoxesIntoRows]
    are all non-empty and their concatenation in order is the input
    sequence: nothing is reordered, dropped or duplicated, and the trailing
    row is flushed. *)
Theorem processBoxesIntoRows_partition (innerWidth : option Z)
    (boxes : list GridBox) (compactMode : bool)
    (measuredWidth : option number) :
  concat (processBoxesIntoRows innerWidth boxes compactMode measuredWidth)
    = boxes
  /\ Forall (fun row => row <> [])
       (processBoxesIntoRows innerWidth boxes compactMode measuredWidth).
Proof.
  unfold processBoxesIntoRows. split.
  - rewrite flushRow_concat, fold_rowStep_placed. reflexivity.
  - apply flushRow_nonempty, fold_rowStep_rows_nonempty. constructor.
Qed.

(** * The measured width *)

Lemma Qeq_bool_0_le q : Qeq_bool q 0 = true -> Qle_bool q 0 = true.
Proof.
  intros H. apply Qeq_bool_iff in H. apply Qle_bool_iff.
  rewrite H. apply Qle_refl.
Qed.

(** The guard of [getResponsiveConstants] holds exactly for the widths
    greater than zero. *)
Lemma measured_guard w :
  num_truthy w && num_gt w (px 0) = num_gt w (px 0).
Proof.
  destruct w as [q| | |]; try reflexivity.
  unfold num_truthy, num_gt, num_lt, px, Qlt_bool.
  destruct (Qeq_bool q 0) eqn:E; [|reflexivity].
  change (inject_Z 0) with 0%Q.
  rewrite (Qeq_bool_0_le q E). reflexivity.
Qed.

(** C9, as stated, fails: positive infinity is not finite, yet the
    constants are derived from it and the effective container width
    becomes infinite. *)
Lemma infinite_width_not_ignored : ~ ignoresInvalidWidths.
Proof.
  intros H.
  specialize (H None false PosInf (or_introl eq_refl)).
  vm_compute in H. discriminate.
Qed.

(** C9, amended.  A measured width that is NaN, or is not greater than
    zero (negative, zero or negative infinity), or is absent, is ignored:
    the constants come from the static breakpoint table.  The dynamic
    constants, with the effective container width the floor of 0.95 times
    the measured width (the product as the doubles give it), are derived
    exactly when the measured width is greater than zero, positive
    infinity included, for which the effective container width is
    infinite. *)
Theorem measured_width_guard (innerWidth : option Z) (compactMode : bool)
    (w : number) :
  (w = NaN \/ num_le w (px 0) = true ->
   getResponsiveConstants innerWidth compactMode (Some w)
   = staticConstants innerWidth compactMode)
  /\ getResponsiveConstants innerWidth compactMode None
     = staticConstants innerWidth compactMode
  /\ (num_gt w (px 0) = true ->
      getResponsiveConstants innerWidth compactMode (Some w)
      = calculateDynamicConstants w compactMode
      /\ containerWidth (getResponsiveConstants innerWidth compactMode (Some w))
         = num_floor (double_mul w safetyMargin))
  /\ (w = PosInf ->
      containerWidth (getResponsiveConstants innerWidth compactMode (Some w))
      = PosInf).
Proof.
  split; [|split; [reflexivity|split]].
  - intros H. unfold getResponsiveConstants. rewrite measured_guard.
    destruct H as [->|H]; [reflexivity|].
    destruct w as [q| | |]; try reflexivity; try discriminate.
    unfold num_gt, num_lt, num_le, px, Qlt_bool in *. rewrite H. reflexivity.
  - intros H. unfold getResponsiveConstants.
    rewrite measured_guard, H. split; [reflexivity|].
    unfold calculateDynamicConstants.
    destruct compactMode;
      repeat match goal with
             | |- context [if ?b then _ else _] => destruct b
             end; reflexivity.
  - intros ->. destruct compactMode; vm_compute; reflexivity.
Qed.

Lemma measured_width_guard_witness :
  getResponsiveConstants None false (Some (px (-5)))
  = staticConstants None false
  /\ containerWidth (getResponsiveConstants None false (Some (px 400)))
     = num_floor (double_mul (px 400) safetyMargin).
Proof.
  split.
  - exact (proj1 (measured_width_guard None false (px (-5)))
             (or_intror eq_refl)).
  - exact (proj2 (proj1 (proj2 (proj2
             (measured_width_guard None false (px 400)))) eq_refl)).
Defined.

(** * Rows within the container width *)

Lemma num_add_finite a b :
  num_isFinite a = true -> num_isFinite b = true ->
  num_isFinite (num_add a b) = true.
Proof. destruct a, b; simpl; congruence. Qed.

Lemma num_mul_finite a b :
  num_isFinite a = true -> num_isFinite b = true ->
  num_isFinite (num_mul a b) = true.
Proof. destruct a, b; simpl; congruence. Qed.

(** For a finite width and a container width that is finite or infinite,
    not reaching the container width is being strictly below it. *)
Lemma num_lt_not_ge a b :
  num_isFinite a = true ->
  num_isFinite b = true \/ b = PosInf ->
  num_lt a b = negb (num_ge a b).
Proof.
  destruct a as [p| | |]; try discriminate. intros _ [Hb| ->].
  - destruct b as [q| | |]; try discriminate. reflexivity.
  - reflexivity.
Qed.

Section RowFacts.

Variable innerWidth : option Z.
Variable compactMode : bool.
Variable measuredWidth : option number.

Abbreviation constants :=
  (getResponsiveConstants innerWidth compactMode measuredWidth).
Abbreviation widthOf :=
  (fun box => boxWidth innerWidth box compactMode measuredWidth).
Abbreviation widthOfRow := (rowWidth innerWidth compactMode measuredWidth).
Abbreviation rstep := (rowStep innerWidth compactMode measuredWidth).
Abbreviation fits := (fitsContainer innerWidth compactMode measuredWidth).

Lemma staticConstants_finite :
  let k := staticConstants innerWidth compactMode in
  num_isFinite (containerWidth k) = true
  /\ num_isFinite (basePadding k) = true
  /\ num_isFinite (charWidth k) = true.
Proof.
  unfold staticConstants.
  destruct innerWidth as [width|], compactMode;
    try destruct (breakpointOf width); repeat split.
Qed.

Lemma dynamicConstants_finite w :
  num_gt w (px 0) = true ->
  let k := calculateDynamicConstants w compactMode in
  (num_isFinite (containerWidth k) = true \/ containerWidth k = PosInf)
  /\ num_isFinite (basePadding k) = true
  /\ num_isFinite (charWidth k) = true.
Proof.
  intros Hpos. destruct w as [q| | |]; try discriminate.
  - assert (Hq : (0 < q)%Q).
    { unfold num_gt, num_lt, px, Qlt_bool in Hpos.
      apply negb_true_iff in Hpos. apply Qnot_le_lt. intros Hle.
      apply Qle_bool_iff in Hle. change (inject_Z 0) with 0%Q in Hpos.
      congruence. }
    cbv zeta. unfold calculateDynamicConstants.
    assert (Hw : num_isFinite (num_floor (double_mul (Fin q) safetyMargin))
                 = true
                 \/ num_floor (double_mul (Fin q) safetyMargin) = PosInf).
    { rewrite safetyMargin_value. unfold double_mul, num_mul, double_round.
      destruct (roundDouble_pos_cases
                  (q * (8556839292003942 # 9007199254740992)))
        as [-> | ->]; [|left; reflexivity|right; reflexivity].
      apply Qmult_lt_0_compat; [exact Hq|reflexivity]. }
    destruct compactMode.
    + destruct (num_le (Fin q) (px 480));
        [|destruct (num_le (Fin q) (px 768))]; repeat split; exact Hw.
    + destruct (clamp_floor_rounded 2 8 (q / inject_Z 150)) as (z & Hz & _);
        [lia|].
      change (double_div (Fin q) (px 150))
        with (roundDouble (q / inject_Z 150)).
      rewrite Hz.
      destruct (num_lt (Fin q) (px 350));
        [|destruct (num_lt (Fin q) (px 500));
          [|destruct (num_lt (Fin q) (px 650))]];
        repeat split; exact Hw.
  - destruct compactMode; vm_compute; repeat split; right; reflexivity.
Qed.

(** The constants in use are finite, but for a container width that may be
    infinite. *)
Lemma constants_finite :
  (num_isFinite (containerWidth constants) = true
   \/ containerWidth constants = PosInf)
  /\ num_isFinite (basePadding constants) = true
  /\ num_isFinite (charWidth constants) = true.
Proof.
  unfold getResponsiveConstants.
  destruct measuredWidth as [w|].
  - rewrite measured_guard. destruct (num_gt w (px 0)) eqn:E.
    + apply dynamicConstants_finite, E.
    + pose proof staticConstants_finite as (H1 & H2 & H3). tauto.
  - pose proof staticConstants_finite as (H1 & H2 & H3). tauto.
Qed.

Lemma calculateWeekCellWidth_finite :
  num_isFinite (calculateWeekCellWidth innerWidth compactMode) = true.
Proof.
  unfold calculateWeekCellWidth. destruct compactMode; [reflexivity|].
  destruct (_ <=? _); reflexivity.
Qed.

Lemma calculateBoxWidth_finite text :
  num_isFinite (calculateBoxWidth innerWidth text compactMode measuredWidth)
  = true.
Proof.
  pose proof constants_finite as (_ & Hp & Hc).
  unfold calculateBoxWidth.
  repeat apply num_add_finite; try reflexivity;
    apply num_mul_finite; try reflexivity; assumption.
Qed.

Lemma boxWidth_finite box : num_isFinite (widthOf box) = true.
Proof.
  unfold boxWidth.
  destruct (type box);
    auto using calculateBoxWidth_finite, calculateWeekCellWidth_finite.
Qed.

Lemma rowWidth_snoc row box :
  widthOfRow (row ++ [box]) = num_add (widthOfRow row) (widthOf box).
Proof. unfold rowWidth. rewrite fold_left_app. reflexivity. Qed.

Lemma rowWidth_finite row : num_isFinite (widthOfRow row) = true.
Proof.
  induction row as [|box row IH] using rev_ind; [reflexivity|].
  rewrite rowWidth_snoc. apply num_add_finite; [exact IH|].
  apply boxWidth_finite.
Qed.

(** A row is strictly below the container width as soon as it does not
    reach it. *)
Lemma rowWidth_below row :
  num_lt (widthOfRow row) (containerWidth constants)
  = negb (num_ge (widthOfRow row) (containerWidth constants)).
Proof.
  apply num_lt_not_ge; [apply rowWidth_finite|apply constants_finite].
Qed.

(** Where the label of the next box agrees with its type, the break test
    measures the box as the running width does. *)
Lemma shouldBreakBeforeBox_agrees current box :
  labelMatchesType box ->
  shouldBreakBeforeBox innerWidth current (label box) compactMode
    measuredWidth
  = num_ge (num_add current (widthOf box)) (containerWidth constants).
Proof.
  intros [H1 H2]. unfold shouldBreakBeforeBox, boxWidth.
  destruct (label box) as [|c text] eqn:El; simpl.
  - rewrite (H2 eq_refl). reflexivity.
  - destruct (type box) eqn:Et; try reflexivity.
    specialize (H1 eq_refl). discriminate.
Qed.

(** The break occurs exactly when appending the next box would reach the
    container width while the current row is not empty. *)
Lemma rowStep_agrees st box :
  labelMatchesType box ->
  rstep st box
  = if num_ge (num_add (currentRowWidth st) (widthOf box))
         (containerWidth constants)
       && negb (length (currentRow st) =? 0)%nat
    then mkRowState (rows st ++ [currentRow st]) [box]
           (num_add (px 0) (widthOf box))
    else mkRowState (rows st) (currentRow st ++ [box])
           (num_add (currentRowWidth st) (widthOf box)).
Proof.
  intros H. unfold rowStep. rewrite shouldBreakBeforeBox_agrees by exact H.
  destruct (_ && _); reflexivity.
Qed.

Abbreviation rowsFit := (rowStateFits innerWidth compactMode measuredWidth).

Lemma singleton_fits box : fits [box].
Proof.
  unfold fitsContainer. rewrite rowWidth_below.
  destruct (num_ge (widthOfRow [box]) (containerWidth constants)) eqn:E.
  - right. exists box. split; [reflexivity|exact E].
  - left. reflexivity.
Qed.

Lemma rowStep_rowsFit st box :
  labelMatchesType box -> rowsFit st -> rowsFit (rstep st box).
Proof.
  intros Hbox (Hw & Hrows & Hcur). rewrite rowStep_agrees by exact Hbox.
  unfold rowStateFits. destruct (num_ge _ _) eqn:Ege; simpl.
  - destruct (length (currentRow st) =? 0)%nat eqn:El; simpl.
    + apply length_eqb_0_nil in El. rewrite El in *.
      repeat split; try assumption.
      * rewrite Hw. reflexivity.
      * right. apply singleton_fits.
    + repeat split.
      * apply Forall_app. split; [exact Hrows|].
        constructor; [|constructor].
        destruct Hcur as [Hnil|Hfit]; [|exact Hfit].
        rewrite Hnil in El. discriminate.
      * right. apply singleton_fits.
  - repeat split; try assumption.
    + rewrite rowWidth_snoc, Hw. reflexivity.
    + right. left. rewrite rowWidth_below, rowWidth_snoc, <- Hw, Ege.
      reflexivity.
Qed.

Lemma fold_rowStep_rowsFit boxes st :
  Forall labelMatchesType boxes -> rowsFit st ->
  rowsFit (fold_left rstep boxes st).
Proof.
  revert st. induction boxes as [|box boxes IH]; intros st Hb Hst; simpl.
  - exact Hst.
  - apply Forall_cons in Hb as [Hbox Hb].
    apply IH; [exact Hb|]. apply rowStep_rowsFit; assumption.
Qed.

(** Where every label agrees with the type of its box, every row fits the
    effective container width. *)
Lemma processBoxesIntoRows_fits boxes :
  Forall labelMatchesType boxes ->
  Forall fits
    (processBoxesIntoRows innerWidth boxes compactMode measuredWidth).
Proof.
  intros Hb. unfold processBoxesIntoRows.
  destruct (fold_rowStep_rowsFit boxes (mkRowState [] [] (px 0)) Hb)
    as (_ & Hrows & Hcur).
  { repeat split; [constructor|left; reflexivity]. }
  unfold flushRow.
  destruct (length (currentRow _) =? 0)%nat eqn:El; simpl; [exact Hrows|].
  apply Forall_app. split; [exact Hrows|]. constructor; [|constructor].
  destruct Hcur as [Hnil|Hfit]; [|exact Hfit].
  rewrite Hnil in El. discriminate.
Qed.

End RowFacts.

(** * Rows wider than the container *)

(** C5 does not hold of the code.  The break test measures the next box by
    its label (an empty label counts as a week cell) while the running
    width measures it by its type.  In a viewport of 1200 pixels, with a
    measured width of 42 the effective container width is 39; two boxes of
    type week labelled "a" are tested at 12 pixels and added at 26, and end
    in one row of 52 pixels.  And without a measured width, at the desktop
    breakpoint (668 pixels), an event box with an empty label is tested at
    26 pixels and added at 17: after 25 empty weeks (650 pixels) the row is
    closed before it, though the 26 boxes together stay below the container
    width. *)
Theorem rows_disagree_with_break_test :
  let viewport := Some 1200 in
  let measured := Some (px 42) in
  let crowded := [labelledWeekBox; labelledWeekBox] in
  let weeks := replicate 25 plainWeekBox in
  (containerWidth (getResponsiveConstants viewport false measured) = px 39
   /\ calculateBoxWidth viewport (label labelledWeekBox) false measured
      = px 12
   /\ boxWidth viewport labelledWeekBox false measured = px 26
   /\ processBoxesIntoRows viewport crowded false measured = [crowded]
   /\ rowWidth viewport false measured crowded = px 52
   /\ num_ge (rowWidth viewport false measured crowded)
        (containerWidth (getResponsiveConstants viewport false measured))
      = true)
  /\ (containerWidth (getResponsiveConstants viewport false None) = px 668
      /\ processBoxesIntoRows viewport (weeks ++ [unlabelledEventBox]) false
           None
         = [weeks; [unlabelledEventBox]]
      /\ rowWidth viewport false None (weeks ++ [unlabelledEventBox])
         = px 667
      /\ num_lt (rowWidth viewport false None (weeks ++ [unlabelledEventBox]))
           (containerWidth (getResponsiveConstants viewport false None))
         = true).
Proof. vm_compute. repeat split; reflexivity. Qed.

(** * Properties of the calendar *)

Lemma getDay_range d : 0 <= getDay d <= 6.
Proof. unfold getDay. pose proof (Z.mod_pos_bound (d + 4) 7). lia. Qed.

Lemma getDay_add_weeks d w : getDay (d + w * 7) = getDay d.
Proof.
  unfold getDay. replace (d + w * 7 + 4) with (d + 4 + w * 7) by lia.
  apply Z.mod_add. lia.
Qed.

Lemma getWeekStartSunday_le d : d - 6 <= getWeekStartSunday d <= d.
Proof. unfold getWeekStartSunday. pose proof (getDay_range d). lia. Qed.

Lemma getWeekStartSunday_is_Sunday d : getDay (getWeekStartSunday d) = 0.
Proof.
  unfold getWeekStartSunday, getDay.
  pose proof (Z.mod_pos_bound (d + 4) 7).
  pose proof (Z.div_mod (d + 4) 7).
  replace (d - (d + 4) mod 7 + 4) with (0 + (d + 4) / 7 * 7) by lia.
  rewrite Z.mod_add by lia. reflexivity.
Qed.

Lemma getWeekStartSunday_add_weeks d w :
  getWeekStartSunday (d + w * 7) = getWeekStartSunday d + w * 7.
Proof. unfold getWeekStartSunday. rewrite getDay_add_weeks. lia. Qed.

Lemma daysBeforeYear_succ y :
  daysBeforeYear (y + 1) = daysBeforeYear y + 365 + leapDay y.
Proof.
  unfold daysBeforeYear, leapDay, isLeapYear.
  replace (y + 1 - 1) with y by lia.
  destruct (Z.eqb_spec (y mod 4) 0), (Z.eqb_spec (y mod 100) 0),
    (Z.eqb_spec (y mod 400) 0); simpl;
    Z.div_mod_to_equations; lia.
Qed.

(** The start of a month moves by at most the leap day from one year to
    another. *)
Lemma daysBeforeMonth_leap m (b1 b2 : bool) :
  daysBeforeMonth b1 m - daysBeforeMonth b2 m
  = if 2 <=? m then (if b1 then 1 else 0) - (if b2 then 1 else 0) else 0.
Proof.
  unfold daysBeforeMonth. destruct b1, b2, (2 <=? m); simpl; lia.
Qed.

(** From one anniversary to the next there are 365 or 366 days. *)
Lemma mkDate_next_year y m d :
  365 <= mkDate (y + 1) m d - mkDate y m d <= 366.
Proof.
  unfold mkDate.
  replace (y + 1 + m / 12) with (y + m / 12 + 1) by lia.
  set (y' := y + m / 12). set (m' := m mod 12).
  rewrite daysBeforeYear_succ.
  pose proof (daysBeforeMonth_leap m' (isLeapYear (y' + 1)) (isLeapYear y'))
    as H.
  unfold leapDay.
  destruct (isLeapYear (y' + 1)), (isLeapYear y'), (2 <=? m'); lia.
Qed.

(** * Sorted concatenations *)

Section SortedFlatMap.

Context {A B : Type} (R : relation B) (f : A -> list B).

(** A concatenation of sorted blocks, taken along a strictly increasing
    list of indices, is sorted as soon as blocks of increasing indices are
    related elementwise. *)
Lemma StronglySorted_flat_map (lt : relation A) (l : list A) :
  StronglySorted lt l ->
  (forall x, x ∈ l -> StronglySorted R (f x)) ->
  (forall x y a b, x ∈ l -> y ∈ l -> lt x y -> a ∈ f x -> b ∈ f y -> R a b) ->
  StronglySorted R (flat_map f l).
Proof.
  induction 1 as [|x l Hl IH Hx]; intros Hblock Hcross; simpl.
  - constructor.
  - apply StronglySorted_app_2.
    + intros a b Ha Hb.
      apply list_elem_of_In, in_flat_map in Hb as (y & Hy & Hb).
      apply list_elem_of_In in Hy, Hb.
      apply (Hcross x y); try assumption.
      * left.
      * right. exact Hy.
      * rewrite Forall_forall in Hx. apply Hx. exact Hy.
    + apply Hblock. left.
    + apply IH.
      * intros y Hy. apply Hblock. right. exact Hy.
      * intros y z a b Hy Hz. apply Hcross; right; assumption.
Qed.

Lemma flat_map_singletons_length (g : A -> B) (l : list A) :
  (forall x, x ∈ l -> f x = [g x]) ->
  length (flat_map f l) = length l.
Proof.
  induction l as [|x l IH]; intros H; simpl.
  - reflexivity.
  - rewrite length_app, (H x) by left. simpl. f_equal.
    apply IH. intros y Hy. apply H. right. exact Hy.
Qed.

End SortedFlatMap.

Lemma filter_none {A} (P : A -> Prop) `{forall x, Decision (P x)} (l : list A) :
  (forall x, x ∈ l -> ~ P x) -> filter P l = [].
Proof.
  induction l as [|x l IH]; intros H0; [reflexivity|].
  rewrite filter_cons_False by (apply H0; left).
  apply IH. intros y Hy. apply H0. right. exact Hy.
Qed.

Lemma filter_all {A} (P : A -> Prop) `{forall x, Decision (P x)} (l : list A) :
  (forall x, x ∈ l -> P x) -> filter P l = l.
Proof.
  induction l as [|x l IH]; intros H0; [reflexivity|].
  rewrite filter_cons_True by (apply H0; left).
  f_equal. apply IH. intros y Hy. apply H0. right. exact Hy.
Qed.

(** The index ranges of the loops. *)
Lemma elem_of_range (s : Z) (k n : nat) (x : Z) :
  x ∈ map (fun i => s + Z.of_nat i) (seq k n)
  <-> s + Z.of_nat k <= x < s + Z.of_nat k + Z.of_nat n.
Proof.
  rewrite list_elem_of_In, in_map_iff. split.
  - intros (i & <- & Hi). apply in_seq in Hi. lia.
  - intros H. exists (Z.to_nat (x - s)). split; [lia|].
    apply in_seq. lia.
Qed.

Lemma range_sorted (s : Z) (k n : nat) :
  StronglySorted Z.lt (map (fun i => s + Z.of_nat i) (seq k n)).
Proof.
  revert k. induction n as [|n IH]; intros k; simpl.
  - constructor.
  - constructor; [apply IH|].
    apply Forall_forall. intros x Hx.
    apply elem_of_range in Hx. lia.
Qed.

Lemma elem_of_weeksFrom (s w : Z) :
  s <= 53 -> (w ∈ weeksFrom s <-> s <= w <= 52).
Proof. intros Hs. unfold weeksFrom. rewrite elem_of_range. lia. Qed.

Lemma length_weeksFrom (s : Z) : length (weeksFrom s) = Z.to_nat (53 - s).
Proof. unfold weeksFrom. rewrite length_map, length_seq. reflexivity. Qed.

Lemma elem_of_yearsOf (weeksConfig : WeeksConfig) (yr : Z) :
  yr ∈ yearsOf weeksConfig
  <-> startYear weeksConfig <= yr <= endYear weeksConfig.
Proof. unfold yearsOf. rewrite elem_of_range. lia. Qed.

(** * Properties of the calendar walk *)

Section WalkFacts.

Variable weeksConfig : WeeksConfig.
Variable mergedEvents : gmap Z (list MergedEvent).
Variable isCompactMode : bool.

Abbreviation anniv := (anniversary weeksConfig).
Abbreviation anchor := (weekDateOf weeksConfig).
Abbreviation wboxes := (weekBoxes weeksConfig mergedEvents isCompactMode).
Abbreviation yboxes := (yearBoxes weeksConfig mergedEvents isCompactMode).
Abbreviation wstep := (weekStep weeksConfig mergedEvents isCompactMode).
Abbreviation ystep := (yearStep weeksConfig mergedEvents isCompactMode).

(** *** The boxes of the walk, year by year *)

Lemma weekStep_allBoxes yr st week :
  allBoxes (wstep yr st week) = allBoxes st ++ wboxes yr week.
Proof.
  unfold weekStep, weekBoxes.
  destruct (anniv (yr + 1) <=? anchor yr week); simpl.
  - rewrite app_nil_r. reflexivity.
  - reflexivity.
Qed.

Lemma fold_weekStep_allBoxes yr weeks st :
  allBoxes (fold_left (wstep yr) weeks st)
  = allBoxes st ++ flat_map (wboxes yr) weeks.
Proof.
  revert st. induction weeks as [|w weeks IH]; intros st; simpl.
  - rewrite app_nil_r. reflexivity.
  - rewrite IH, weekStep_allBoxes, <- app_assoc. reflexivity.
Qed.

Lemma yearStep_allBoxes st yr :
  allBoxes (ystep st yr) = allBoxes st ++ yboxes yr.
Proof.
  unfold yearStep, yearBoxes. rewrite fold_weekStep_allBoxes.
  destruct (0 <? yr - startYear weeksConfig); simpl.
  - rewrite <- app_assoc. reflexivity.
  - reflexivity.
Qed.

Lemma fold_yearStep_allBoxes years st :
  allBoxes (fold_left ystep years st)
  = allBoxes st ++ flat_map yboxes years.
Proof.
  revert st. induction years as [|y years IH]; intros st; simpl.
  - rewrite app_nil_r. reflexivity.
  - rewrite IH, yearStep_allBoxes, <- app_assoc. reflexivity.
Qed.

Lemma walk_allBoxes :
  allBoxes (walk weeksConfig mergedEvents isCompactMode)
  = flat_map yboxes (yearsOf weeksConfig).
Proof. unfold walk. rewrite fold_yearStep_allBoxes. reflexivity. Qed.

(** *** The fields of the pushed boxes *)

Lemma boxForWeek_fields weekDate nextBirthday yr :
  let box := boxForWeek mergedEvents isCompactMode weekDate nextBirthday yr in
  date box = weekDate /\ year box = yr /\ type box <> Birthday.
Proof.
  unfold boxForWeek.
  destruct (eventsForWeekOf _ _ _) as [[|first others]|]; simpl;
    try (repeat split; discriminate).
  destruct (isCompactMode && _); simpl; repeat split; discriminate.
Qed.

Lemma weekBoxes_fields yr week b :
  b ∈ wboxes yr week ->
  date b = anchor yr week /\ year b = yr /\ type b <> Birthday
  /\ anchor yr week < anniv (yr + 1).
Proof.
  unfold weekBoxes.
  destruct (Z.leb_spec (anniv (yr + 1)) (anchor yr week)) as [Hle|Hlt].
  - intros H. inversion H.
  - intros H. apply list_elem_of_singleton in H. subst b.
    pose proof (boxForWeek_fields (anchor yr week) (anniv (yr + 1)) yr)
      as (Hd & Hy & Ht).
    repeat split; assumption.
Qed.

Lemma yearBoxes_year yr b : b ∈ yboxes yr -> year b = yr.
Proof.
  unfold yearBoxes. intros H. apply elem_of_app in H as [H|H].
  - destruct (0 <? yr - startYear weeksConfig).
    + apply list_elem_of_singleton in H. subst b. reflexivity.
    + inversion H.
  - apply list_elem_of_In, in_flat_map in H as (w & _ & H).
    apply list_elem_of_In in H.
    apply weekBoxes_fields in H. tauto.
Qed.


(** *** The anchors of the weeks *)

Lemma anniversary_next yr : 365 <= anniv (yr + 1) - anniv yr <= 366.
Proof. apply mkDate_next_year. Qed.

Lemma anniversary_mono y1 y2 : y1 <= y2 -> anniv y1 <= anniv y2.
Proof.
  intros H. replace y2 with (y1 + Z.of_nat (Z.to_nat (y2 - y1))) by lia.
  induction (Z.to_nat (y2 - y1)) as [|n IH].
  - replace (y1 + Z.of_nat 0) with y1 by lia. lia.
  - pose proof (anniversary_next (y1 + Z.of_nat n)).
    replace (y1 + Z.of_nat (S n)) with (y1 + Z.of_nat n + 1) by lia. lia.
Qed.

(** In the birth year the anchors are a week apart from the Sunday of the
    week of the birth date. *)
Lemma anchor_birth_year yr week :
  yr = startYear weeksConfig ->
  anchor yr week
  = getWeekStartSunday (dayNumber (startDate weeksConfig)) + week * 7.
Proof.
  intros ->. unfold weekDateOf. rewrite Z.sub_diag. simpl.
  destruct (Z.eqb_spec week 0) as [->|_]; lia.
Qed.

(** In the later years they are a week apart from the Sunday of the week of
    the anniversary. *)
Lemma anchor_later_year yr week :
  yr <> startYear weeksConfig ->
  anchor yr week = getWeekStartSunday (anniv yr) + week * 7.
Proof.
  intros Hne. unfold weekDateOf.
  destruct (Z.eqb_spec (yr - startYear weeksConfig) 0) as [E|_]; [lia|].
  apply getWeekStartSunday_add_weeks.
Qed.

Lemma anchor_increasing yr w1 w2 : w1 < w2 -> anchor yr w1 < anchor yr w2.
Proof.
  intros H. destruct (Z.eq_dec yr (startYear weeksConfig)) as [E|E].
  - rewrite !anchor_birth_year by assumption. lia.
  - rewrite !anchor_later_year by assumption. lia.
Qed.

(** After the birth year, the weeks from index 1 on start after the
    birthday. *)
Lemma anchor_after_birthday yr week :
  yr <> startYear weeksConfig -> 1 <= week -> anniv yr < anchor yr week.
Proof.
  intros Hne Hw. rewrite anchor_later_year by assumption.
  pose proof (getWeekStartSunday_le (anniv yr)). lia.
Qed.

(** Where the start year is the year of the birth date, the birth date is
    the anniversary of the start year. *)
Lemma dayNumber_anniversary :
  startYear weeksConfig = getFullYear (startDate weeksConfig) ->
  dayNumber (startDate weeksConfig) = anniv (startYear weeksConfig).
Proof. intros H. unfold dayNumber, anniversary. rewrite H. reflexivity. Qed.

(** No week of index at most 52 reaches the next birthday: the skip never
    fires (in the birth year, provided the start year is the year of the
    birth date). *)
Lemma anchor_before_next_birthday yr week :
  (yr = startYear weeksConfig ->
   startYear weeksConfig = getFullYear (startDate weeksConfig)) ->
  week <= 52 -> anchor yr week < anniv (yr + 1).
Proof.
  intros Hbirth Hw. pose proof (anniversary_next yr).
  destruct (Z.eq_dec yr (startYear weeksConfig)) as [E|E].
  - rewrite anchor_birth_year by assumption.
    rewrite dayNumber_anniversary by auto. rewrite <- E.
    pose proof (getWeekStartSunday_le (anniv yr)). lia.
  - rewrite anchor_later_year by assumption.
    pose proof (getWeekStartSunday_le (anniv yr)). lia.
Qed.

Lemma weekBoxes_not_skipped yr week :
  anchor yr week < anniv (yr + 1) ->
  wboxes yr week
  = [boxForWeek mergedEvents isCompactMode (anchor yr week)
       (anniv (yr + 1)) yr].
Proof.
  intros H. unfold weekBoxes.
  destruct (Z.leb_spec (anniv (yr + 1)) (anchor yr week)); [lia|reflexivity].
Qed.


(** *** The boxes of one year *)

Lemma weekBoxes_sorted yr weeks :
  StronglySorted Z.lt weeks ->
  StronglySorted earlier (flat_map (wboxes yr) weeks).
Proof.
  intros Hs. apply (StronglySorted_flat_map earlier _ Z.lt); [exact Hs| |].
  - intros w _. unfold weekBoxes.
    destruct (anniv (yr + 1) <=? anchor yr w); repeat constructor.
  - intros w1 w2 a b _ _ Hlt Ha Hb.
    apply weekBoxes_fields in Ha as (Ha & _), Hb as (Hb & _).
    unfold earlier. rewrite Ha, Hb. apply anchor_increasing, Hlt.
Qed.

Lemma startWeekOf_cases yr :
  (yr = startYear weeksConfig /\ startWeekOf weeksConfig yr = 0)
  \/ (yr <> startYear weeksConfig /\ startWeekOf weeksConfig yr = 1).
Proof.
  unfold startWeekOf.
  destruct (Z.eqb_spec (yr - startYear weeksConfig) 0); [left|right]; lia.
Qed.

Lemma elem_of_yearBoxes yr b :
  b ∈ yboxes yr <->
  (startYear weeksConfig < yr /\ b = birthdayBox weeksConfig isCompactMode yr)
  \/ (exists week, startWeekOf weeksConfig yr <= week <= 52
                   /\ b ∈ wboxes yr week).
Proof.
  unfold yearBoxes. rewrite elem_of_app.
  assert (Hs : startWeekOf weeksConfig yr <= 53)
    by (destruct (startWeekOf_cases yr) as [[_ ->]|[_ ->]]; lia).
  split.
  - intros [H|H].
    + left. destruct (Z.ltb_spec 0 (yr - startYear weeksConfig)).
      * apply list_elem_of_singleton in H. split; [lia|exact H].
      * inversion H.
    + right. apply list_elem_of_In, in_flat_map in H as (w & Hw & H).
      apply list_elem_of_In in Hw, H.
      apply elem_of_weeksFrom in Hw; [|exact Hs]. eauto.
  - intros [[Hy ->]|(w & Hw & H)].
    + left. destruct (Z.ltb_spec 0 (yr - startYear weeksConfig)); [|lia].
      left.
    + right. apply list_elem_of_In, in_flat_map. exists w.
      rewrite <- !list_elem_of_In. split; [|exact H].
      apply elem_of_weeksFrom; assumption.
Qed.

(** Every box of a year is dated before the next birthday and, after the
    birth year, not before the birthday of its year. *)
Lemma yearBoxes_bounds yr b :
  b ∈ yboxes yr ->
  date b < anniv (yr + 1)
  /\ (yr <> startYear weeksConfig -> anniv yr <= date b).
Proof.
  intros H. apply elem_of_yearBoxes in H as [[Hy ->]|(w & Hw & H)].
  - simpl. pose proof (anniversary_next yr). lia.
  - apply weekBoxes_fields in H as (Hd & _ & _ & Hlt). rewrite Hd.
    split; [exact Hlt|]. intros Hne.
    destruct (startWeekOf_cases yr) as [[E _]|[_ E]]; [contradiction|].
    pose proof (anchor_after_birthday yr w Hne). lia.
Qed.

Lemma yearBoxes_sorted yr : StronglySorted earlier (yboxes yr).
Proof.
  unfold yearBoxes. apply StronglySorted_app_2.
  - intros a b Ha Hb.
    destruct (Z.ltb_spec 0 (yr - startYear weeksConfig)); [|inversion Ha].
    apply list_elem_of_singleton in Ha. subst a.
    apply list_elem_of_In, in_flat_map in Hb as (w & Hw & Hb).
    apply list_elem_of_In in Hw, Hb.
    destruct (startWeekOf_cases yr) as [[E _]|[Hne E]]; [lia|].
    rewrite E in Hw. apply elem_of_weeksFrom in Hw; [|lia].
    apply weekBoxes_fields in Hb as (Hd & _).
    unfold earlier. rewrite Hd. simpl.
    apply anchor_after_birthday; [exact Hne|lia].
  - destruct (0 <? yr - startYear weeksConfig); repeat constructor.
  - apply weekBoxes_sorted. unfold weeksFrom. apply range_sorted.
Qed.

(** *** The whole walk *)

Lemma walk_strictly_increasing :
  StronglySorted earlier
    (allBoxes (walk weeksConfig mergedEvents isCompactMode)).
Proof.
  rewrite walk_allBoxes.
  apply (StronglySorted_flat_map earlier _ Z.lt).
  - unfold yearsOf. apply range_sorted.
  - intros yr _. apply yearBoxes_sorted.
  - intros y1 y2 a b Hy1 Hy2 Hlt Ha Hb.
    apply elem_of_yearsOf in Hy1, Hy2.
    apply yearBoxes_bounds in Ha as (Ha & _), Hb as (_ & Hb).
    pose proof (anniversary_mono (y1 + 1) y2).
    unfold earlier. lia.
Qed.

(** The boxes of age-year [yr] in the walk are the boxes its iteration
    pushed. *)
Lemma filter_other_years (P : GridBox -> Prop) `{forall b, Decision (P b)}
    yr years :
  (forall b, P b -> year b = yr) ->
  yr ∉ years ->
  filter P (flat_map yboxes years) = [].
Proof.
  intros HP Hnot. apply filter_none. intros b Hb Hpb.
  apply list_elem_of_In, in_flat_map in Hb as (y & Hy & Hb).
  apply list_elem_of_In in Hy, Hb.
  apply yearBoxes_year in Hb. apply HP in Hpb. congruence.
Qed.

Lemma filter_year (P : GridBox -> Prop) `{forall b, Decision (P b)}
    yr years :
  (forall b, P b -> year b = yr) ->
  StronglySorted Z.lt years ->
  yr ∈ years ->
  filter P (flat_map yboxes years) = filter P (yboxes yr).
Proof.
  intros HP. induction 1 as [|y years Hs IH Hy]; intros Hin.
  - inversion Hin.
  - simpl. rewrite filter_app.
    destruct (Z.eq_dec y yr) as [->|Hne].
    + rewrite (filter_other_years P yr years HP), app_nil_r; [reflexivity|].
      intros Hin'. rewrite Forall_forall in Hy.
      specialize (Hy yr Hin'). lia.
    + rewrite IH by (apply elem_of_cons in Hin as [E|Hin]; congruence).
      rewrite (filter_none P (yboxes y)); [reflexivity|].
      intros b Hb Hpb. apply yearBoxes_year in Hb. apply HP in Hpb.
      congruence.
Qed.

Lemma weekTypeBoxesOf_walk yr :
  startYear weeksConfig <= yr <= endYear weeksConfig ->
  weekTypeBoxesOf yr (allBoxes (walk weeksConfig mergedEvents isCompactMode))
  = flat_map (wboxes yr) (weeksFrom (startWeekOf weeksConfig yr)).
Proof.
  intros Hyr. rewrite walk_allBoxes. unfold weekTypeBoxesOf.
  rewrite (filter_year _ yr).
  - unfold yearBoxes. rewrite filter_app.
    rewrite filter_none, filter_all; [reflexivity| |].
    + intros b Hb. apply list_elem_of_In, in_flat_map in Hb as (w & _ & Hb).
      apply list_elem_of_In, weekBoxes_fields in Hb. tauto.
    + intros b Hb [_ Hty].
      destruct (0 <? yr - startYear weeksConfig); [|inversion Hb].
      apply list_elem_of_singleton in Hb. subst b. apply Hty. reflexivity.
  - tauto.
  - unfold yearsOf. apply range_sorted.
  - apply elem_of_yearsOf, Hyr.
Qed.


(** Where no week is skipped, the iteration of a year pushes one box for
    each week index from its start week to 52. *)
Lemma weekBoxes_count yr :
  (yr = startYear weeksConfig ->
   startYear weeksConfig = getFullYear (startDate weeksConfig)) ->
  length (flat_map (wboxes yr) (weeksFrom (startWeekOf weeksConfig yr)))
  = Z.to_nat (53 - startWeekOf weeksConfig yr).
Proof.
  intros Hbirth. rewrite <- length_weeksFrom.
  apply (flat_map_singletons_length _
           (fun w => boxForWeek mergedEvents isCompactMode (anchor yr w)
                       (anniv (yr + 1)) yr)).
  intros w Hw. apply weekBoxes_not_skipped.
  apply anchor_before_next_birthday; [exact Hbirth|].
  apply elem_of_weeksFrom in Hw; [lia|].
  destruct (startWeekOf_cases yr) as [[_ ->]|[_ ->]]; lia.
Qed.

End WalkFacts.

(** C10.  For every birth date, the iteration of the birth year (age 0)
    pushes exactly 53 week-type boxes: for every week index from 0 to 52 the
    anchor, the Sunday of the week of the birth date plus 7 days per index,
    lies strictly before the first anniversary, so the skip at the next
    birthday never fires and the index pushes one box.  The start year of
    the configuration is the year of the birth date. *)
Theorem birth_year_has_53_weeks (weeksConfig : WeeksConfig)
    (mergedEvents : gmap Z (list MergedEvent)) (isCompactMode : bool) :
  startYear weeksConfig = getFullYear (startDate weeksConfig) ->
  startYear weeksConfig <= endYear weeksConfig ->
  let birthYear := startYear weeksConfig in
  (forall week, 0 <= week <= 52 ->
     weekDateOf weeksConfig birthYear week
     = getWeekStartSunday (dayNumber (startDate weeksConfig)) + 7 * week
     /\ weekDateOf weeksConfig birthYear week
        < anniversary weeksConfig (birthYear + 1)
     /\ length (weekBoxes weeksConfig mergedEvents isCompactMode
                  birthYear week) = 1%nat)
  /\ length
       (weekTypeBoxesOf birthYear
          (allBoxes (walk weeksConfig mergedEvents isCompactMode)))
     = 53%nat.
Proof.
  intros Hyear Hend birthYear. split.
  - intros week Hweek.
    assert (Hlt : weekDateOf weeksConfig birthYear week
                  < anniversary weeksConfig (birthYear + 1))
      by (apply anchor_before_next_birthday; [auto|lia]).
    split; [|split].
    + rewrite anchor_birth_year by reflexivity. lia.
    + exact Hlt.
    + rewrite (weekBoxes_not_skipped _ mergedEvents isCompactMode _ _ Hlt).
      reflexivity.
  - rewrite weekTypeBoxesOf_walk by (unfold birthYear; lia).
    rewrite weekBoxes_count by auto.
    destruct (startWeekOf_cases weeksConfig birthYear) as [[_ ->]|[Hne _]];
      [reflexivity|contradiction].
Qed.





(** * The claims on the walk, at the example *)

Lemma birth_year_has_53_weeks_witness :
  length
    (weekTypeBoxesOf (startYear exampleConfig)
       (allBoxes (walk exampleConfig jobEvents false)))
  = 53%nat.
Proof.
  refine (proj2 (birth_year_has_53_weeks exampleConfig jobEvents false
                   eq_refl _)).
  apply Z.leb_le. reflexivity.
Defined.


(** * The scan of a week and the box it yields *)

Section ScanFacts.

Variable weeksConfig : WeeksConfig.
Variable mergedEvents : gmap Z (list MergedEvent).
Variable isCompactMode : bool.

Abbreviation scan := (scanDays mergedEvents).

(** What the scan returns is the first day, before the next birthday, with
    a non-empty event list. *)
Lemma scanDays_Some days weekDate nextBirthday dayDate eventsForDay :
  scan days weekDate nextBirthday = Some (dayDate, eventsForDay) ->
  exists before day after,
    days = before ++ day :: after
    /\ dayDate = weekDate + day
    /\ dayDate < nextBirthday
    /\ mergedEvents !! dayDate = Some eventsForDay
    /\ eventsForDay <> []
    /\ Forall (fun d => eventsAt mergedEvents (weekDate + d) = []) before.
Proof.
  induction days as [|day days IH]; simpl; [discriminate|].
  destruct (Z.leb_spec nextBirthday (weekDate + day)) as [Hle|Hlt];
    [discriminate|].
  destruct (mergedEvents !! (weekDate + day)) as [[|e es]|] eqn:E.
  - intros H. apply IH in H as (before & d & after & -> & H & Hrest).
    exists (day :: before), d, after. repeat split; try tauto.
    constructor; [|tauto]. unfold eventsAt. rewrite E. reflexivity.
  - intros [= <- <-]. exists [], day, days.
    repeat split; try assumption; try reflexivity; [discriminate|constructor].
  - intros H. apply IH in H as (before & d & after & -> & H & Hrest).
    exists (day :: before), d, after. repeat split; try tauto.
    constructor; [|tauto]. unfold eventsAt. rewrite E. reflexivity.
Qed.

Lemma scanDays_week weekDate nextBirthday dayDate eventsForDay :
  scan weekDays weekDate nextBirthday = Some (dayDate, eventsForDay) ->
  weekDate <= dayDate <= weekDate + 6
  /\ dayDate < nextBirthday
  /\ mergedEvents !! dayDate = Some eventsForDay
  /\ eventsForDay <> []
  /\ (eventsAt mergedEvents weekDate = [] -> weekDate < dayDate).
Proof.
  intros H.
  apply scanDays_Some in H
    as (before & day & after & Hdays & -> & Hlt & Hev & Hne & Hbefore).
  assert (Hin : In day weekDays)
    by (rewrite Hdays; apply in_or_app; right; left; reflexivity).
  assert (Hday : 0 <= day <= 6) by (simpl in Hin; lia).
  repeat split; try assumption; try lia.
  intros Hempty.
  destruct (Z.eq_dec day 0) as [->|Hd]; [|lia].
  unfold eventsAt in Hempty. rewrite Z.add_0_r in Hev.
  rewrite Hev in Hempty. simpl in Hempty. contradiction.
Qed.

(** The scan of a week that is not skipped misses nothing at the anchor:
    when it finds no day, the anchor has no events. *)
Lemma scanDays_None_anchor weekDate nextBirthday :
  weekDate < nextBirthday ->
  scan weekDays weekDate nextBirthday = None ->
  eventsAt mergedEvents weekDate = [].
Proof.
  intros Hlt. unfold weekDays. simpl. rewrite Z.add_0_r.
  destruct (Z.leb_spec nextBirthday weekDate) as [Hle|_]; [lia|].
  unfold eventsAt.
  destruct (mergedEvents !! weekDate) as [[|e es]|]; simpl;
    [reflexivity|discriminate|reflexivity].
Qed.

Lemma eventsForWeekOf_found weekDate nextBirthday first others :
  weekDate < nextBirthday ->
  eventsForWeekOf mergedEvents weekDate nextBirthday
    = Some (first :: others) ->
  exists dayDate,
    scan weekDays weekDate nextBirthday = Some (dayDate, first :: others).
Proof.
  intros Hlt. unfold eventsForWeekOf.
  destruct (scan weekDays weekDate nextBirthday) as [[d evs]|] eqn:E.
  - intros [= ->]. eauto.
  - intros H. apply scanDays_None_anchor in E; [|exact Hlt].
    unfold eventsAt in E. rewrite H in E. discriminate.
Qed.

(** Whatever the scan finds, the box of the week is dated at the anchor. *)
Lemma boxForWeek_date weekDate nextBirthday yr :
  date (boxForWeek mergedEvents isCompactMode weekDate nextBirthday yr)
  = weekDate.
Proof. apply boxForWeek_fields. Qed.

Lemma weekStep_not_skipped yr st week :
  weekDateOf weeksConfig yr week < anniversary weeksConfig (yr + 1) ->
  weekStep weeksConfig mergedEvents isCompactMode yr st week
  = mkWalkState
      (allBoxes st
       ++ [boxForWeek mergedEvents isCompactMode (weekDateOf weeksConfig yr week)
             (anniversary weeksConfig (yr + 1)) yr])
      (milestoneWeeksAfterScan mergedEvents (weekDateOf weeksConfig yr week)
         (anniversary weeksConfig (yr + 1)) (milestoneWeeks st)).
Proof.
  intros H. unfold weekStep.
  destruct (Z.leb_spec (anniversary weeksConfig (yr + 1))
              (weekDateOf weeksConfig yr week)); [lia|reflexivity].
Qed.

End ScanFacts.

(** C3, as stated, fails: in the example the week of Sunday 2000-05-28 has
    no event at its anchor and the scan finds the milestone of Thursday
    2000-06-01, yet the event box is dated at the anchor. *)
Lemma found_day_not_carried :
  ~ eventBoxCarriesFoundDay exampleConfig jobEvents false.
Proof.
  intros H.
  specialize (H 2000 20 (mkDate 2000 5 1) [jobEvent]).
  destruct H as [H _]; try reflexivity.
  vm_compute in H. discriminate.
Qed.

(** C3, amended.  For every week that is not skipped, whose Sunday anchor
    has no events and whose scan finds a later day with a non-empty event
    list, the found day is one of the six days after the anchor and before
    the next anniversary, and it only becomes the [actualEventDate] of the
    tooltip: the box that the week pushes carries the anchor date, not the
    day's, and when the day bears a milestone-flagged personal event it is
    the anchor date, the value the box carries, that the walk adds to the
    milestone set. *)
Theorem event_box_carries_anchor (weeksConfig : WeeksConfig)
    (mergedEvents : gmap Z (list MergedEvent)) (isCompactMode : bool)
    (yr week dayDate : Z) (eventsForDay : list MergedEvent)
    (st : WalkState) :
  let weekDate := weekDateOf weeksConfig yr week in
  let nextBirthday := anniversary weeksConfig (yr + 1) in
  let box := boxForWeek mergedEvents isCompactMode weekDate nextBirthday yr in
  let st' := weekStep weeksConfig mergedEvents isCompactMode yr st week in
  weekDate < nextBirthday ->
  eventsAt mergedEvents weekDate = [] ->
  scanDays mergedEvents weekDays weekDate nextBirthday
    = Some (dayDate, eventsForDay) ->
  (weekDate < dayDate <= weekDate + 6 /\ dayDate < nextBirthday)
  /\ actualEventDateOf mergedEvents weekDate nextBirthday = dayDate
  /\ allBoxes st' = allBoxes st ++ [box]
  /\ date box = weekDate
  /\ date box <> dayDate
  /\ (existsb isMilestone eventsForDay = true ->
      milestoneWeeks st' = {[weekDate]} ∪ milestoneWeeks st).
Proof.
  intros weekDate nextBirthday box st' Hlt Hempty Hscan.
  pose proof (scanDays_week mergedEvents _ _ _ _ Hscan)
    as (Hrange & Hbefore & _ & _ & Hlater).
  specialize (Hlater Hempty).
  assert (Hdate : date box = weekDate) by apply boxForWeek_date.
  unfold st'. rewrite weekStep_not_skipped by exact Hlt. simpl.
  repeat split; try lia; try reflexivity.
  - unfold actualEventDateOf. fold weekDate nextBirthday.
    rewrite Hscan. reflexivity.
  - intros Hm. unfold milestoneWeeksAfterScan. fold weekDate nextBirthday.
    rewrite Hscan, Hm. reflexivity.
Qed.

Lemma event_box_carries_anchor_witness :
  date (boxForWeek jobEvents false (weekDateOf exampleConfig 2000 20)
          (anniversary exampleConfig 2001) 2000)
  = mkDate 2000 4 28.
Proof.
  pose proof (event_box_carries_anchor exampleConfig jobEvents false 2000 20
                (mkDate 2000 5 1) [jobEvent] (mkWalkState [] ∅)
                eq_refl eq_refl eq_refl) as H.
  exact (proj1 (proj2 (proj2 (proj2 H)))).
Defined.

(** * Emoji detection *)

Lemma regional_is_emoji c :
  isRegionalIndicator c = true -> emojiAfterFlag c = true.
Proof.
  unfold isRegionalIndicator, emojiAfterFlag, inRange.
  intros H. apply andb_true_iff in H as [H1 H2].
  apply N.leb_le in H1, H2.
  assert (H3 : (0x1F018 <=? c)%N = true) by (apply N.leb_le; lia).
  assert (H4 : (c <=? 0x1F270)%N = true) by (apply N.leb_le; lia).
  rewrite H3, H4. simpl. rewrite !orb_true_r. reflexivity.
Qed.

(** The alternation matches at a position exactly when the code point
    there is matched by one of the single-character alternatives. *)
Lemma emojiAt_None c rest :
  emojiAt (c :: rest) = None <-> isEmoji c = false.
Proof.
  unfold emojiAt, isEmoji.
  destruct (emojiBeforeFlag c); simpl; [split; discriminate|].
  destruct (emojiAfterFlag c) eqn:Ea.
  - destruct rest as [|c' rest]; [split; discriminate|].
    destruct (isRegionalIndicator c && isRegionalIndicator c');
      split; discriminate.
  - destruct rest as [|c' rest]; [tauto|].
    destruct (isRegionalIndicator c) eqn:Er.
    + apply regional_is_emoji in Er. congruence.
    + simpl. tauto.
Qed.

Lemma matchEmoji_None text :
  matchEmoji text = None <-> existsb isEmoji text = false.
Proof.
  induction text as [|c rest IH]; [simpl; tauto|].
  change (matchEmoji (c :: rest))
    with (match emojiAt (c :: rest) with
          | Some m => Some (m, rest)
          | None => matchEmoji rest
          end).
  cbn [existsb].
  destruct (emojiAt (c :: rest)) as [m|] eqn:E.
  - destruct (isEmoji c) eqn:Ec; [split; discriminate|].
    apply <- (emojiAt_None c rest) in Ec. congruence.
  - apply emojiAt_None in E. rewrite E. exact IH.
Qed.

Lemma extractFirstEmoji_None text :
  extractFirstEmoji text = None <-> existsb isEmoji text = false.
Proof.
  rewrite <- matchEmoji_None. unfold extractFirstEmoji.
  destruct (matchEmoji text) as [[m rest]|]; [|tauto].
  split; [|discriminate].
  destruct (js_length m =? 1); [|discriminate].
  destruct rest as [|next rest]; [discriminate|].
  destruct (isRegionalIndicator (firstUnit next)); discriminate.
Qed.

(** An event shows in compact mode exactly when its headline contains an
    emoji, at any position. *)
Lemma shouldShowInCompact_spec headline :
  shouldShowInCompact headline = existsb isEmoji headline.
Proof.
  unfold shouldShowInCompact.
  destruct (existsb isEmoji headline) eqn:E.
  - apply bool_decide_eq_true. intros H.
    apply extractFirstEmoji_None in H. congruence.
  - apply bool_decide_eq_false. intros H. apply H.
    apply extractFirstEmoji_None, E.
Qed.

Lemma hasLeadingEmoji_spec headline :
  hasLeadingEmoji headline
  = match headline with c :: _ => isEmoji c | [] => false end.
Proof.
  unfold hasLeadingEmoji. destruct headline as [|c rest]; [reflexivity|].
  destruct (emojiAt (c :: rest)) eqn:E.
  - destruct (isEmoji c) eqn:Ec; [reflexivity|].
    apply <- (emojiAt_None c rest) in Ec. congruence.
  - apply emojiAt_None in E. rewrite E. reflexivity.
Qed.

(** * The milestone weeks recorded by the walk *)

Section RecordFacts.

Variable weeksConfig : WeeksConfig.
Variable mergedEvents : gmap Z (list MergedEvent).
Variable isCompactMode : bool.

Abbreviation wstep' := (weekStep weeksConfig mergedEvents isCompactMode).
Abbreviation ystep' := (yearStep weeksConfig mergedEvents isCompactMode).

Lemma milestoneWeeksAfterScan_mono weekDate nextBirthday ms :
  ms ⊆ milestoneWeeksAfterScan mergedEvents weekDate nextBirthday ms.
Proof.
  unfold milestoneWeeksAfterScan.
  destruct (scanDays _ _ _ _) as [[d evs]|]; [|reflexivity].
  destruct (existsb isMilestone evs); [|reflexivity].
  apply union_subseteq_r.
Qed.

Lemma weekStep_milestone_mono yr st week :
  milestoneWeeks st ⊆ milestoneWeeks (wstep' yr st week).
Proof.
  unfold weekStep. destruct (_ <=? _); simpl; [reflexivity|].
  apply milestoneWeeksAfterScan_mono.
Qed.

Lemma fold_weekStep_milestone_mono yr weeks st :
  milestoneWeeks st ⊆ milestoneWeeks (fold_left (wstep' yr) weeks st).
Proof.
  revert st. induction weeks as [|w weeks IH]; intros st; simpl.
  - reflexivity.
  - etransitivity; [apply weekStep_milestone_mono|apply IH].
Qed.

Lemma yearStep_milestone_mono st yr :
  milestoneWeeks st ⊆ milestoneWeeks (ystep' st yr).
Proof.
  unfold yearStep.
  etransitivity; [|apply fold_weekStep_milestone_mono].
  destruct (0 <? yr - startYear weeksConfig); reflexivity.
Qed.

Lemma fold_yearStep_milestone_mono years st :
  milestoneWeeks st ⊆ milestoneWeeks (fold_left ystep' years st).
Proof.
  revert st. induction years as [|y years IH]; intros st; simpl.
  - reflexivity.
  - etransitivity; [apply yearStep_milestone_mono|apply IH].
Qed.

(** A week whose scan finds a day with a milestone leaves its anchor in
    the set. *)
Lemma weekStep_records yr st week dayDate eventsForDay :
  weekDateOf weeksConfig yr week < anniversary weeksConfig (yr + 1) ->
  scanDays mergedEvents weekDays (weekDateOf weeksConfig yr week)
    (anniversary weeksConfig (yr + 1)) = Some (dayDate, eventsForDay) ->
  existsb isMilestone eventsForDay = true ->
  weekDateOf weeksConfig yr week ∈ milestoneWeeks (wstep' yr st week).
Proof.
  intros Hlt Hscan Hm. rewrite weekStep_not_skipped by exact Hlt.
  cbn [milestoneWeeks]. unfold milestoneWeeksAfterScan. rewrite Hscan, Hm.
  apply elem_of_union. left. apply elem_of_singleton. reflexivity.
Qed.

Lemma walk_records yr week dayDate eventsForDay :
  startYear weeksConfig <= yr <= endYear weeksConfig ->
  startWeekOf weeksConfig yr <= week <= 52 ->
  weekDateOf weeksConfig yr week < anniversary weeksConfig (yr + 1) ->
  scanDays mergedEvents weekDays (weekDateOf weeksConfig yr week)
    (anniversary weeksConfig (yr + 1)) = Some (dayDate, eventsForDay) ->
  existsb isMilestone eventsForDay = true ->
  weekDateOf weeksConfig yr week
    ∈ milestoneWeeks (walk weeksConfig mergedEvents isCompactMode).
Proof.
  intros Hyr Hweek Hlt Hscan Hm.
  apply elem_of_yearsOf, list_elem_of_split in Hyr as (ys1 & ys2 & Hys).
  assert (Hs : startWeekOf weeksConfig yr <= 53)
    by (destruct (startWeekOf_cases weeksConfig yr) as [[_ ->]|[_ ->]]; lia).
  apply elem_of_weeksFrom, list_elem_of_split in Hweek as (ws1 & ws2 & Hws);
    [|exact Hs].
  unfold walk. rewrite Hys, fold_left_app. simpl.
  apply fold_yearStep_milestone_mono.
  unfold yearStep at 1. rewrite Hws, fold_left_app. simpl.
  apply fold_weekStep_milestone_mono.
  eapply weekStep_records; eassumption.
Qed.

(** The box of a week that is not skipped is a box of the walk. *)
Lemma walk_has_week_box yr week :
  startYear weeksConfig <= yr <= endYear weeksConfig ->
  startWeekOf weeksConfig yr <= week <= 52 ->
  weekDateOf weeksConfig yr week < anniversary weeksConfig (yr + 1) ->
  boxForWeek mergedEvents isCompactMode (weekDateOf weeksConfig yr week)
    (anniversary weeksConfig (yr + 1)) yr
    ∈ allBoxes (walk weeksConfig mergedEvents isCompactMode).
Proof.
  intros Hyr Hweek Hlt. rewrite walk_allBoxes.
  apply list_elem_of_In, in_flat_map. exists yr.
  rewrite <- !list_elem_of_In. split; [apply elem_of_yearsOf, Hyr|].
  apply elem_of_yearBoxes. right. exists week. split; [exact Hweek|].
  rewrite weekBoxes_not_skipped by exact Hlt. left.
Qed.

End RecordFacts.

(** * Properties of the colour pass *)

Lemma applyOverrides_last events current :
  applyOverrides events current
  = match last (overridesOf events) with
    | Some c => Some c
    | None => current
    end.
Proof.
  revert current. induction events as [|e events IH]; intros current.
  - reflexivity.
  - unfold applyOverrides in *. simpl. rewrite IH. unfold overridesOf. simpl.
    destruct (isMilestone e); [|reflexivity].
    destruct (colorOverride e) as [c|]; [|reflexivity].
    rewrite last_cons.
    destruct (last (omap _ events)); reflexivity.
Qed.

Lemma applyOverrides_none events current :
  overridesOf events = [] -> applyOverrides events current = current.
Proof. intros H. rewrite applyOverrides_last, H. reflexivity. Qed.

Lemma eventsAt_lookup (mergedEvents : gmap Z (list MergedEvent)) d current :
  match mergedEvents !! d with
  | Some eventsForBox => applyOverrides eventsForBox current
  | None => current
  end
  = applyOverrides (eventsAt mergedEvents d) current.
Proof. unfold eventsAt. destruct (mergedEvents !! d); reflexivity. Qed.

Section ColorFacts.

Variable mergedEvents : gmap Z (list MergedEvent).
Variable milestoneColors : list string.
Variable allMilestoneWeeks : gset Z.

Abbreviation cstep := (colorStep mergedEvents milestoneColors allMilestoneWeeks).

(** The color that the milestone rule leaves, before the overrides. *)
Lemma colorStep_unfold st box :
  cstep st box
  = let index :=
      if decide (date box ∈ allMilestoneWeeks)
      then S (colorIndex st) else colorIndex st in
    let current :=
      applyOverrides (eventsAt mergedEvents (date box))
        (if decide (date box ∈ allMilestoneWeeks) then
           if (S (colorIndex st) <? length milestoneColors)%nat
           then milestoneColors !! S (colorIndex st)
           else currentBoxColor st
         else currentBoxColor st) in
    mkColorState index current (<[date box := current]> (boxColorMap st)).
Proof.
  unfold colorStep. rewrite <- eventsAt_lookup.
  destruct (decide (date box ∈ allMilestoneWeeks)); reflexivity.
Qed.

Lemma colorStep_index st box :
  colorIndex (cstep st box)
  = if decide (date box ∈ allMilestoneWeeks)
    then S (colorIndex st) else colorIndex st.
Proof. rewrite colorStep_unfold. reflexivity. Qed.

Lemma colorStep_map st box :
  boxColorMap (cstep st box) !! date box
  = Some (currentBoxColor (cstep st box)).
Proof. rewrite colorStep_unfold. simpl. apply lookup_insert_eq. Qed.

Lemma colorStep_map_other st box d :
  d <> date box ->
  boxColorMap (cstep st box) !! d = boxColorMap st !! d.
Proof.
  intros H. rewrite colorStep_unfold. simpl.
  apply lookup_insert_ne. congruence.
Qed.

Lemma fold_colorStep_snoc boxes box st :
  fold_left cstep (boxes ++ [box]) st = cstep (fold_left cstep boxes st) box.
Proof. rewrite fold_left_app. reflexivity. Qed.

(** The index counts the boxes walked whose date is a milestone date. *)
Lemma fold_colorStep_index boxes st :
  colorIndex (fold_left cstep boxes st)
  = (colorIndex st
     + length (filter (fun b => date b ∈ allMilestoneWeeks) boxes))%nat.
Proof.
  revert st. induction boxes as [|b boxes IH]; intros st; simpl.
  - lia.
  - rewrite IH, colorStep_index, filter_cons.
    destruct (decide (date b ∈ allMilestoneWeeks)); simpl; lia.
Qed.

Abbreviation onPalette := (followsPalette milestoneColors).

(** Without overrides the color stays the palette entry of the index, the
    last entry once the index has passed the end. *)
Lemma colorStep_onPalette st box :
  overridesOf (eventsAt mergedEvents (date box)) = [] ->
  onPalette st -> onPalette (cstep st box).
Proof.
  unfold followsPalette. intros Hno Hst. rewrite colorStep_unfold. simpl.
  rewrite applyOverrides_none by exact Hno.
  destruct (decide (date box ∈ allMilestoneWeeks)); [|exact Hst].
  destruct (Nat.ltb_spec (S (colorIndex st)) (length milestoneColors)).
  - f_equal. lia.
  - rewrite Hst. f_equal. lia.
Qed.

Lemma fold_colorStep_onPalette boxes st :
  Forall (fun b => overridesOf (eventsAt mergedEvents (date b)) = []) boxes ->
  onPalette st -> onPalette (fold_left cstep boxes st).
Proof.
  revert st. induction boxes as [|b boxes IH]; intros st Hno Hst; simpl.
  - exact Hst.
  - apply Forall_cons in Hno as [Hb Hno].
    apply IH; [exact Hno|]. apply colorStep_onPalette; assumption.
Qed.

Lemma initial_onPalette :
  onPalette (initialColorState milestoneColors).
Proof. unfold followsPalette. simpl. reflexivity. Qed.

(** A run of boxes without milestone date and without override keeps the
    color, and every box of the run is mapped to it. *)
Lemma fold_colorStep_quiet boxes st :
  Forall (fun b => (date b ∉ allMilestoneWeeks)
                   /\ overridesOf (eventsAt mergedEvents (date b)) = [])
    boxes ->
  let st' := fold_left cstep boxes st in
  colorIndex st' = colorIndex st
  /\ currentBoxColor st' = currentBoxColor st
  /\ (forall d, boxColorMap st !! d = Some (currentBoxColor st) ->
                boxColorMap st' !! d = Some (currentBoxColor st))
  /\ (forall b, b ∈ boxes ->
                boxColorMap st' !! date b = Some (currentBoxColor st)).
Proof.
  revert st. induction boxes as [|b boxes IH]; intros st Hq; simpl.
  - repeat split; try tauto. intros b Hb. inversion Hb.
  - apply Forall_cons in Hq as [[Hb Hno] Hq].
    specialize (IH (cstep st b) Hq). simpl in IH.
    assert (Hidx : colorIndex (cstep st b) = colorIndex st).
    { rewrite colorStep_index. destruct (decide _); [contradiction|reflexivity]. }
    assert (Hcol : currentBoxColor (cstep st b) = currentBoxColor st).
    { rewrite colorStep_unfold. simpl. rewrite applyOverrides_none by exact Hno.
      destruct (decide _); [contradiction|reflexivity]. }
    rewrite Hidx, Hcol in IH. destruct IH as (H1 & H2 & H3 & H4).
    repeat split; try assumption.
    + intros d Hd. apply H3.
      destruct (Z.eq_dec d (date b)) as [->|Hne].
      * rewrite colorStep_map, Hcol. reflexivity.
      * rewrite colorStep_map_other by exact Hne. exact Hd.
    + intros b' Hb'. apply elem_of_cons in Hb' as [->|Hb'].
      * apply H3. rewrite colorStep_map, Hcol. reflexivity.
      * apply H4, Hb'.
Qed.

End ColorFacts.

(** *** The milestone set of the second pass *)

Lemma addMilestoneEventDates_spec (mergedEvents : gmap Z (list MergedEvent))
    (ms : gset Z) (d : Z) :
  d ∈ addMilestoneEventDates mergedEvents ms
  <-> d ∈ ms \/ existsb isMilestone (eventsAt mergedEvents d) = true.
Proof.
  unfold addMilestoneEventDates.
  assert (Hl : forall l : list (Z * list MergedEvent),
    d ∈ foldr (fun entry acc =>
                 if existsb isMilestone entry.2 then {[entry.1]} ∪ acc
                 else acc) ms l
    <-> d ∈ ms \/ exists evs, (d, evs) ∈ l /\ existsb isMilestone evs = true).
  { induction l as [|[k evs] l IH]; simpl.
    - split; [tauto|]. intros [H|(evs & H & _)]; [exact H|inversion H].
    - destruct (existsb isMilestone evs) eqn:E.
      + rewrite elem_of_union, elem_of_singleton, IH. split.
        * intros [->|[H|(evs' & H & Hm)]]; [right|tauto|right].
          -- exists evs. split; [left|exact E].
          -- exists evs'. split; [right; exact H|exact Hm].
        * intros [H|(evs' & H & Hm)]; [tauto|].
          apply elem_of_cons in H as [[= -> ->]|H]; [tauto|].
          right. right. eauto.
      + rewrite IH. split.
        * intros [H|(evs' & H & Hm)]; [tauto|right].
          exists evs'. split; [right; exact H|exact Hm].
        * intros [H|(evs' & H & Hm)]; [tauto|].
          apply elem_of_cons in H as [[= -> ->]|H]; [congruence|].
          right. eauto. }
  rewrite Hl. unfold eventsAt. split.
  - intros [H|(evs & H & Hm)]; [tauto|right].
    apply elem_of_map_to_list in H. rewrite H. exact Hm.
  - intros [H|H]; [tauto|right].
    destruct (mergedEvents !! d) as [evs|] eqn:E; [|discriminate].
    exists evs. split; [|exact H]. apply elem_of_map_to_list, E.
Qed.

Lemma addMilestoneBoxDates_spec (mergedEvents : gmap Z (list MergedEvent))
    (boxes : list GridBox) (ms : gset Z) (d : Z) :
  d ∈ addMilestoneBoxDates mergedEvents boxes ms
  <-> d ∈ ms
      \/ exists box, box ∈ boxes /\ type box = Event /\ date box = d
                     /\ existsb isMilestone (eventsAt mergedEvents d) = true.
Proof.
  unfold addMilestoneBoxDates. revert ms.
  induction boxes as [|b boxes IH]; intros ms; simpl.
  - split; [tauto|]. intros [H|(box & H & _)]; [exact H|inversion H].
  - rewrite IH. clear IH. unfold eventsAt. split.
    + intros [H|(box & Hin & Hrest)].
      * destruct (type b) eqn:Et; try tauto.
        destruct (mergedEvents !! date b) as [evs|] eqn:E; [|tauto].
        destruct (existsb isMilestone evs) eqn:Em; [|tauto].
        apply elem_of_union in H as [H|H]; [|tauto].
        apply elem_of_singleton in H. subst d. right. exists b.
        rewrite E. repeat split; try assumption. left.
      * right. exists box. split; [right; exact Hin|exact Hrest].
    + intros [H|(box & Hin & Ht & Hd & Hm)].
      * left. destruct (type b); try exact H.
        destruct (mergedEvents !! date b) as [evs|]; [|exact H].
        destruct (existsb isMilestone evs); [|exact H].
        apply elem_of_union. right. exact H.
      * apply elem_of_cons in Hin as [->|Hin].
        -- left. rewrite Ht. subst d.
           destruct (mergedEvents !! date b) as [evs|]; [|discriminate].
           simpl in Hm. rewrite Hm. apply elem_of_union. left.
           apply elem_of_singleton. reflexivity.
        -- right. exists box. tauto.
Qed.

(** The set that the second pass reads: the weeks recorded by the walk and
    the dates of the milestone events themselves. *)
Lemma completeMilestoneWeeks_spec (mergedEvents : gmap Z (list MergedEvent))
    (st : WalkState) (d : Z) :
  d ∈ completeMilestoneWeeks mergedEvents st
  <-> d ∈ milestoneWeeks st
      \/ existsb isMilestone (eventsAt mergedEvents d) = true.
Proof.
  unfold completeMilestoneWeeks.
  rewrite addMilestoneBoxDates_spec, addMilestoneEventDates_spec.
  split; [|tauto]. intros [H|(box & _ & _ & _ & H)]; tauto.
Qed.

(** * Compact-mode suppression *)

(** C8, as stated, fails: in compact mode the headline "Go" followed by a
    rocket has no leading emoji, and the week still gets an event box. *)
Lemma leading_emoji_not_required :
  ~ suppressedWithoutLeadingEmoji exampleConfig launchEvents.
Proof.
  intros H.
  specialize (H 2000 20 launchEvent [] eq_refl eq_refl eq_refl).
  vm_compute in H. discriminate.
Qed.

(** C8, amended.  When compact mode is on and the headline of the week's
    primary event contains no emoji glyph at any position, the walk pushes
    an empty week box instead of an event box; when the day used bears a
    milestone-flagged personal event the milestone set has by then received
    the week's anchor date, that date is in the set that the colour pass
    reads, and the colour pass advances its index at the box. *)
Theorem compact_suppression_keeps_milestone (weeksConfig : WeeksConfig)
    (mergedEvents : gmap Z (list MergedEvent)) (yr week : Z)
    (first : MergedEvent) (others : list MergedEvent) (st : WalkState) :
  let weekDate := weekDateOf weeksConfig yr week in
  let nextBirthday := anniversary weeksConfig (yr + 1) in
  let st' := weekStep weeksConfig mergedEvents true yr st week in
  let final := walk weeksConfig mergedEvents true in
  weekDate < nextBirthday ->
  eventsForWeekOf mergedEvents weekDate nextBirthday
    = Some (first :: others) ->
  existsb isEmoji (headline (primaryEventOf first others)) = false ->
  allBoxes st' = allBoxes st ++ [emptyWeekBox weekDate yr]
  /\ (existsb isMilestone (first :: others) = true ->
      weekDate ∈ milestoneWeeks st'
      /\ (startYear weeksConfig <= yr <= endYear weeksConfig ->
          startWeekOf weeksConfig yr <= week <= 52 ->
          emptyWeekBox weekDate yr ∈ allBoxes final
          /\ weekDate ∈ completeMilestoneWeeks mergedEvents final
          /\ forall milestoneColors cs,
               colorIndex
                 (colorStep mergedEvents milestoneColors
                    (completeMilestoneWeeks mergedEvents final) cs
                    (emptyWeekBox weekDate yr))
               = S (colorIndex cs))).
Proof.
  intros weekDate nextBirthday st' final Hlt Hev Hemoji.
  destruct (eventsForWeekOf_found mergedEvents _ _ _ _ Hlt Hev)
    as (dayDate & Hscan).
  assert (Hbox : boxForWeek mergedEvents true weekDate nextBirthday yr
                 = emptyWeekBox weekDate yr).
  { unfold boxForWeek. rewrite Hev, shouldShowInCompact_spec, Hemoji.
    reflexivity. }
  split.
  - unfold st'. rewrite weekStep_not_skipped by exact Hlt. simpl.
    fold weekDate nextBirthday. rewrite Hbox. reflexivity.
  - intros Hm. split.
    + eapply weekStep_records; eassumption.
    + intros Hyr Hweek.
      assert (Hin : weekDate ∈ completeMilestoneWeeks mergedEvents final).
      { apply completeMilestoneWeeks_spec. left.
        eapply walk_records; eassumption. }
      split; [|split].
      * rewrite <- Hbox. apply walk_has_week_box; assumption.
      * exact Hin.
      * intros milestoneColors cs. rewrite colorStep_index. simpl.
        destruct (decide _); [reflexivity|contradiction].
Qed.

Lemma compact_suppression_keeps_milestone_witness :
  mkDate 2000 4 28
    ∈ completeMilestoneWeeks jobEvents (walk exampleConfig jobEvents true).
Proof.
  pose proof (compact_suppression_keeps_milestone exampleConfig jobEvents
                2000 20 jobEvent [] (mkWalkState [] ∅)
                eq_refl eq_refl eq_refl) as [_ H].
  specialize (H eq_refl) as [_ H].
  apply H; split; apply Z.leb_le; reflexivity.
Defined.

(** * The sort of the colour pass *)

Lemma insertByDate_perm box sorted : insertByDate box sorted ≡ₚ box :: sorted.
Proof.
  induction sorted as [|b rest IH]; simpl; [reflexivity|].
  destruct (date box <? date b); [reflexivity|].
  rewrite IH. apply Permutation_swap.
Qed.

Lemma sortByDate_perm boxes : sortByDate boxes ≡ₚ boxes.
Proof.
  unfold sortByDate.
  assert (H : forall acc,
    fold_left (fun sorted box => insertByDate box sorted) boxes acc
    ≡ₚ acc ++ boxes).
  { induction boxes as [|b boxes IH]; intros acc; simpl.
    - rewrite app_nil_r. reflexivity.
    - rewrite IH, insertByDate_perm. simpl. apply Permutation_middle. }
  apply (H []).
Qed.

Lemma insertByDate_sorted box sorted :
  StronglySorted notLater sorted ->
  StronglySorted notLater (insertByDate box sorted).
Proof.
  induction 1 as [|b rest Hrest IH Hb]; simpl.
  - repeat constructor.
  - destruct (Z.ltb_spec (date box) (date b)) as [Hlt|Hge].
    + constructor; [constructor; assumption|].
      constructor; [unfold notLater; lia|].
      eapply Forall_impl; [exact Hb|].
      intros c Hc. unfold notLater in *. lia.
    + constructor; [exact IH|].
      rewrite insertByDate_perm. constructor; [exact Hge|exact Hb].
Qed.

(** The colour pass walks the boxes in an order of non-decreasing dates. *)
Lemma sortByDate_sorted boxes : StronglySorted notLater (sortByDate boxes).
Proof.
  unfold sortByDate.
  assert (H : forall acc, StronglySorted notLater acc ->
    StronglySorted notLater
      (fold_left (fun sorted box => insertByDate box sorted) boxes acc)).
  { induction boxes as [|b boxes IH]; intros acc Hacc; simpl.
    - exact Hacc.
    - apply IH, insertByDate_sorted, Hacc. }
  apply H. constructor.
Qed.

(** A box dated no earlier than the sorted boxes goes after them: the sort
    is stable. *)
Lemma insertByDate_last box sorted :
  Forall (fun b => notLater b box) sorted ->
  insertByDate box sorted = sorted ++ [box].
Proof.
  induction 1 as [|b rest Hb Hrest IH]; simpl; [reflexivity|].
  destruct (Z.ltb_spec (date box) (date b)) as [Hlt|_].
  - unfold notLater in Hb. lia.
  - rewrite IH. reflexivity.
Qed.

Lemma sortByDate_id boxes :
  StronglySorted notLater boxes -> sortByDate boxes = boxes.
Proof.
  unfold sortByDate. intros H.
  assert (Hacc : forall acc, StronglySorted notLater (acc ++ boxes) ->
    fold_left (fun sorted box => insertByDate box sorted) boxes acc
    = acc ++ boxes).
  { clear H. induction boxes as [|b boxes IH]; intros acc Hs; simpl.
    - rewrite app_nil_r. reflexivity.
    - rewrite insertByDate_last.
      + rewrite IH; rewrite <- app_assoc; [reflexivity|exact Hs].
      + apply Forall_forall. intros a Ha.
        apply (StronglySorted_app_1_elem_of notLater acc (b :: boxes));
          [exact Hs|exact Ha|left]. }
  apply (Hacc []). exact H.
Qed.

(** The boxes of the walk are already in the order of the colour pass. *)
Lemma sortByDate_walk weeksConfig mergedEvents isCompactMode :
  sortByDate (allBoxes (walk weeksConfig mergedEvents isCompactMode))
  = allBoxes (walk weeksConfig mergedEvents isCompactMode).
Proof.
  apply sortByDate_id.
  pose proof (walk_strictly_increasing weeksConfig mergedEvents isCompactMode)
    as H.
  induction H as [|b l Hl IH Hb]; constructor; [exact IH|].
  eapply Forall_impl; [exact Hb|].
  intros c Hc. unfold earlier in Hc. unfold notLater. lia.
Qed.

(** * The colour walk *)

Lemma colorWalk_index mergedEvents milestoneColors ms boxes :
  colorIndex (colorWalk mergedEvents milestoneColors ms boxes)
  = length (filter (fun b => date b ∈ ms) boxes).
Proof. unfold colorWalk. rewrite fold_colorStep_index. reflexivity. Qed.

Lemma colorWalk_snoc mergedEvents milestoneColors ms boxes box :
  colorWalk mergedEvents milestoneColors ms (boxes ++ [box])
  = colorStep mergedEvents milestoneColors ms
      (colorWalk mergedEvents milestoneColors ms boxes) box.
Proof. unfold colorWalk. apply fold_colorStep_snoc. Qed.

(** X19. The colour walk starts at index 0 with the first palette
    entry.  At every position of the date-sorted sequence the index advances by
    one exactly when the date of the box is in the milestone set, so the
    index never decreases and counts the milestone boxes walked so far; a
    box whose date the walk recorded, or which bears a milestone-flagged
    personal event, has its advance at its own position.  Absent
    overrides, the color in effect is the palette entry of the index while
    the index is within the palette, and stays the last entry once the
    index has passed the end (no wraparound, no failure); the box's date
    is mapped to the color in effect. *)
Theorem color_walk_follows_milestones
    (mergedEvents : gmap Z (list MergedEvent)) (milestoneColors : list string)
    (st : WalkState) (pre post : list GridBox) (box : GridBox) :
  sortByDate (allBoxes st) = pre ++ box :: post ->
  let ms := completeMilestoneWeeks mergedEvents st in
  let start := initialColorState milestoneColors in
  let before := colorWalk mergedEvents milestoneColors ms pre in
  let after := colorWalk mergedEvents milestoneColors ms (pre ++ [box]) in
  (colorIndex start = 0%nat /\ currentBoxColor start = head milestoneColors)
  /\ colorIndex after
     = (if decide (date box ∈ ms) then S (colorIndex before)
        else colorIndex before)
  /\ (forall k, colorIndex (colorWalk mergedEvents milestoneColors ms
                             (take k pre)) <= colorIndex before)%nat
  /\ (colorIndex before <= colorIndex after)%nat
  /\ colorIndex after
     = length (filter (fun b => date b ∈ ms) (pre ++ [box]))
  /\ (date box ∈ milestoneWeeks st
      \/ existsb isMilestone (eventsAt mergedEvents (date box)) = true ->
      colorIndex after = S (colorIndex before))
  /\ (Forall (fun b => overridesOf (eventsAt mergedEvents (date b)) = [])
        (pre ++ [box]) ->
      currentBoxColor after
      = milestoneColors
          !! Nat.min (colorIndex after) (length milestoneColors - 1)
      /\ (colorIndex after < length milestoneColors ->
          currentBoxColor after = milestoneColors !! colorIndex after)%nat
      /\ (length milestoneColors <= colorIndex after ->
          currentBoxColor after = last milestoneColors)%nat)
  /\ boxColorMap after !! date box = Some (currentBoxColor after).
Proof.
  intros _ ms start before after.
  assert (Hstep : colorIndex after
                  = if decide (date box ∈ ms) then S (colorIndex before)
                    else colorIndex before).
  { unfold after, before. rewrite colorWalk_snoc. apply colorStep_index. }
  split; [split; [reflexivity|]|].
  { simpl. symmetry. apply head_lookup. }
  split; [exact Hstep|]. split; [|split; [|split; [|split; [|split]]]].
  - intros k. unfold before. rewrite !colorWalk_index.
    rewrite <- (take_drop k pre) at 2. rewrite filter_app, length_app. lia.
  - rewrite Hstep. destruct (decide _); lia.
  - apply colorWalk_index.
  - intros H. rewrite Hstep.
    destruct (decide _) as [_|Hnot]; [reflexivity|].
    exfalso. apply Hnot. apply completeMilestoneWeeks_spec. exact H.
  - intros Hno.
    assert (Hp : followsPalette milestoneColors after).
    { unfold after, colorWalk. apply fold_colorStep_onPalette;
        [exact Hno|apply initial_onPalette]. }
    unfold followsPalette in Hp. split; [exact Hp|]. split.
    + intros Hlt. rewrite Hp. f_equal. lia.
    + intros Hge. rewrite Hp, last_lookup. f_equal. lia.
  - unfold after. rewrite colorWalk_snoc. apply colorStep_map.
Qed.

Lemma color_walk_follows_milestones_witness :
  let st := walk exampleConfig jobEvents false in
  let ms := completeMilestoneWeeks jobEvents st in
  let sorted := sortByDate (allBoxes st) in
  colorIndex (colorWalk jobEvents examplePalette ms (take 21 sorted))
  = S (colorIndex (colorWalk jobEvents examplePalette ms (take 20 sorted))).
Proof.
  intros st ms sorted.
  pose proof (color_walk_follows_milestones jobEvents examplePalette st
                (take 20 sorted) (drop 21 sorted)
                (mkGridBox Event (codePoints "Started job") (mkDate 2000 4 28)
                   2000 (Some Personal))) as H.
  assert (Hsplit : sortByDate (allBoxes st)
                   = take 20 sorted
                     ++ mkGridBox Event (codePoints "Started job")
                          (mkDate 2000 4 28) 2000 (Some Personal)
                     :: drop 21 sorted)
    by (vm_compute; reflexivity).
  specialize (H Hsplit). cbv zeta in H.
  destruct H as (_ & _ & _ & _ & _ & H & _).
  assert (Htake : take 21 sorted
                  = take 20 sorted
                    ++ [mkGridBox Event (codePoints "Started job")
                          (mkDate 2000 4 28) 2000 (Some Personal)])
    by (vm_compute; reflexivity).
  rewrite Htake. apply H. left.
  change (weekDateOf exampleConfig 2000 20 ∈ milestoneWeeks st).
  apply (walk_records exampleConfig jobEvents false 2000 20
           (mkDate 2000 5 1) [jobEvent]);
    try reflexivity; split; apply Z.leb_le; reflexivity.
Defined.




(** * A milestone that the scan of its week does not reach *)

(** C6 does not hold of the code.  In the example the week of Sunday
    2000-05-28 has an exam on Monday and a milestone on Friday: the scan
    stops at Monday, the week's box shows the exam, the walk records no
    milestone week, and the date that the colour pass adds for the
    milestone is the date of no box.  The index stays 0 to the end and
    every box is mapped to the first palette entry: the milestone causes
    no transition. *)
Theorem shadowed_milestone_never_advances :
  let st := walk exampleConfig shadowedEvents false in
  let pass := colorPass shadowedEvents examplePalette st in
  isMilestone graduationEvent = true
  /\ mkDate 2000 4 28 <= mkDate 2000 5 2 <= mkDate 2000 4 28 + 6
  /\ mkGridBox Event (codePoints "Exam") (mkDate 2000 4 28) 2000
       (Some Personal) ∈ allBoxes st
  /\ milestoneWeeks st = ∅
  /\ elements (completeMilestoneWeeks shadowedEvents st) = [mkDate 2000 5 2]
  /\ colorIndex pass = 0%nat
  /\ forallb
       (fun b =>
          bool_decide (boxColorMap pass !! date b = Some (Some "A"%string)))
       (allBoxes st) = true.
Proof.
  intros st pass.
  split; [reflexivity|].
  split; [split; apply Z.leb_le; reflexivity|].
  split.
  { replace (mkGridBox Event (codePoints "Exam") (mkDate 2000 4 28) 2000
               (Some Personal))
      with (boxForWeek shadowedEvents false (weekDateOf exampleConfig 2000 20)
              (anniversary exampleConfig (2000 + 1)) 2000)
      by (vm_compute; reflexivity).
    apply walk_has_week_box; try reflexivity; split; apply Z.leb_le;
      reflexivity. }
  split.
  { apply set_eq. intros d. split; [|intros Hd; inversion Hd].
    intros Hd. exfalso.
    assert (H : elements (milestoneWeeks st) = []) by (vm_compute; reflexivity).
    apply elem_of_elements in Hd. rewrite H in Hd. inversion Hd. }
  split; [vm_compute; reflexivity|].
  split; vm_compute; reflexivity.
Qed.

(** * The walk feeding the layout and the colour pass *)

Lemma emojiAt_nonempty text m : emojiAt text = Some m -> m <> [].
Proof.
  unfold emojiAt. destruct text as [|c rest]; [discriminate|].
  destruct (emojiBeforeFlag c); [intros [= <-]; discriminate|].
  destruct rest as [|c' rest].
  - destruct (emojiAfterFlag c); [intros [= <-]|]; discriminate.
  - destruct (isRegionalIndicator c && isRegionalIndicator c');
      [intros [= <-]; discriminate|].
    destruct (emojiAfterFlag c); [intros [= <-]|]; discriminate.
Qed.

Lemma matchEmoji_nonempty text m rest :
  matchEmoji text = Some (m, rest) -> m <> [].
Proof.
  induction text as [|c text IH]; [discriminate|].
  change (matchEmoji (c :: text))
    with (match emojiAt (c :: text) with
          | Some m => Some (m, text)
          | None => matchEmoji text
          end).
  destruct (emojiAt (c :: text)) as [m'|] eqn:E; [|exact IH].
  intros [= <- _]. eapply emojiAt_nonempty, E.
Qed.

Lemma extractFirstEmoji_nonempty text m :
  extractFirstEmoji text = Some m -> m <> [].
Proof.
  unfold extractFirstEmoji.
  destruct (matchEmoji text) as [[m0 rest]|] eqn:E; [|discriminate].
  apply matchEmoji_nonempty in E.
  destruct (js_length m0 =? 1); [|intros [= <-]; exact E].
  destruct rest as [|next rest]; [intros [= <-]; exact E|].
  destruct (isRegionalIndicator (firstUnit next)); intros [= <-];
    [|exact E].
  destruct m0; discriminate.
Qed.

Lemma primaryEventOf_elem first others :
  primaryEventOf first others ∈ first :: others.
Proof.
  unfold primaryEventOf.
  destruct (find isMilestone (first :: others)) as [e|] eqn:E; simpl.
  - apply find_some in E as [E _]. apply list_elem_of_In, E.
  - left.
Qed.

Section PipelineFacts.

Variable weeksConfig : WeeksConfig.
Variable mergedEvents : gmap Z (list MergedEvent).
Variable isCompactMode : bool.

Lemma eventsForWeekOf_lookup weekDate nextBirthday events :
  eventsForWeekOf mergedEvents weekDate nextBirthday = Some events ->
  exists d, mergedEvents !! d = Some events.
Proof.
  unfold eventsForWeekOf.
  destruct (scanDays mergedEvents weekDays weekDate nextBirthday)
    as [[d evs]|] eqn:E.
  - intros [= <-]. apply scanDays_Some in E as (_ & _ & _ & _ & _ & _ & H & _).
    eauto.
  - eauto.
Qed.

Lemma boxForWeek_label weekDate nextBirthday yr :
  headlinesNonEmpty mergedEvents ->
  labelMatchesType
    (boxForWeek mergedEvents isCompactMode weekDate nextBirthday yr).
Proof.
  intros Hne. unfold boxForWeek, labelMatchesType.
  destruct (eventsForWeekOf mergedEvents weekDate nextBirthday)
    as [[|first others]|] eqn:E; simpl; try tauto.
  apply eventsForWeekOf_lookup in E as (d & E).
  pose proof (Hne d _ _ E (primaryEventOf_elem first others)) as Hhead.
  destruct isCompactMode; simpl.
  - destruct (shouldShowInCompact (headline (primaryEventOf first others)))
      eqn:Es; simpl; [|tauto].
    apply bool_decide_eq_true in Es. unfold createCompactEventLabel.
    destruct (extractFirstEmoji (headline (primaryEventOf first others)))
      as [m|] eqn:Em; [|contradiction].
    apply extractFirstEmoji_nonempty in Em. simpl.
    split; [discriminate|contradiction].
  - split; [discriminate|contradiction].
Qed.

Lemma birthdayBox_label yr :
  labelMatchesType (birthdayBox weeksConfig isCompactMode yr).
Proof.
  unfold labelMatchesType, birthdayBox, createBirthdayLabel. simpl.
  destruct isCompactMode; split; discriminate.
Qed.

(** Where no headline is empty, the labels of the boxes of the walk agree
    with their types. *)
Lemma walk_labels_match :
  headlinesNonEmpty mergedEvents ->
  Forall labelMatchesType
    (allBoxes (walk weeksConfig mergedEvents isCompactMode)).
Proof.
  intros Hne. rewrite walk_allBoxes. apply Forall_forall. intros b Hb.
  apply list_elem_of_In, in_flat_map in Hb as (yr & _ & Hb).
  apply list_elem_of_In, elem_of_yearBoxes in Hb as [[_ ->]|(w & _ & Hb)].
  - apply birthdayBox_label.
  - unfold weekBoxes in Hb. destruct (_ <=? _); [inversion Hb|].
    apply list_elem_of_singleton in Hb. subst b.
    apply boxForWeek_label, Hne.
Qed.

(** X20. The rows of the component fit the effective container width: no
    row reaches it but a single box that alone does. *)
Lemma WeeksGrid_rows_fit innerWidth measured milestoneColors :
  headlinesNonEmpty mergedEvents ->
  Forall
    (fitsContainer innerWidth isCompactMode
       (if num_gt measured (px 0) then Some measured else None))
    (WeeksGrid innerWidth measured isCompactMode mergedEvents
       milestoneColors weeksConfig).2.
Proof.
  intros Hne. unfold WeeksGrid. simpl.
  apply processBoxesIntoRows_fits, walk_labels_match, Hne.
Qed.

(** X21. A milestone on the day that the scan of a week uses advances the
    index of the colour pass at the box of the week. *)
Lemma found_milestone_advances yr week dayDate eventsForDay :
  let weekDate := weekDateOf weeksConfig yr week in
  let nextBirthday := anniversary weeksConfig (yr + 1) in
  let st := walk weeksConfig mergedEvents isCompactMode in
  let box := boxForWeek mergedEvents isCompactMode weekDate nextBirthday yr in
  startYear weeksConfig <= yr <= endYear weeksConfig ->
  startWeekOf weeksConfig yr <= week <= 52 ->
  weekDate < nextBirthday ->
  scanDays mergedEvents weekDays weekDate nextBirthday
    = Some (dayDate, eventsForDay) ->
  existsb isMilestone eventsForDay = true ->
  box ∈ sortByDate (allBoxes st)
  /\ forall milestoneColors cs,
       colorIndex
         (colorStep mergedEvents milestoneColors
            (completeMilestoneWeeks mergedEvents st) cs box)
       = S (colorIndex cs).
Proof.
  intros weekDate nextBirthday st box Hyr Hweek Hlt Hscan Hm. split.
  - unfold st. rewrite sortByDate_walk. apply walk_has_week_box; assumption.
  - intros milestoneColors cs. rewrite colorStep_index.
    destruct (decide _) as [_|Hnot]; [reflexivity|].
    exfalso. apply Hnot. apply completeMilestoneWeeks_spec. left.
    unfold box. rewrite boxForWeek_date.
    eapply walk_records; eassumption.
Qed.

End PipelineFacts.


(** * The event merger *)

Section MergeFacts.

Lemma addPersonalEvents_lookup (lifeEvents : gmap Z (list SourceEvent)) d :
  addPersonalEvents lifeEvents ∅ !! d
  = map (withEventType Personal) <$> lifeEvents !! d.
Proof.
  unfold addPersonalEvents.
  apply (map_fold_weak_ind
           (fun (acc : gmap Z (list MergedEvent)) m =>
              acc !! d = map (withEventType Personal) <$> m !! d)).
  - rewrite !lookup_empty. reflexivity.
  - intros i x m r Hi IH. destruct (decide (i = d)) as [->|Hne].
    + rewrite !lookup_insert_eq. reflexivity.
    + rewrite !lookup_insert_ne by exact Hne. exact IH.
Qed.

(** What a date holds once a source is added: the list it held, then the
    events of the source. *)
Lemma addSourceEvents_lookup source
    (sourceEvents : gmap Z (list SourceEvent))
    (merged : gmap Z (list MergedEvent)) d :
  addSourceEvents source sourceEvents merged !! d
  = match sourceEvents !! d with
    | Some events =>
        Some (default [] (merged !! d) ++ map (withEventType source) events)
    | None => merged !! d
    end.
Proof.
  unfold addSourceEvents.
  apply (map_fold_weak_ind
           (fun (acc : gmap Z (list MergedEvent)) m =>
              acc !! d
              = match m !! d with
                | Some events =>
                    Some (default [] (merged !! d)
                          ++ map (withEventType source) events)
                | None => merged !! d
                end)).
  - rewrite lookup_empty. reflexivity.
  - intros i x m r Hi IH. destruct (decide (i = d)) as [->|Hne].
    + rewrite !lookup_insert_eq. rewrite Hi in IH.
      destruct (r !! d) as [l|] eqn:E.
      * rewrite E. simpl. rewrite <- IH. reflexivity.
      * rewrite lookup_insert_eq. simpl. rewrite <- IH. reflexivity.
    + rewrite (lookup_insert_ne _ i d) by exact Hne.
      rewrite lookup_insert_ne by exact Hne.
      destruct (r !! i); [exact IH|].
      rewrite lookup_insert_ne by exact Hne. exact IH.
Qed.

(** The events of a date in the merged mapping. *)
Lemma getMergedEvents_events (showWorld showPresidents : bool)
    (worldEvents usPresidents lifeEvents : gmap Z (list SourceEvent))
    (d : Z) :
  eventsAt
    (getMergedEvents showWorld showPresidents worldEvents usPresidents
       lifeEvents) d
  = map (withEventType Personal) (sourceEventsAt lifeEvents d)
    ++ (if showWorld
        then map (withEventType World) (sourceEventsAt worldEvents d)
        else [])
    ++ (if showPresidents
        then map (withEventType President) (sourceEventsAt usPresidents d)
        else []).
Proof.
  unfold getMergedEvents, eventsAt, sourceEventsAt.
  destruct showWorld, showPresidents;
    rewrite ?addSourceEvents_lookup, ?addPersonalEvents_lookup;
    destruct (lifeEvents !! d) as [l|]; destruct (worldEvents !! d) as [w|];
    destruct (usPresidents !! d) as [p|]; simpl;
    rewrite ?app_nil_r, <- ?app_assoc; reflexivity.
Qed.

Lemma tagged_not_milestone source s :
  source <> Personal -> isMilestone (withEventType source s) = false.
Proof.
  intros H. unfold isMilestone, withEventType. simpl.
  rewrite bool_decide_eq_false_2 by exact H. reflexivity.
Qed.

End MergeFacts.

(** X1.  At every date the merged mapping holds the personal events of the
    date, then its world events when they are enabled, then its president
    events when they are enabled, each tagged with its source and in the
    order of its source: nothing is dropped, reordered or deduplicated.  A
    date is a key of the merged mapping exactly when it is a key of a
    source that is included. *)
Theorem getMergedEvents_lookup (showWorld showPresidents : bool)
    (worldEvents usPresidents lifeEvents : gmap Z (list SourceEvent))
    (d : Z) :
  let merged :=
    getMergedEvents showWorld showPresidents worldEvents usPresidents
      lifeEvents in
  eventsAt merged d
  = map (withEventType Personal) (sourceEventsAt lifeEvents d)
    ++ (if showWorld
        then map (withEventType World) (sourceEventsAt worldEvents d)
        else [])
    ++ (if showPresidents
        then map (withEventType President) (sourceEventsAt usPresidents d)
        else [])
  /\ (merged !! d = None
      <-> lifeEvents !! d = None
          /\ (showWorld = true -> worldEvents !! d = None)
          /\ (showPresidents = true -> usPresidents !! d = None)).
Proof.
  split; [apply getMergedEvents_events|].
  unfold getMergedEvents.
  destruct showWorld, showPresidents;
    rewrite ?addSourceEvents_lookup, ?addPersonalEvents_lookup;
    destruct (lifeEvents !! d) as [l|]; destruct (worldEvents !! d) as [w|];
    destruct (usPresidents !! d) as [p|]; simpl;
    split; intros H;
    repeat split; try tauto; try discriminate;
    try (intros _; tauto);
    destruct H as (H1 & H2 & H3);
    try discriminate; try (specialize (H2 eq_refl); discriminate);
    try (specialize (H3 eq_refl); discriminate).
Qed.

(** X2.  A milestone of the merged mapping is always a personal event that
    the life events flag as milestone, at the same date: a world or
    president event never counts as a milestone, whatever flags its record
    carries. *)
Theorem merged_milestone_is_personal (showWorld showPresidents : bool)
    (worldEvents usPresidents lifeEvents : gmap Z (list SourceEvent))
    (d : Z) (e : MergedEvent) :
  e ∈ eventsAt
        (getMergedEvents showWorld showPresidents worldEvents usPresidents
           lifeEvents) d ->
  isMilestone e = true ->
  exists s,
    s ∈ sourceEventsAt lifeEvents d
    /\ sourceMilestone s = true
    /\ e = withEventType Personal s.
Proof.
  intros Hin Hm. rewrite getMergedEvents_events in Hin.
  apply elem_of_app in Hin as [Hin|Hin].
  - apply list_elem_of_In, in_map_iff in Hin as (s & <- & Hs).
    exists s. split; [apply list_elem_of_In, Hs|]. split; [|reflexivity].
    unfold isMilestone in Hm. apply andb_true_iff in Hm. tauto.
  - exfalso. apply elem_of_app in Hin as [Hin|Hin].
    + destruct showWorld; [|inversion Hin].
      apply list_elem_of_In, in_map_iff in Hin as (s & <- & _).
      rewrite tagged_not_milestone in Hm by discriminate. discriminate.
    + destruct showPresidents; [|inversion Hin].
      apply list_elem_of_In, in_map_iff in Hin as (s & <- & _).
      rewrite tagged_not_milestone in Hm by discriminate. discriminate.
Qed.

Lemma merged_milestone_is_personal_witness :
  exists s,
    s ∈ sourceEventsAt exampleLife (mkDate 2000 5 1)
    /\ sourceMilestone s = true
    /\ withEventType Personal
         (mkSourceEvent (codePoints "Started job") true None)
       = withEventType Personal s.
Proof.
  apply (merged_milestone_is_personal true false exampleWorld ∅ exampleLife
           (mkDate 2000 5 1)).
  - vm_compute. left.
  - reflexivity.
Defined.

(** * The first emoji of a headline *)

Lemma emojiAt_shape c rest m :
  emojiAt (c :: rest) = Some m ->
  (m = [c] /\ isEmoji c = true)
  \/ (exists c' rest', rest = c' :: rest' /\ m = [c; c']
        /\ isRegionalIndicator c = true /\ isRegionalIndicator c' = true).
Proof.
  unfold emojiAt, isEmoji.
  destruct (emojiBeforeFlag c); [intros [= <-]; left; tauto|].
  destruct rest as [|c' rest'].
  - destruct (emojiAfterFlag c); [intros [= <-]; left; tauto|discriminate].
  - destruct (isRegionalIndicator c) eqn:E1;
      destruct (isRegionalIndicator c') eqn:E2; simpl;
      try (intros [= <-]; right; exists c', rest'; tauto);
      (destruct (emojiAfterFlag c); [intros [= <-]; left; tauto|discriminate]).
Qed.

(** The match is found after a part without emoji, and the text goes on
    after it. *)
Lemma matchEmoji_split text m rest :
  matchEmoji text = Some (m, rest) ->
  exists before after,
    text = before ++ m ++ after
    /\ existsb isEmoji before = false
    /\ (exists c, before ++ [c] ++ rest = text /\ hd_error m = Some c).
Proof.
  revert m rest. induction text as [|c text IH]; intros m rest; [discriminate|].
  change (matchEmoji (c :: text))
    with (match emojiAt (c :: text) with
          | Some m => Some (m, text)
          | None => matchEmoji text
          end).
  destruct (emojiAt (c :: text)) as [m'|] eqn:E.
  - intros [= <- <-].
    apply emojiAt_shape in E
      as [[-> _]|(c' & rest' & -> & -> & _)].
    + exists [], text. repeat split. exists c. split; reflexivity.
    + exists [], rest'. repeat split. exists c. split; reflexivity.
  - intros H. apply IH in H as (before & after & -> & Hb & c0 & Hc & Hhd).
    exists (c :: before), after. split; [reflexivity|]. split.
    + simpl. apply emojiAt_None in E. rewrite E. exact Hb.
    + exists c0. split; [|exact Hhd]. simpl in Hc |- *. f_equal. exact Hc.
Qed.

Lemma matchEmoji_shape text m rest :
  matchEmoji text = Some (m, rest) ->
  (exists c, m = [c] /\ isEmoji c = true)
  \/ (exists c c', m = [c; c']
        /\ isRegionalIndicator c = true /\ isRegionalIndicator c' = true).
Proof.
  revert m rest. induction text as [|c text IH]; intros m rest; [discriminate|].
  change (matchEmoji (c :: text))
    with (match emojiAt (c :: text) with
          | Some m => Some (m, text)
          | None => matchEmoji text
          end).
  destruct (emojiAt (c :: text)) as [m'|] eqn:E; [|apply IH].
  intros [= <- <-].
  apply emojiAt_shape in E as [[-> H]|(c' & rest' & _ & -> & H)]; eauto.
Qed.

(** A single UTF-16 unit is never a regional indicator. *)
Lemma firstUnit_not_regional c :
  (c <= 0x10FFFF)%N -> isRegionalIndicator (firstUnit c) = false.
Proof.
  intros Hc. unfold isRegionalIndicator, inRange, firstUnit.
  apply andb_false_iff. left. apply N.leb_gt.
  destruct (N.ltb_spec c 0x10000) as [Hlt|Hge]; [lia|].
  assert ((c - 0x10000) / 0x400 < 0x400)%N; [|lia].
  apply N.Div0.div_lt_upper_bound. lia.
Qed.

(** The special case for flags after a one-unit match never applies. *)
Lemma extractFirstEmoji_match text :
  validText text ->
  extractFirstEmoji text = fst <$> matchEmoji text.
Proof.
  intros Hv. unfold extractFirstEmoji.
  destruct (matchEmoji text) as [[m rest]|] eqn:E; [|reflexivity].
  destruct (js_length m =? 1); [|reflexivity].
  destruct rest as [|next rest]; [reflexivity|].
  rewrite firstUnit_not_regional; [reflexivity|].
  apply matchEmoji_split in E as (before & after & _ & _ & c & Hc & _).
  unfold validText in Hv. rewrite <- Hc, !Forall_app in Hv.
  destruct Hv as (_ & _ & Hv). apply Forall_cons in Hv. tauto.
Qed.

Lemma validText_check text :
  forallb (fun c => (c <=? 0x10FFFF)%N) text = true -> validText text.
Proof.
  intros H. apply Forall_forall. intros c Hc.
  apply list_elem_of_In in Hc.
  rewrite forallb_forall in H. apply N.leb_le, H, Hc.
Qed.

Lemma js_length_single c : 1 <= js_length [c] <= 2.
Proof. unfold js_length. simpl. destruct (c <? 65536)%N; lia. Qed.

Lemma js_length_regional c :
  isRegionalIndicator c = true -> js_length [c] = 2.
Proof.
  unfold isRegionalIndicator, inRange, js_length. simpl.
  intros H. apply andb_true_iff in H as [H _]. apply N.leb_le in H.
  destruct (N.ltb_spec c 65536); lia.
Qed.

Lemma js_length_app s t : js_length (s ++ t) = js_length s + js_length t.
Proof.
  induction s as [|c s IH]; [reflexivity|].
  unfold js_length in *. simpl. rewrite IH. lia.
Qed.

(** X3. The emoji that [extractFirstEmoji] returns is the first match of
    the emoji pattern in the text: no code point before it is an emoji, and
    it is one emoji code point or a pair of regional indicators.  The
    extension by a following flag unit never applies. *)
Theorem extractFirstEmoji_first text m :
  validText text ->
  extractFirstEmoji text = Some m ->
  exists before after,
    text = before ++ m ++ after
    /\ existsb isEmoji before = false
    /\ ((exists c, m = [c] /\ isEmoji c = true)
        \/ (exists c c', m = [c; c']
              /\ isRegionalIndicator c = true
              /\ isRegionalIndicator c' = true)).
Proof.
  intros Hv. rewrite (extractFirstEmoji_match text Hv).
  destruct (matchEmoji text) as [[m' rest]|] eqn:E; [|discriminate].
  intros [= <-].
  destruct (matchEmoji_split _ _ _ E) as (before & after & Ht & Hb & _).
  exists before, after. split; [exact Ht|]. split; [exact Hb|].
  exact (matchEmoji_shape _ _ _ E).
Qed.

Lemma extractFirstEmoji_first_witness :
  exists before after,
    headline launchEvent = before ++ [rocket] ++ after
    /\ existsb isEmoji before = false
    /\ ((exists c, [rocket] = [c] /\ isEmoji c = true)
        \/ (exists c c', [rocket] = [c; c']
              /\ isRegionalIndicator c = true
              /\ isRegionalIndicator c' = true)).
Proof.
  apply (extractFirstEmoji_first (headline launchEvent) [rocket]).
  - apply validText_check. reflexivity.
  - reflexivity.
Defined.

(** X4. A headline is shown in compact mode exactly when one of its code
    points, at any position, is in a range of the emoji pattern. *)
Theorem shouldShowInCompact_iff headline :
  shouldShowInCompact headline = true
  <-> exists c, c ∈ headline /\ isEmoji c = true.
Proof.
  rewrite shouldShowInCompact_spec, existsb_exists.
  split; intros (c & Hc & He); exists c; split; try exact He;
    apply list_elem_of_In; exact Hc.
Qed.

(** X5. The compact label of a headline is empty exactly when the headline
    is not shown in compact mode; otherwise it is one to four UTF-16 units
    long. *)
Theorem createCompactEventLabel_length headline :
  (createCompactEventLabel headline = []
   <-> shouldShowInCompact headline = false)
  /\ (shouldShowInCompact headline = true ->
      1 <= js_length (createCompactEventLabel headline) <= 4).
Proof.
  rewrite shouldShowInCompact_spec. unfold createCompactEventLabel.
  destruct (extractFirstEmoji headline) as [m|] eqn:E.
  - assert (Hne : m <> []) by exact (extractFirstEmoji_nonempty _ _ E).
    assert (Hex : existsb isEmoji headline = true).
    { destruct (existsb isEmoji headline) eqn:Hx; [reflexivity|].
      apply extractFirstEmoji_None in Hx. congruence. }
    rewrite Hex. simpl. split; [split; [tauto|discriminate]|]. intros _.
    unfold extractFirstEmoji in E.
    destruct (matchEmoji headline) as [[m0 rest]|] eqn:Em; [|discriminate].
    assert (Hm0 : 1 <= js_length m0 <= 4).
    { destruct (matchEmoji_shape _ _ _ Em)
        as [(c & -> & _)|(c & c' & -> & H1 & H2)].
      - pose proof (js_length_single c). lia.
      - change [c; c'] with ([c] ++ [c']).
        rewrite js_length_app, (js_length_regional _ H1),
          (js_length_regional _ H2). lia. }
    destruct (Z.eqb_spec (js_length m0) 1) as [H1|H1];
      [|injection E as <-; exact Hm0].
    destruct rest as [|next rest]; [injection E as <-; exact Hm0|].
    destruct (isRegionalIndicator (firstUnit next)) eqn:Hr;
      [|injection E as <-; exact Hm0].
    injection E as <-.
    rewrite js_length_app, H1, (js_length_regional _ Hr). lia.
  - apply extractFirstEmoji_None in E. rewrite E. simpl.
    split; [tauto|discriminate].
Qed.

(** * The constants derived from a measured width *)

Lemma Qle_bool_inject_Z a b : Qle_bool (inject_Z a) (inject_Z b) = (a <=? b).
Proof. unfold Qle_bool, inject_Z. simpl. rewrite !Z.mul_1_r. reflexivity. Qed.

Lemma num_min_px a b : num_min (px a) (px b) = px (Z.min a b).
Proof.
  unfold num_min, num_le, px. rewrite Qle_bool_inject_Z.
  destruct (Z.leb_spec a b); [rewrite Z.min_l|rewrite Z.min_r];
    try reflexivity; lia.
Qed.

Lemma num_max_px a b : num_max (px a) (px b) = px (Z.max a b).
Proof.
  unfold num_max, num_le, px. rewrite Qle_bool_inject_Z.
  destruct (Z.leb_spec a b); [rewrite Z.max_r|rewrite Z.max_l];
    try reflexivity; lia.
Qed.

Lemma num_gt_0_pos q : (0 < q)%Q -> num_gt (Fin q) (px 0) = true.
Proof.
  intros Hq. unfold num_gt, num_lt, px, Qlt_bool.
  destruct (Qle_bool q (inject_Z 0)) eqn:E; [|reflexivity].
  apply Qle_bool_iff in E. exfalso. apply (Qlt_not_le _ _ Hq). exact E.
Qed.

(** The double product of a finite width above zero and 0.95 is finite;
    its integer part is not negative, is not above the width, and is above
    94% of the width less one. *)
Lemma safe_width_bounds q :
  (0 < q)%Q -> (q < 2 ^ 1024)%Q ->
  let r := roundToQuantum (q * (8556839292003942 # 9007199254740992)) in
  double_mul (Fin q) safetyMargin = Fin r
  /\ 0 <= Qfloor r
  /\ (inject_Z (Qfloor r) <= q)%Q
  /\ (q * (94 # 100) - 1 <= inject_Z (Qfloor r))%Q.
Proof.
  intros Hq Hfin.
  set (x := (q * (8556839292003942 # 9007199254740992))%Q).
  cbv zeta.
  assert (Hx : (0 < x)%Q)
    by (apply Qmult_lt_0_compat; [exact Hq|reflexivity]).
  assert (Htiny : (2 ^ (-1075) <= 1 # 128)%Q).
  { change (1 # 128)%Q with (2 ^ (-7))%Q.
    apply Qpower_le_compat_l; [lia|discriminate]. }
  assert (Htop : (1 <= 2 ^ 1024)%Q) by (apply Qpower_1_le; [discriminate|lia]).
  pose proof (pow2_pos (-1075)) as Hpos.
  destruct (roundToQuantum_error x Hx) as (H0 & Hlo & Hhi).
  assert (Hround : double_mul (Fin q) safetyMargin = Fin (roundToQuantum x)).
  { rewrite safetyMargin_value. unfold double_mul, num_mul, double_round.
    fold x. apply roundDouble_finite; [exact Hx|].
    change (2 ^ (-53))%Q with (1 # 9007199254740992)%Q.
    set (top := (2 ^ 1024)%Q) in *. set (u := (2 ^ (-1075))%Q) in *.
    unfold x. clearbody top u. lra. }
  split; [exact Hround|].
  pose proof (Qfloor_le (roundToQuantum x)) as Hf1.
  pose proof (Qlt_floor (roundToQuantum x)) as Hf2.
  rewrite inject_Z_plus in Hf2. change (inject_Z 1) with 1%Q in Hf2.
  assert (Hf0 : 0 <= Qfloor (roundToQuantum x)).
  { change 0 with (Qfloor 0). apply Qfloor_resp_le, H0. }
  split; [exact Hf0|].
  pose proof Hf0 as Hf0'. rewrite Zle_Qle in Hf0'.
  change (inject_Z 0) with 0%Q in Hf0'.
  change (2 ^ (-53))%Q with (1 # 9007199254740992)%Q in Hlo, Hhi.
  destruct (Qlt_le_dec q 1) as [Hsmall|Hlarge].
  - assert (Hz : Qfloor (roundToQuantum x) <= 0).
    { assert (Hlt : Qfloor (roundToQuantum x) < 1); [|lia].
      rewrite Zlt_Qlt. change (inject_Z 1) with 1%Q.
      set (F := inject_Z (Qfloor (roundToQuantum x))) in *.
      set (r := roundToQuantum x) in *. set (u := (2 ^ (-1075))%Q) in *.
      unfold x in Hlo, Hhi. clearbody F r u. lra. }
    rewrite Zle_Qle in Hz. change (inject_Z 0) with 0%Q in Hz.
    set (F := inject_Z (Qfloor (roundToQuantum x))) in *.
    clearbody F. split; lra.
  - set (F := inject_Z (Qfloor (roundToQuantum x))) in *.
    set (r := roundToQuantum x) in *. set (u := (2 ^ (-1075))%Q) in *.
    unfold x in Hlo, Hhi. clearbody F r u. split; lra.
Qed.

(** At the double 315.7894736842105 the product with 0.95 rounds to 300,
    though the width is below 6000/19; at 5000000000000001 it rounds up
    to the next whole number. *)
Lemma safe_width_rounds_as_doubles :
  containerWidth
    (calculateDynamicConstants (Fin (2777713585960421 # 8796093022208)) false)
  = px 300
  /\ containerWidth (calculateDynamicConstants (px 5000000000000001) false)
     = px 4750000000000001.
Proof. split; vm_compute; reflexivity. Qed.

(** X6. For a measured width that is finite and above zero, whatever the
    viewport, the constants are whole numbers of pixels: the effective
    container width is the integer part of the double product of the
    measured width and 0.95, which is not negative, not above the measured
    width, and above 94% of it less one pixel; the padding is between 2
    and 8, the character width between 5 and 10 and the minimal week box
    width between 12 and 20. *)
Theorem measured_constants_bounds (innerWidth : option Z) (compactMode : bool)
    (q : Q) :
  (0 < q)%Q ->
  (q < 2 ^ 1024)%Q ->
  let constants :=
    getResponsiveConstants innerWidth compactMode (Some (Fin q)) in
  exists width padding char weekMin : Z,
    constants = mkConstants (px width) (px padding) (px char) (px weekMin)
    /\ px width = num_floor (double_mul (Fin q) safetyMargin)
    /\ 0 <= width /\ (inject_Z width <= q)%Q
    /\ (q * (94 # 100) - 1 <= inject_Z width)%Q
    /\ 2 <= padding <= 8 /\ 5 <= char <= 10 /\ 12 <= weekMin <= 20.
Proof.
  intros Hq Hfin. cbv zeta. unfold getResponsiveConstants.
  rewrite measured_guard, (num_gt_0_pos q Hq).
  destruct (safe_width_bounds q Hq Hfin) as (Hr & Hw0 & Hw1 & Hw2).
  cbv zeta in Hr. unfold calculateDynamicConstants. rewrite Hr.
  set (r := roundToQuantum (q * (8556839292003942 # 9007199254740992))) in *.
  change (num_floor (Fin r)) with (px (Qfloor r)).
  destruct compactMode.
  - destruct (num_le (Fin q) (px 480));
      [|destruct (num_le (Fin q) (px 768))];
      eexists _, _, _, _; (split; [reflexivity|]);
      (split; [reflexivity|]); repeat split; try assumption; lia.
  - destruct (clamp_floor_rounded 2 8 (q / inject_Z 150))
      as (padding & Hp & Hp1); [lia|].
    destruct (clamp_floor_rounded 12 20 (q / inject_Z 50))
      as (weekMin & Hm & Hm1); [lia|].
    change (double_div (Fin q) (px 150)) with (roundDouble (q / inject_Z 150)).
    change (double_div (Fin q) (px 50)) with (roundDouble (q / inject_Z 50)).
    rewrite Hp, Hm.
    destruct (num_lt (Fin q) (px 350));
      [|destruct (num_lt (Fin q) (px 500));
        [|destruct (num_lt (Fin q) (px 650))]];
      eexists _, _, _, _; (split; [reflexivity|]);
      (split; [reflexivity|]); repeat split; try assumption; lia.
Qed.

Lemma measured_constants_bounds_witness :
  exists width padding char weekMin : Z,
    getResponsiveConstants (Some 1280) false (Some (px 1000))
    = mkConstants (px width) (px padding) (px char) (px weekMin)
    /\ px width = num_floor (double_mul (px 1000) safetyMargin)
    /\ 0 <= width /\ (inject_Z width <= inject_Z 1000)%Q
    /\ (inject_Z 1000 * (94 # 100) - 1 <= inject_Z width)%Q
    /\ 2 <= padding <= 8 /\ 5 <= char <= 10 /\ 12 <= weekMin <= 20.
Proof.
  apply (measured_constants_bounds (Some 1280) false (inject_Z 1000)).
  - reflexivity.
  - vm_compute. reflexivity.
Defined.

(** * The rows of [processBoxesIntoRows] *)

Section BreakFacts.

Variable innerWidth : option Z.
Variable compactMode : bool.
Variable measuredWidth : option number.

Abbreviation justified :=
  (breaksJustified innerWidth compactMode measuredWidth).
Abbreviation broke := (breakBefore innerWidth compactMode measuredWidth).
Abbreviation bstep := (rowStep innerWidth compactMode measuredWidth).

Lemma breaksJustified_snoc rs prev next :
  justified (rs ++ [prev]) -> broke prev next ->
  justified ((rs ++ [prev]) ++ [next]).
Proof.
  intros H Hb. induction rs as [|r0 rs IH]; simpl.
  - destruct next; [destruct Hb|]. split; [exact Hb|exact I].
  - simpl in H.
    destruct (rs ++ [prev]) as [|r1 rest] eqn:E;
      [destruct rs; discriminate|].
    destruct H as [H0 H1]. simpl. split; [exact H0|]. apply IH, H1.
Qed.

Lemma breaksJustified_extend rs row box :
  row <> [] -> justified (rs ++ [row]) -> justified (rs ++ [row ++ [box]]).
Proof.
  intros Hne. induction rs as [|r0 rs IH]; intros H; simpl.
  - exact I.
  - simpl in H. destruct rs as [|r1 rs]; simpl in *.
    + destruct row as [|b row]; [congruence|]. simpl. tauto.
    + destruct H as [H0 H1]. split; [exact H0|]. apply IH, H1.
Qed.

Lemma breaksJustified_at rs l1 prev next l2 :
  justified rs -> rs = l1 ++ prev :: next :: l2 -> broke prev next.
Proof.
  intros H ->. induction l1 as [|r0 l1 IH]; simpl in H.
  - tauto.
  - destruct (l1 ++ prev :: next :: l2) as [|r1 rest] eqn:E;
      [destruct l1; discriminate|].
    apply IH. tauto.
Qed.

Lemma rowStep_justified st box :
  rowStateJustified innerWidth compactMode measuredWidth st ->
  rowStateJustified innerWidth compactMode measuredWidth (bstep st box).
Proof.
  intros (Hw & Hnil & Hj). unfold rowStateJustified, rowStep.
  destruct (shouldBreakBeforeBox _ _ _ _ _ && negb _) eqn:Eb; simpl.
  - apply andb_true_iff in Eb as [Eb El].
    split; [reflexivity|]. split; [discriminate|].
    apply breaksJustified_snoc; [exact Hj|]. simpl. rewrite <- Hw. exact Eb.
  - split; [rewrite rowWidth_snoc, Hw; reflexivity|].
    split; [intros H; destruct (currentRow st); discriminate|].
    destruct (currentRow st) as [|b row] eqn:Ec.
    + rewrite (Hnil eq_refl). exact I.
    + apply breaksJustified_extend; [discriminate|exact Hj].
Qed.

Lemma fold_rowStep_justified boxes st :
  rowStateJustified innerWidth compactMode measuredWidth st ->
  rowStateJustified innerWidth compactMode measuredWidth
    (fold_left bstep boxes st).
Proof.
  revert st. induction boxes as [|box boxes IH]; intros st H; simpl.
  - exact H.
  - apply IH, rowStep_justified, H.
Qed.

Lemma processBoxesIntoRows_justified boxes :
  justified (processBoxesIntoRows innerWidth boxes compactMode measuredWidth).
Proof.
  unfold processBoxesIntoRows.
  destruct (fold_rowStep_justified boxes (mkRowState [] [] (px 0)))
    as (_ & Hnil & Hj).
  { repeat split. }
  unfold flushRow.
  destruct (length (currentRow _) =? 0)%nat eqn:El; simpl; [|exact Hj].
  apply length_eqb_0_nil in El. rewrite (Hnil El). exact I.
Qed.

Abbreviation unbroken := (noInnerBreak innerWidth compactMode measuredWidth).

Lemma snoc_split {A} (l pre post : list A) (x y : A) :
  l ++ [x] = pre ++ y :: post ->
  (post = [] /\ pre = l /\ y = x)
  \/ exists post', post = post' ++ [x] /\ l = pre ++ y :: post'.
Proof.
  destruct post as [|z post] using rev_ind.
  - intros H. apply app_inj_tail in H as [-> ->]. left. repeat split.
  - clear IHpost. intros H.
    change (pre ++ y :: post ++ [z]) with (pre ++ (y :: post) ++ [z]) in H.
    rewrite app_assoc in H. apply app_inj_tail in H as [-> ->].
    right. exists post. split; reflexivity.
Qed.

Lemma unbroken_nil : unbroken [].
Proof. intros pre box post H. destruct pre; discriminate. Qed.

Lemma unbroken_singleton box : unbroken [box].
Proof.
  intros pre b post H Hne. destruct pre as [|b0 pre]; [congruence|].
  destruct pre; discriminate.
Qed.

Lemma rowStep_unbroken st box :
  rowStateUnbroken innerWidth compactMode measuredWidth st ->
  rowStateUnbroken innerWidth compactMode measuredWidth (bstep st box).
Proof.
  intros (Hw & Hrows & Hcur). unfold rowStateUnbroken, rowStep.
  destruct (shouldBreakBeforeBox _ _ _ _ _ && negb _) eqn:Eb; simpl.
  - split; [reflexivity|]. split; [|apply unbroken_singleton].
    apply Forall_app. split; [exact Hrows|]. constructor; [exact Hcur|].
    constructor.
  - split; [rewrite rowWidth_snoc, Hw; reflexivity|].
    split; [exact Hrows|].
    intros pre b post H Hne.
    apply snoc_split in H as [(-> & -> & ->)|(post' & -> & H)].
    + apply andb_false_iff in Eb as [Eb|Eb].
      * rewrite <- Hw. exact Eb.
      * apply negb_false_iff, length_eqb_0_nil in Eb. congruence.
    + exact (Hcur pre b post' H Hne).
Qed.

Lemma fold_rowStep_unbroken boxes st :
  rowStateUnbroken innerWidth compactMode measuredWidth st ->
  rowStateUnbroken innerWidth compactMode measuredWidth
    (fold_left bstep boxes st).
Proof.
  revert st. induction boxes as [|box boxes IH]; intros st H; simpl.
  - exact H.
  - apply IH, rowStep_unbroken, H.
Qed.

Lemma processBoxesIntoRows_unbroken boxes :
  Forall unbroken
    (processBoxesIntoRows innerWidth boxes compactMode measuredWidth).
Proof.
  unfold processBoxesIntoRows.
  destruct (fold_rowStep_unbroken boxes (mkRowState [] [] (px 0)))
    as (_ & Hrows & Hcur).
  { split; [reflexivity|]. split; [constructor|apply unbroken_nil]. }
  unfold flushRow.
  destruct (length (currentRow _) =? 0)%nat; simpl; [exact Hrows|].
  apply Forall_app. split; [exact Hrows|]. constructor; [exact Hcur|].
  constructor.
Qed.

End BreakFacts.

Lemma length_concat_nonempty {A} (rs : list (list A)) :
  Forall (fun row => row <> []) rs -> (length rs <= length (concat rs))%nat.
Proof.
  induction 1 as [|row rs Hne _ IH]; simpl; [lia|].
  rewrite length_app. destruct row; [congruence|]. simpl. lia.
Qed.

(** X7. A row of [processBoxesIntoRows] ends only where the break test
    fired: for two consecutive rows, the test held for the width of the
    earlier row and the label of the first box of the later one.  Where
    the label of that box agrees with its type, the earlier row is
    maximal: with the box added it would reach the effective container
    width. *)
Theorem row_breaks_justified (innerWidth : option Z) (boxes : list GridBox)
    (compactMode : bool) (measuredWidth : option number)
    (before : list (list GridBox)) (prev next : list GridBox)
    (after : list (list GridBox)) :
  processBoxesIntoRows innerWidth boxes compactMode measuredWidth
  = before ++ prev :: next :: after ->
  exists box rest,
    next = box :: rest
    /\ shouldBreakBeforeBox innerWidth
         (rowWidth innerWidth compactMode measuredWidth prev) (label box)
         compactMode measuredWidth = true
    /\ (labelMatchesType box ->
        num_ge
          (rowWidth innerWidth compactMode measuredWidth (prev ++ [box]))
          (containerWidth
             (getResponsiveConstants innerWidth compactMode measuredWidth))
        = true).
Proof.
  intros H.
  pose proof (breaksJustified_at innerWidth compactMode measuredWidth _ _ _ _ _
                (processBoxesIntoRows_justified innerWidth compactMode
                   measuredWidth boxes) H) as Hb.
  destruct next as [|box rest]; [destruct Hb|].
  exists box, rest. split; [reflexivity|]. split; [exact Hb|].
  intros Hbox. simpl in Hb.
  rewrite shouldBreakBeforeBox_agrees in Hb by exact Hbox.
  rewrite rowWidth_snoc. exact Hb.
Qed.

Lemma row_breaks_justified_witness :
  exists box rest,
    [plainWeekBox] = box :: rest
    /\ shouldBreakBeforeBox None
         (rowWidth None false (Some (px 40)) [plainWeekBox]) (label box)
         false (Some (px 40)) = true
    /\ (labelMatchesType box ->
        num_ge (rowWidth None false (Some (px 40)) ([plainWeekBox] ++ [box]))
          (containerWidth (getResponsiveConstants None false (Some (px 40))))
        = true).
Proof.
  apply (row_breaks_justified None [plainWeekBox; plainWeekBox] false
           (Some (px 40)) [] [plainWeekBox] [plainWeekBox] []).
  reflexivity.
Defined.

(** X8. [processBoxesIntoRows] returns no more rows than there are boxes,
    and no row at all exactly for no box. *)
Theorem rows_count (innerWidth : option Z) (boxes : list GridBox)
    (compactMode : bool) (measuredWidth : option number) :
  let result :=
    processBoxesIntoRows innerWidth boxes compactMode measuredWidth in
  (length result <= length boxes)%nat /\ (result = [] <-> boxes = []).
Proof.
  cbv zeta. unfold processBoxesIntoRows.
  set (st := fold_left _ boxes _).
  assert (Hc : concat (flushRow st) = boxes).
  { unfold st. rewrite flushRow_concat, fold_rowStep_placed. reflexivity. }
  assert (Hn : Forall (fun row => row <> []) (flushRow st)).
  { apply flushRow_nonempty, fold_rowStep_rows_nonempty. constructor. }
  split.
  - pose proof (length_concat_nonempty _ Hn) as Hl.
    rewrite Hc in Hl. exact Hl.
  - split.
    + intros H. rewrite H in Hc. symmetry. exact Hc.
    + intros H. rewrite H in Hc.
      destruct (flushRow st) as [|row rs]; [reflexivity|].
      apply Forall_cons in Hn as [Hne _].
      destruct row; [congruence|discriminate].
Qed.

(** X9. Where the label of every box agrees with its type (the boxes
    without label are the week boxes), every row of [processBoxesIntoRows]
    is strictly below the effective container width, or is a single box
    that alone reaches it. *)
Theorem rows_fit_container (innerWidth : option Z) (boxes : list GridBox)
    (compactMode : bool) (measuredWidth : option number) :
  Forall labelMatchesType boxes ->
  Forall (fitsContainer innerWidth compactMode measuredWidth)
    (processBoxesIntoRows innerWidth boxes compactMode measuredWidth).
Proof. apply processBoxesIntoRows_fits. Qed.

Lemma rows_fit_container_witness :
  Forall (fitsContainer None false (Some (px 40)))
    (processBoxesIntoRows None [plainWeekBox; plainWeekBox] false
       (Some (px 40))).
Proof.
  apply (rows_fit_container None [plainWeekBox; plainWeekBox] false
           (Some (px 40))).
  repeat constructor; discriminate.
Defined.

(** X10. [shouldBreakRow] predicts the breaks of [processBoxesIntoRows]
    at the boxes with a label: its verdict for the width of the row so far
    and the label of the box is to break exactly at the first box of a row
    after the first row, and not to break at a later box of a row. *)
Theorem shouldBreakRow_predicts (innerWidth : option Z)
    (boxes : list GridBox) (compactMode : bool)
    (measuredWidth : option number) :
  let result :=
    processBoxesIntoRows innerWidth boxes compactMode measuredWidth in
  (forall before prev box rest after,
     result = before ++ prev :: (box :: rest) :: after ->
     label box <> [] ->
     shouldBreak
       (shouldBreakRow innerWidth
          (rowWidth innerWidth compactMode measuredWidth prev) (label box)
          compactMode measuredWidth) = true)
  /\ (forall row pre box post,
        row ∈ result -> row = pre ++ box :: post -> pre <> [] ->
        label box <> [] ->
        shouldBreak
          (shouldBreakRow innerWidth
             (rowWidth innerWidth compactMode measuredWidth pre) (label box)
             compactMode measuredWidth) = false).
Proof.
  cbv zeta.
  assert (Hagree : forall width text,
             text <> [] ->
             shouldBreak
               (shouldBreakRow innerWidth width text compactMode
                  measuredWidth)
             = shouldBreakBeforeBox innerWidth width text compactMode
                 measuredWidth).
  { intros width text Hne. unfold shouldBreakRow, shouldBreakBeforeBox.
    destruct text; [congruence|reflexivity]. }
  split.
  - intros before prev box rest after H Hne. rewrite Hagree by exact Hne.
    exact (breaksJustified_at innerWidth compactMode measuredWidth _ _ _ _ _
             (processBoxesIntoRows_justified innerWidth compactMode
                measuredWidth boxes) H).
  - intros row pre box post Hrow Hsplit Hpre Hne.
    rewrite Hagree by exact Hne.
    pose proof (processBoxesIntoRows_unbroken innerWidth compactMode
                  measuredWidth boxes) as Hall.
    rewrite Forall_forall in Hall.
    exact (Hall row Hrow pre box post Hsplit Hpre).
Qed.

(** X25. Inside a row of [processBoxesIntoRows] no break was due: for
    every box of a row but the first, the break test failed at the width
    of the boxes before it in the row. *)
Theorem no_break_inside_row (innerWidth : option Z) (boxes : list GridBox)
    (compactMode : bool) (measuredWidth : option number)
    (row pre post : list GridBox) (box : GridBox) :
  row ∈ processBoxesIntoRows innerWidth boxes compactMode measuredWidth ->
  row = pre ++ box :: post ->
  pre <> [] ->
  shouldBreakBeforeBox innerWidth
    (rowWidth innerWidth compactMode measuredWidth pre) (label box)
    compactMode measuredWidth = false.
Proof.
  intros Hrow Hsplit Hpre.
  pose proof (processBoxesIntoRows_unbroken innerWidth compactMode
                measuredWidth boxes) as Hall.
  rewrite Forall_forall in Hall.
  exact (Hall row Hrow pre box post Hsplit Hpre).
Qed.

Lemma no_break_inside_row_witness :
  shouldBreakBeforeBox None
    (rowWidth None false None [plainWeekBox]) (label plainWeekBox)
    false None = false.
Proof.
  apply (no_break_inside_row None [plainWeekBox; plainWeekBox] false None
           [plainWeekBox; plainWeekBox] [plainWeekBox] [] plainWeekBox).
  - apply list_elem_of_here.
  - reflexivity.
  - discriminate.
Defined.

(** * The walk as a whole *)



Section WalkTotals.

Variable weeksConfig : WeeksConfig.
Variable mergedEvents : gmap Z (list MergedEvent).
Variable isCompactMode : bool.



End WalkTotals.






Section RecordedWeeks.

Variable weeksConfig : WeeksConfig.
Variable mergedEvents : gmap Z (list MergedEvent).
Variable isCompactMode : bool.

Abbreviation recordedFor := (weekRecordedFor mergedEvents).

Lemma weekStep_recorded yr st week :
  (forall d, d ∈ milestoneWeeks st -> recordedFor st d) ->
  forall d,
    d ∈ milestoneWeeks (weekStep weeksConfig mergedEvents isCompactMode yr st
                          week) ->
    recordedFor (weekStep weeksConfig mergedEvents isCompactMode yr st week) d.
Proof.
  intros IH d. unfold weekStep.
  destruct (anniversary weeksConfig (yr + 1) <=? weekDateOf weeksConfig yr week);
    [apply IH|].
  simpl. unfold milestoneWeeksAfterScan.
  assert (Hold : d ∈ milestoneWeeks st ->
                 recordedFor
                   (mkWalkState
                      (allBoxes st
                       ++ [boxForWeek mergedEvents isCompactMode
                             (weekDateOf weeksConfig yr week)
                             (anniversary weeksConfig (yr + 1)) yr])
                      (milestoneWeeks st)) d).
  { intros Hd. destruct (IH d Hd) as [(b & Hb & Hdate & Hty) Hday].
    split; [|exact Hday]. exists b. simpl.
    split; [apply elem_of_app; left; exact Hb|tauto]. }
  destruct (scanDays mergedEvents weekDays _ _) as [[dayDate eventsForDay]|]
    eqn:Hscan; [|exact Hold].
  destruct (existsb isMilestone eventsForDay) eqn:Hm; [|exact Hold].
  intros Hd. apply elem_of_union in Hd as [Hd|Hd]; [|exact (Hold Hd)].
  apply elem_of_singleton in Hd. subst d.
  apply scanDays_week in Hscan as (Hrange & _ & Hlook & _).
  split.
  - exists (boxForWeek mergedEvents isCompactMode
              (weekDateOf weeksConfig yr week)
              (anniversary weeksConfig (yr + 1)) yr).
    simpl. split; [apply elem_of_app; right; apply list_elem_of_singleton;
                   reflexivity|].
    destruct (boxForWeek_fields mergedEvents isCompactMode
                (weekDateOf weeksConfig yr week)
                (anniversary weeksConfig (yr + 1)) yr) as (H1 & _ & H3).
    split; assumption.
  - exists dayDate, eventsForDay. tauto.
Qed.

Lemma fold_weekStep_recorded yr weeks st :
  (forall d, d ∈ milestoneWeeks st -> recordedFor st d) ->
  forall d,
    d ∈ milestoneWeeks
          (fold_left (weekStep weeksConfig mergedEvents isCompactMode yr)
             weeks st) ->
    recordedFor
      (fold_left (weekStep weeksConfig mergedEvents isCompactMode yr)
         weeks st) d.
Proof.
  revert st. induction weeks as [|week weeks IH]; intros st H; simpl.
  - exact H.
  - apply IH, weekStep_recorded, H.
Qed.

Lemma yearStep_recorded st yr :
  (forall d, d ∈ milestoneWeeks st -> recordedFor st d) ->
  forall d,
    d ∈ milestoneWeeks (yearStep weeksConfig mergedEvents isCompactMode st yr)
    -> recordedFor (yearStep weeksConfig mergedEvents isCompactMode st yr) d.
Proof.
  intros H. unfold yearStep. apply fold_weekStep_recorded.
  destruct (0 <? yr - startYear weeksConfig); [|exact H].
  simpl. intros d Hd. destruct (H d Hd) as [(b & Hb & Hdate & Hty) Hday].
  split; [|exact Hday]. exists b.
  split; [apply elem_of_app; left; exact Hb|tauto].
Qed.

Lemma fold_yearStep_recorded years st :
  (forall d, d ∈ milestoneWeeks st -> recordedFor st d) ->
  forall d,
    d ∈ milestoneWeeks
          (fold_left (yearStep weeksConfig mergedEvents isCompactMode)
             years st) ->
    recordedFor
      (fold_left (yearStep weeksConfig mergedEvents isCompactMode) years st)
      d.
Proof.
  revert st. induction years as [|yr years IH]; intros st H; simpl.
  - exact H.
  - apply IH, yearStep_recorded, H.
Qed.

Lemma walk_recorded d :
  d ∈ milestoneWeeks (walk weeksConfig mergedEvents isCompactMode) ->
  recordedFor (walk weeksConfig mergedEvents isCompactMode) d.
Proof.
  unfold walk. apply fold_yearStep_recorded.
  simpl. intros d' Hd'. apply elem_of_empty in Hd'. destruct Hd'.
Qed.

End RecordedWeeks.

(** X14. Every milestone week that the walk records is the date of a week
    or event box that the walk pushed, and one of the seven days from that
    date has a milestone-flagged personal event. *)
Theorem recorded_week_has_box (weeksConfig : WeeksConfig)
    (mergedEvents : gmap Z (list MergedEvent)) (isCompactMode : bool)
    (d : Z) :
  let st := walk weeksConfig mergedEvents isCompactMode in
  d ∈ milestoneWeeks st ->
  (exists b, b ∈ allBoxes st /\ date b = d /\ type b <> Birthday)
  /\ exists dayDate eventsForDay,
       d <= dayDate <= d + 6
       /\ mergedEvents !! dayDate = Some eventsForDay
       /\ existsb isMilestone eventsForDay = true.
Proof. cbv zeta. apply walk_recorded. Qed.

Lemma recorded_week_has_box_witness :
  let st := walk exampleConfig jobEvents false in
  (exists b, b ∈ allBoxes st /\ date b = mkDate 2000 4 28
             /\ type b <> Birthday)
  /\ exists dayDate eventsForDay,
       mkDate 2000 4 28 <= dayDate <= mkDate 2000 4 28 + 6
       /\ jobEvents !! dayDate = Some eventsForDay
       /\ existsb isMilestone eventsForDay = true.
Proof.
  apply (recorded_week_has_box exampleConfig jobEvents false
           (mkDate 2000 4 28)).
  change (weekDateOf exampleConfig 2000 20
            ∈ milestoneWeeks (walk exampleConfig jobEvents false)).
  apply (walk_records exampleConfig jobEvents false 2000 20
           (mkDate 2000 5 1) [jobEvent]);
    try reflexivity; split; apply Z.leb_le; reflexivity.
Defined.

(** * The colour map *)

Section ColorMapFacts.

Variable mergedEvents : gmap Z (list MergedEvent).
Variable milestoneColors : list string.
Variable allMilestoneWeeks : gset Z.

Abbreviation mstep :=
  (colorStep mergedEvents milestoneColors allMilestoneWeeks).

Lemma fold_colorStep_keys boxes st d :
  is_Some (boxColorMap (fold_left mstep boxes st) !! d)
  <-> is_Some (boxColorMap st !! d) \/ exists b, b ∈ boxes /\ date b = d.
Proof.
  revert st. induction boxes as [|box boxes IH]; intros st; simpl.
  - split; [tauto|]. intros [H|(b & Hb & _)]; [exact H|inversion Hb].
  - rewrite IH. destruct (decide (d = date box)) as [->|Hne].
    + rewrite colorStep_map. split.
      * intros _. right. exists box. split; [apply list_elem_of_here|].
        reflexivity.
      * intros _. left. eexists. reflexivity.
    + rewrite (colorStep_map_other _ _ _ st box d Hne). split.
      * intros [H|(b & Hb & Hd)]; [tauto|]. right. exists b.
        split; [apply list_elem_of_further, Hb|exact Hd].
      * intros [H|(b & Hb & Hd)]; [tauto|]. right. exists b.
        split; [|exact Hd].
        apply elem_of_cons in Hb as [->|Hb]; [congruence|exact Hb].
Qed.


Variable allBoxes' : list GridBox.

Abbreviation sourced :=
  (colorsSourced mergedEvents milestoneColors allBoxes').
Abbreviation source := (colorSource mergedEvents milestoneColors allBoxes').

Lemma colorStep_sourced st box :
  box ∈ allBoxes' -> sourced st -> sourced (mstep st box).
Proof.
  intros Hbox [(c0 & Hc0 & Hs0) Hmap].
  assert (Hcur : exists c, currentBoxColor (mstep st box) = Some c /\ source c).
  { rewrite colorStep_unfold. cbv zeta. simpl.
    rewrite applyOverrides_last.
    destruct (last (overridesOf (eventsAt mergedEvents (date box))))
      as [c|] eqn:El.
    - exists c. split; [reflexivity|]. right.
      apply last_Some_elem_of, list_elem_of_omap in El as (e & He & Hf).
      exists box, e. destruct (isMilestone e) eqn:Hm; [|discriminate].
      repeat split; assumption.
    - destruct (decide (date box ∈ allMilestoneWeeks)); [|eauto].
      destruct (Nat.ltb_spec (S (colorIndex st)) (length milestoneColors))
        as [Hlt|Hge]; [|eauto].
      destruct (lookup_lt_is_Some_2 milestoneColors _ Hlt) as [c Hc].
      exists c. split; [exact Hc|]. left.
      exact (list_elem_of_lookup_2 _ _ _ Hc). }
  split; [exact Hcur|].
  intros d v. destruct (decide (d = date box)) as [->|Hne].
  - rewrite colorStep_map. intros [= <-]. exact Hcur.
  - rewrite (colorStep_map_other _ _ _ st box d Hne). apply Hmap.
Qed.

Lemma fold_colorStep_sourced boxes st :
  (forall b, b ∈ boxes -> b ∈ allBoxes') ->
  sourced st -> sourced (fold_left mstep boxes st).
Proof.
  revert st. induction boxes as [|box boxes IH]; intros st Hb Hst; simpl.
  - exact Hst.
  - apply IH; [intros b H; apply Hb, list_elem_of_further, H|].
    apply colorStep_sourced; [apply Hb, list_elem_of_here|exact Hst].
Qed.

Lemma initial_sourced :
  milestoneColors <> [] -> sourced (initialColorState milestoneColors).
Proof.
  intros Hne. destruct milestoneColors as [|c0 rest] eqn:E; [congruence|].
  split.
  - exists c0. split; [reflexivity|]. left. apply list_elem_of_here.
  - intros d v H. simpl in H. rewrite lookup_empty in H. discriminate.
Qed.

End ColorMapFacts.

Lemma elem_of_sortByDate boxes b : b ∈ sortByDate boxes <-> b ∈ boxes.
Proof. rewrite (sortByDate_perm boxes). reflexivity. Qed.

Lemma noMilestones_overrides mergedEvents d :
  noMilestones mergedEvents -> overridesOf (eventsAt mergedEvents d) = [].
Proof.
  intros H. unfold overridesOf.
  specialize (H d). induction (eventsAt mergedEvents d) as [|e l IH];
    [reflexivity|].
  simpl. rewrite (H e) by apply list_elem_of_here.
  apply IH. intros e' He'. apply H, list_elem_of_further, He'.
Qed.

Lemma noMilestones_exists mergedEvents d :
  noMilestones mergedEvents ->
  existsb isMilestone (eventsAt mergedEvents d) = false.
Proof.
  intros H. destruct (existsb isMilestone (eventsAt mergedEvents d)) eqn:E;
    [|reflexivity].
  apply existsb_exists in E as (e & He & Hm).
  apply list_elem_of_In in He. rewrite (H d e He) in Hm. discriminate.
Qed.

(** X15. The colour map of the colour pass is defined exactly at the dates
    of the boxes. *)
Theorem color_map_keys (mergedEvents : gmap Z (list MergedEvent))
    (milestoneColors : list string) (st : WalkState) (d : Z) :
  is_Some (boxColorMap (colorPass mergedEvents milestoneColors st) !! d)
  <-> exists b, b ∈ allBoxes st /\ date b = d.
Proof.
  unfold colorPass, colorWalk. rewrite fold_colorStep_keys. simpl.
  rewrite lookup_empty. split.
  - intros [[v Hv]|(b & Hb & Hd)]; [discriminate|].
    exists b. split; [apply elem_of_sortByDate, Hb|exact Hd].
  - intros (b & Hb & Hd). right. exists b.
    split; [apply elem_of_sortByDate, Hb|exact Hd].
Qed.

(** X16. With a non-empty palette every box gets a colour, and the colour
    is an entry of the palette or the color of a milestone-flagged
    personal event at the date of a box. *)
Theorem box_color_has_source (mergedEvents : gmap Z (list MergedEvent))
    (milestoneColors : list string) (st : WalkState) (box : GridBox) :
  milestoneColors <> [] ->
  box ∈ allBoxes st ->
  exists c,
    boxColorMap (colorPass mergedEvents milestoneColors st) !! date box
    = Some (Some c)
    /\ (c ∈ milestoneColors
        \/ exists b e,
             b ∈ allBoxes st /\ e ∈ eventsAt mergedEvents (date b)
             /\ isMilestone e = true /\ colorOverride e = Some c).
Proof.
  intros Hne Hbox.
  assert (Hs : colorsSourced mergedEvents milestoneColors (allBoxes st)
                 (colorPass mergedEvents milestoneColors st)).
  { unfold colorPass, colorWalk. apply fold_colorStep_sourced.
    - intros b Hb. apply elem_of_sortByDate, Hb.
    - apply initial_sourced, Hne. }
  assert (Hk : is_Some (boxColorMap (colorPass mergedEvents milestoneColors st)
                          !! date box)).
  { unfold colorPass, colorWalk. apply fold_colorStep_keys. right.
    exists box. split; [apply elem_of_sortByDate, Hbox|reflexivity]. }
  destruct Hk as [v Hv]. destruct Hs as [_ Hmap].
  destruct (Hmap _ _ Hv) as (c & -> & Hc). exists c. split; assumption.
Qed.

Lemma box_color_has_source_witness :
  exists c,
    boxColorMap (colorPass moonEvents examplePalette (mkWalkState [moonBox] ∅))
      !! date moonBox
    = Some (Some c)
    /\ (c ∈ examplePalette
        \/ exists b e,
             b ∈ [moonBox] /\ e ∈ eventsAt moonEvents (date b)
             /\ isMilestone e = true /\ colorOverride e = Some c).
Proof.
  apply (box_color_has_source moonEvents examplePalette
           (mkWalkState [moonBox] ∅) moonBox).
  - discriminate.
  - apply list_elem_of_here.
Defined.



(** X18. Where no event is a milestone-flagged personal event, every box
    of the walk is mapped to the first entry of the palette: colors of
    other events change nothing. *)
Theorem no_milestones_one_color (weeksConfig : WeeksConfig)
    (mergedEvents : gmap Z (list MergedEvent)) (isCompactMode : bool)
    (milestoneColors : list string) (box : GridBox) :
  let st := walk weeksConfig mergedEvents isCompactMode in
  noMilestones mergedEvents ->
  box ∈ allBoxes st ->
  boxColorMap (colorPass mergedEvents milestoneColors st) !! date box
  = Some (head milestoneColors).
Proof.
  cbv zeta. intros Hno Hbox. unfold colorPass, colorWalk.
  pose proof (fold_colorStep_quiet mergedEvents milestoneColors
                (completeMilestoneWeeks mergedEvents
                   (walk weeksConfig mergedEvents isCompactMode))
                (sortByDate
                   (allBoxes (walk weeksConfig mergedEvents isCompactMode)))
                (initialColorState milestoneColors)) as Hquiet.
  cbv zeta in Hquiet. destruct Hquiet as (_ & _ & _ & Hmap).
  - apply Forall_forall. intros b _. split.
    + intros Hd. apply completeMilestoneWeeks_spec in Hd as [Hd|Hd].
      * apply walk_recorded in Hd as [_ (dayDate & events & _ & Hl & Hm)].
        pose proof (noMilestones_exists mergedEvents dayDate Hno) as Hx.
        unfold eventsAt in Hx. rewrite Hl in Hx. simpl in Hx. congruence.
      * rewrite (noMilestones_exists mergedEvents (date b) Hno) in Hd.
        discriminate.
    + apply noMilestones_overrides, Hno.
  - rewrite (Hmap box) by (apply elem_of_sortByDate, Hbox).
    simpl. destruct milestoneColors; reflexivity.
Qed.

Lemma moonEvents_noMilestones : noMilestones moonEvents.
Proof.
  intros d e He. unfold eventsAt, moonEvents in He.
  destruct (({[mkDate 1969 6 20 := [moonLanding]]} : gmap Z _) !! d)
    as [events|] eqn:El; [|inversion He].
  apply lookup_singleton_Some in El as [_ <-]. simpl in He.
  apply list_elem_of_singleton in He. subst e. reflexivity.
Qed.

Lemma no_milestones_one_color_witness :
  let box :=
    boxForWeek moonEvents false (weekDateOf exampleConfig 2000 20)
      (anniversary exampleConfig (2000 + 1)) 2000 in
  boxColorMap
    (colorPass moonEvents examplePalette (walk exampleConfig moonEvents false))
    !! date box
  = Some (head examplePalette).
Proof.
  intros box.
  apply (no_milestones_one_color exampleConfig moonEvents false
           examplePalette box).
  - exact moonEvents_noMilestones.
  - apply walk_has_week_box; try reflexivity; split; apply Z.leb_le;
      reflexivity.
Defined.

(** * Decade sections *)


















(** * The measured width of the component *)

Lemma keptWidths_cons w widths :
  keptWidths (w :: widths)
  = if num_gt w (px 0) then w :: keptWidths widths else keptWidths widths.
Proof. reflexivity. Qed.

Lemma last_cons_default {A} (x : A) (l : list A) :
  last (x :: l) = Some (default x (last l)).
Proof. rewrite last_cons. destruct (last l); reflexivity. Qed.

Lemma fold_measure widths start :
  fold_left measure widths start = default start (last (keptWidths widths)).
Proof.
  revert start. induction widths as [|w widths IH]; intros start.
  - reflexivity.
  - cbn [fold_left]. rewrite IH, keptWidths_cons. unfold measure.
    destruct (num_gt w (px 0)); [|reflexivity].
    rewrite last_cons_default. reflexivity.
Qed.

(** X24. After any sequence of measurements the width handed to the layout
    is the last measurement that was above zero; measurements that are
    zero, negative or NaN change nothing, and before the first measurement
    above zero no width is handed over, so the static breakpoints apply. *)
Theorem measured_width_is_last_positive (widths : list number) :
  measuredWidthOf (measuredState widths) = last (keptWidths widths)
  /\ forall w, measuredWidthOf (measuredState widths) = Some w ->
               num_gt w (px 0) = true /\ w ∈ widths.
Proof.
  assert (H : measuredWidthOf (measuredState widths)
              = last (keptWidths widths)).
  { unfold measuredState. rewrite fold_measure. unfold measuredWidthOf.
    destruct (last (keptWidths widths)) as [w|] eqn:El; [|reflexivity].
    apply last_Some_elem_of, list_elem_of_In, filter_In in El as [_ Hw].
    change (default (px 0) (Some w)) with w.
    cbv beta in Hw. rewrite Hw. reflexivity. }
  split; [exact H|]. intros w Hw. rewrite H in Hw.
  apply last_Some_elem_of, list_elem_of_In, filter_In in Hw as [Hin Hpos].
  split; [exact Hpos|apply list_elem_of_In, Hin].
Qed.

(** * Witnesses for the pipeline *)

Lemma jobEvents_headlines : headlinesNonEmpty jobEvents.
Proof.
  intros d events e Hl He. unfold jobEvents in Hl.
  apply lookup_singleton_Some in Hl as [_ <-].
  apply list_elem_of_singleton in He. subst e. discriminate.
Qed.

Lemma WeeksGrid_rows_fit_witness :
  Forall (fitsContainer (Some 1280) false (Some (px 1000)))
    (WeeksGrid (Some 1280) (px 1000) false jobEvents examplePalette
       exampleConfig).2.
Proof.
  exact (WeeksGrid_rows_fit exampleConfig jobEvents false (Some 1280)
           (px 1000) examplePalette jobEvents_headlines).
Defined.

Lemma found_milestone_advances_witness :
  let st := walk exampleConfig jobEvents false in
  let box :=
    boxForWeek jobEvents false (weekDateOf exampleConfig 2000 20)
      (anniversary exampleConfig (2000 + 1)) 2000 in
  box ∈ sortByDate (allBoxes st)
  /\ forall milestoneColors cs,
       colorIndex
         (colorStep jobEvents milestoneColors
            (completeMilestoneWeeks jobEvents st) cs box)
       = S (colorIndex cs).
Proof.
  apply (found_milestone_advances exampleConfig jobEvents false 2000 20
           (mkDate 2000 5 1) [jobEvent]);
    try reflexivity; split; apply Z.leb_le; reflexivity.
Defined.
